(** * VintedSniper: fuzzy matching and market valuation

    A shallow embedding of [fuzzy_matcher.py] and [valuation_engine.py],
    and of [process_query] and [get_formatted_query_list] of [core.py].

    Python values are modelled as follows.
    - [str] is a list of Unicode code points ([list N]).
    - [float] is IEEE-754 binary64, i.e. Rocq's primitive [float].
    - [int] is [Z].
    - [Optional[T]] is [option T]; dataclasses are records.
    - a [dict] whose iteration order matters is an association list in
      insertion order.
    - a value whose type the code does not fix (a field of the decoded
      eBay response, an entry of the [fuzzy_result] dictionary) is a
      [Json.t], with [Json.Null] for [None].
    - an exception that can escape a function is a [Raise] result.

    Functions of third-party packages and of the environment ([unidecode],
    [str.lower] outside ASCII, [rapidfuzz.fuzz.token_set_ratio],
    [statistics.pstdev], [float()] on text, the HTTP session, [os.getenv],
    [urllib.parse], the [db] module) are section variables: every theorem
    holds for whatever those functions compute, under the stated
    hypotheses. *)

From Stdlib Require Import Ascii String DecimalString.
From Stdlib Require Import ZArith NArith PArith List Bool Lia Floats.
From Stdlib Require Import Permutation Sorted.
Import ListNotations.

Set Implicit Arguments.
Set Warnings "-inexact-float,-register-all".

(* ================================================================== *)
(** * Python primitives *)
(* ================================================================== *)

Module Py.

(** ** Text *)

Definition str := list N.

(** An ASCII literal as a [str]. *)
Definition u (s : String.string) : str :=
  List.map Ascii.N_of_ascii (String.list_ascii_of_string s).
Arguments u s%_string.

Definition str_eq_dec : forall a b : str, {a = b} + {a <> b} :=
  list_eq_dec N.eq_dec.

Definition str_eqb (a b : str) : bool :=
  if str_eq_dec a b then true else false.

(** [bool(s)] for a string. *)
Definition truthy (s : str) : bool :=
  match s with [] => false | _ => true end.

(** [bool(s)] for an optional string: [None] and [""] are falsy. *)
Definition truthy_opt (s : option str) : bool :=
  match s with Some (_ :: _) => true | _ => false end.

(** [x or ""] for an optional string. *)
Definition or_empty (s : option str) : str :=
  match s with Some x => x | None => [] end.

(** [x or None] for a string. *)
Definition or_none (s : str) : option str :=
  match s with [] => None | _ => Some s end.

(** [str.isspace] for one code point (the Unicode white-space set that
    CPython uses for [strip] and [split]). *)
Definition isspace (c : N) : bool :=
  ((9 <=? c) && (c <=? 13) || (28 <=? c) && (c <=? 32)
   || (c =? 133) || (c =? 160) || (c =? 5760)
   || (8192 <=? c) && (c <=? 8202)
   || (c =? 8232) || (c =? 8233) || (c =? 8239) || (c =? 8287)
   || (c =? 12288))%N.

Fixpoint lstrip_by (f : N -> bool) (s : str) : str :=
  match s with
  | [] => []
  | c :: s' => if f c then lstrip_by f s' else s
  end.

Definition rstrip_by (f : N -> bool) (s : str) : str :=
  rev (lstrip_by f (rev s)).

Definition strip_by (f : N -> bool) (s : str) : str :=
  rstrip_by f (lstrip_by f s).

(** [s.strip()] *)
Definition strip (s : str) : str := strip_by isspace s.

(** [s.strip(chars)]: [chars] is a set of characters, not a substring. *)
Definition strip_chars (chars : str) (s : str) : str :=
  strip_by (fun c => existsb (N.eqb c) chars) s.

(** [s.split()]: maximal runs of non-space characters. [cur] is the run
    being read, in reverse. *)
Fixpoint split_go (cur : str) (s : str) : list str :=
  match s with
  | [] => match cur with [] => [] | _ => [rev cur] end
  | c :: s' =>
      if isspace c
      then match cur with
           | [] => split_go [] s'
           | _ => rev cur :: split_go [] s'
           end
      else split_go (c :: cur) s'
  end.

Definition split (s : str) : list str := split_go [] s.

(** [sep.join(parts)] *)
Fixpoint join (sep : str) (parts : list str) : str :=
  match parts with
  | [] => []
  | [p] => p
  | p :: rest => p ++ sep ++ join sep rest
  end.

Fixpoint prefixb (p s : str) : bool :=
  match p, s with
  | [], _ => true
  | _ :: _, [] => false
  | a :: p', b :: s' => (a =? b)%N && prefixb p' s'
  end.

(** [s.replace(old, new)] for a non-empty [old]: occurrences are
    replaced left to right without overlap. [skip] counts the characters
    of a matched occurrence still to be passed over. *)
Fixpoint replace_go (old new : str) (skip : nat) (s : str) : str :=
  match s with
  | [] => []
  | c :: s' =>
      match skip with
      | S k => replace_go old new k s'
      | O =>
          if prefixb old s
          then new ++ replace_go old new (length old - 1) s'
          else c :: replace_go old new 0 s'
      end
  end.

Definition replace (old new : str) (s : str) : str :=
  replace_go old new 0 s.

(** [sub in s] *)
Fixpoint contains (sub s : str) : bool :=
  prefixb sub s ||
  match s with
  | [] => false
  | _ :: s' => contains sub s'
  end.

(** [s.split(sep, 1)] when [sep] occurs in [s]: the text before the
    first occurrence and the text after it. *)
Fixpoint split_once (sep : str) (s : str) : option (str * str) :=
  if prefixb sep s then Some ([], skipn (length sep) s)
  else match s with
       | [] => None
       | c :: s' =>
           match split_once sep s' with
           | Some (a, b) => Some (c :: a, b)
           | None => None
           end
       end.

(** Code-point order on strings ([a < b]). *)
Fixpoint str_ltb (a b : str) : bool :=
  match a, b with
  | _, [] => false
  | [], _ :: _ => true
  | x :: a', y :: b' =>
      if (x <? y)%N then true
      else if (y <? x)%N then false
      else str_ltb a' b'
  end.

Definition is_ascii (c : N) : bool := (c <? 128)%N.

(** [str.lower] restricted to ASCII: only [A-Z] change. *)
Definition ascii_lower (c : N) : N :=
  if ((65 <=? c) && (c <=? 90))%N then (c + 32)%N else c.

(** [str(n)] for an integer. *)
Definition str_of_int (n : Z) : str :=
  u (DecimalString.NilZero.string_of_int (Z.to_int n)).

(** ** Exceptions *)

Inductive exn : Type :=
| KeyError | IndexError | TypeError | AttributeError
| ValueError | OverflowError | StatisticsError.

Inductive res (A : Type) : Type :=
| Ok (a : A)
| Raise (e : exn).
Arguments Ok {A} a.
Arguments Raise {A} e.

Definition bind {A B} (m : res A) (k : A -> res B) : res B :=
  match m with
  | Ok a => k a
  | Raise e => Raise e
  end.

(** ** Floats *)

(** [bool(x)] for a float: zero (of either sign) is falsy, NaN is not. *)
Definition float_truthy (x : float) : bool :=
  negb (PrimFloat.eqb x 0%float).

(** ** Sorting *)

(** [sorted(l)] as a stable insertion sort driven by the strict order
    [lt], the only comparison [list.sort] uses. Where [lt] orders the
    elements totally up to equivalence (texts, floats other than NaN)
    every stable sort returns this list. With NaN among the floats the
    list that CPython's merge sort returns depends on its runs and is
    another permutation of the input: what is proved of the position of
    a price then assumes that no price is NaN. *)
Section Sorted.
Variable A : Type.
Variable lt : A -> A -> bool.

Fixpoint insert (x : A) (l : list A) : list A :=
  match l with
  | [] => [x]
  | y :: l' => if lt y x then y :: insert x l' else x :: l
  end.

Fixpoint sorted (l : list A) : list A :=
  match l with
  | [] => []
  | x :: l' => insert x (sorted l')
  end.

(** [min(l)] and [max(l)]: the first extremal element. *)
Definition min_of (x : A) (l : list A) : A :=
  fold_left (fun cur y => if lt y cur then y else cur) l x.

Definition max_of (x : A) (l : list A) : A :=
  fold_left (fun cur y => if lt cur y then y else cur) l x.
End Sorted.

End Py.

Notation "x <- m ;; k" := (Py.bind m (fun x => k))
  (at level 61, m at next level, right associativity).
Notation "' pat <- m ;; k" :=
  (Py.bind m (fun x => match x with pat => k end))
  (at level 61, pat pattern, m at next level, right associativity).

(* ================================================================== *)
(** * valuation_engine.py: data model *)
(* ================================================================== *)

(** The dictionary returned by [find_best_fuzzy_match]. *)
Module FuzzyResult.
Record t : Type := mk {
  score : float;
  source : Py.str;
  target : Py.str;
  source_text : option Py.str
}.
End FuzzyResult.

(** A [ListingComp] whose fields hold values of their declared types, as
    [ValuationEngine] and the display functions take it. *)
Module ListingComp.
Record t : Type := mk {
  title : Py.str;
  price : option float;
  currency : option Py.str;
  url : option Py.str;
  image : option Py.str;
  source : Py.str
}.
End ListingComp.

Module MarketSummary.
Record t : Type := mk {
  minimum : option float;
  maximum : option float;
  median : option float;
  currency : option Py.str;
  sample_size : Z;
  source : Py.str;
  prices : list float
}.

(** [MarketSummary(source=src)]: every other field at its default. *)
Definition default (src : Py.str) : t :=
  mk None None None None 0 src [].
End MarketSummary.

Module NormalizationResult.
Record t : Type := mk {
  title : Py.str;
  brand : option Py.str;
  canonical_query : Py.str;
  fuzzy_term : option Py.str;
  fuzzy_score : option float;
  match_quality : Py.str
}.
End NormalizationResult.

Module ValuationResult.
Record t : Type := mk {
  normalization : NormalizationResult.t;
  sold_summary : MarketSummary.t;
  active_summary : option MarketSummary.t;
  profit : option float;
  profit_currency : option Py.str;
  profit_multiple : option float;
  confidence_label : Py.str;
  confidence_icon : Py.str;
  item_price : float;
  item_currency : Py.str;
  sold_comps : list ListingComp.t;
  active_listings : list ListingComp.t
}.
End ValuationResult.

(* ================================================================== *)
(** * valuation_engine.py: ValuationEngine *)
(* ================================================================== *)

Module Statistics.
Import Py.

(** [statistics.median]: the middle element of the sorted data, or the
    mean of the two middle elements; [StatisticsError] on no data. *)
Definition median (data : list float) : res float :=
  let data := sorted PrimFloat.ltb data in
  let n := length data in
  match n with
  | O => Raise StatisticsError
  | _ =>
      if Nat.odd n then Ok (nth (n / 2) data 0%float)
      else
        let i := (n / 2)%nat in
        Ok ((nth (i - 1) data 0 + nth i data 0) / 2)%float
  end.
End Statistics.

Module ValuationEngine.
Import Py.

(** What [evaluate] needs of [self.fetcher] (the tests pass a stand-in
    with the same three methods). *)
Record Fetcher : Type := {
  pick_global_id : option str -> str;
  fetch_sold_comps : str -> Z -> option str -> res (list ListingComp.t);
  fetch_active_listings : str -> Z -> option str -> res (list ListingComp.t)
}.

(** [self.normalizer.normalize], an injected collaborator. *)
Definition Normalize : Type :=
  option str -> option str -> option str -> option FuzzyResult.t ->
  NormalizationResult.t.

Record t : Type := mk {
  fetcher : option Fetcher;
  normalizer : Normalize;
  sold_limit : Z;
  active_limit : Z;
  low_variance_threshold : float
}.

(** The confidence labels and their icons, as the source spells them. *)
Definition Low : str * str := (u "Low", [240; 376; 376; 160]%N).
Definition Medium : str * str := (u "Medium", [240; 376; 376; 161]%N).
Definition High : str * str := (u "High", [240; 376; 376; 162]%N).

(** [currency_groups.setdefault(cur, []).append(p)] on an insertion-ordered
    dictionary. *)
Fixpoint group_add (cur : str) (p : float)
         (groups : list (str * list float)) : list (str * list float) :=
  match groups with
  | [] => [(cur, [p])]
  | (k, ps) :: rest =>
      if str_eqb k cur then (k, ps ++ [p]) :: rest
      else (k, ps) :: group_add cur p rest
  end.

(** The loop of [_summarize] that builds [currency_groups]. *)
Definition group_by_currency (listings : list ListingComp.t)
  : list (str * list float) :=
  fold_left
    (fun groups listing =>
       match ListingComp.price listing, ListingComp.currency listing with
       | Some p, Some cur => group_add cur p groups
       | _, _ => groups
       end)
    listings [].

(** [max(groups.items(), key=lambda item: len(item[1]))]: the first item
    of maximal length. *)
Definition largest_group (first : str * list float)
           (rest : list (str * list float)) : str * list float :=
  fold_left
    (fun best item =>
       if (length (snd best) <? length (snd item))%nat then item else best)
    rest first.

Definition _summarize (listings : list ListingComp.t) (default_source : str)
  : res MarketSummary.t :=
  match listings with
  | [] => Ok (MarketSummary.default default_source)
  | _ =>
      match group_by_currency listings with
      | [] => Ok (MarketSummary.default default_source)
      | first :: rest =>
          let '(currency, prices) := largest_group first rest in
          let sorted_prices := sorted PrimFloat.ltb prices in
          med <- Statistics.median sorted_prices ;;
          match sorted_prices with
          | [] => Raise ValueError
          | p0 :: ps =>
              Ok (MarketSummary.mk
                    (Some (min_of PrimFloat.ltb p0 ps))
                    (Some (max_of PrimFloat.ltb p0 ps))
                    (Some med)
                    (Some currency)
                    (Z.of_nat (length sorted_prices))
                    default_source
                    sorted_prices)
          end
      end
  end.

Definition _estimate_profit (summary : MarketSummary.t)
           (item_price : float) (item_currency : str)
  : option float * option str * option float :=
  match (MarketSummary.sample_size summary =? 0)%Z,
        MarketSummary.median summary with
  | true, _ => (None, None, None)
  | false, None => (None, None, None)
  | false, Some med =>
      if truthy_opt (MarketSummary.currency summary)
              && negb (str_eqb (or_empty (MarketSummary.currency summary))
                               item_currency)
      then (None, MarketSummary.currency summary, None)
      else
        let profit := (med - item_price)%float in
        let multiple :=
          if (0 <? item_price)%float
          then Some (med / item_price)%float
          else None in
        (Some profit,
         (if truthy_opt (MarketSummary.currency summary)
          then MarketSummary.currency summary
          else Some item_currency),
         multiple)
  end.

Section Engine.
(** [statistics.pstdev] is not modelled. *)
Variable pstdev : list float -> float.
Variable self : t.

Definition _has_low_variance (prices : list float) : res bool :=
  if (length prices <? 2)%nat then Ok true
  else
    med <- Statistics.median prices ;;
    if (med <=? 0)%float then Ok false
    else
      let deviation := pstdev prices in
      if (deviation =? 0)%float then Ok true
      else
        let coefficient := (deviation / med)%float in
        Ok (coefficient <=? low_variance_threshold self)%float.

Definition _score_confidence (fuzzy_score : option float)
           (summary : MarketSummary.t) : res (str * str) :=
  let comps := MarketSummary.sample_size summary in
  if (comps <? 4)%Z then Ok Low
  else
    let score :=
      match fuzzy_score with
      | Some s => if float_truthy s then s else 0%float
      | None => 0%float
      end in
    high <-
      (if (90 <=? score)%float && (8 <=? comps)%Z
       then _has_low_variance (MarketSummary.prices summary)
       else Ok false) ;;
    if high then Ok High
    else if ((82 <=? score)%float && (score <? 90)%float)
            || ((4 <=? comps)%Z && (comps <=? 7)%Z)
    then Ok Medium
    else if (8 <=? comps)%Z then Ok Medium
    else Ok Low.

Definition evaluate (title brand : option str) (price : float)
           (currency : str) (base_search_text : option str)
           (fuzzy_result : option FuzzyResult.t)
  : res ValuationResult.t :=
  let normalization :=
    normalizer self title brand base_search_text fuzzy_result in
  let query := NormalizationResult.canonical_query normalization in
  '(sold_comps, active_listings, sold_summary, active_summary) <-
    match fetcher self, truthy query with
    | Some f, true =>
        let global_id := pick_global_id f (Some currency) in
        sold_comps <- fetch_sold_comps f query (sold_limit self)
                                       (Some global_id) ;;
        sold_summary <- _summarize sold_comps (u "eBay sold") ;;
        if (0 <? active_limit self)%Z
        then
          active_listings <- fetch_active_listings
                               f query (active_limit self)
                               (Some global_id) ;;
          active_summary <- _summarize active_listings (u "eBay active") ;;
          Ok (sold_comps, active_listings, sold_summary,
              Some active_summary)
        else Ok (sold_comps, [], sold_summary, None)
    | _, _ =>
        Ok ([], [], MarketSummary.default (u "eBay sold"), None)
    end ;;
  let '(profit, profit_currency, profit_multiple) :=
    _estimate_profit sold_summary price currency in
  '(confidence_label, confidence_icon) <-
    _score_confidence (NormalizationResult.fuzzy_score normalization)
                      sold_summary ;;
  Ok (ValuationResult.mk
        normalization sold_summary active_summary
        profit profit_currency profit_multiple
        confidence_label confidence_icon
        price currency sold_comps active_listings).
End Engine.

End ValuationEngine.


(* ================================================================== *)
(** * valuation_engine.py: EbayMarketDataFetcher *)
(* ================================================================== *)

(** A decoded JSON document, as [response.json()] returns it. *)
Module Json.
Import Py.

Inductive t : Type :=
| Null
| Bool (b : bool)
| Int (n : Z)
| Float (x : float)
| Str (s : str)
| Arr (l : list t)
| Obj (items : list (str * t)).

(** [bool(j)] *)
Definition truthy (j : t) : bool :=
  match j with
  | Null => false
  | Bool b => b
  | Int n => negb (n =? 0)%Z
  | Float x => float_truthy x
  | Str s => Py.truthy s
  | Arr l => match l with [] => false | _ => true end
  | Obj items => match items with [] => false | _ => true end
  end.

(** [a or b] *)
Definition or (a b : t) : t := if truthy a then a else b.

(** Lookup in a dictionary's items. *)
Fixpoint lookup (key : str) (items : list (str * t)) : option t :=
  match items with
  | [] => None
  | (k, v) :: rest => if str_eqb k key then Some v else lookup key rest
  end.

(** [j.get(key, default)]: only a dictionary has [get]. *)
Definition get (j : t) (key : str) (default : t) : res t :=
  match j with
  | Obj items =>
      Ok match lookup key items with Some v => v | None => default end
  | _ => Raise AttributeError
  end.

(** [j[0]]. The keys of a decoded object are strings, so indexing a
    non-empty object with [0] is a [KeyError]. *)
Definition first (j : t) : res t :=
  match j with
  | Arr (x :: _) => Ok x
  | Arr [] => Raise IndexError
  | Str (c :: _) => Ok (Str [c])
  | Str [] => Raise IndexError
  | Obj _ => Raise KeyError
  | Null | Bool _ | Int _ | Float _ => Raise TypeError
  end.

(** [j[key]] for a string key. *)
Definition item (j : t) (key : str) : res t :=
  match j with
  | Obj items =>
      match lookup key items with Some v => Ok v | None => Raise KeyError end
  | _ => Raise TypeError
  end.

(** [for x in j]: the elements of a list, the keys of a dictionary, the
    characters of a string. *)
Definition iter (j : t) : res (list t) :=
  match j with
  | Arr l => Ok l
  | Obj items => Ok (map (fun kv => Str (fst kv)) items)
  | Str s => Ok (map (fun c => Str [c]) s)
  | Null | Bool _ | Int _ | Float _ => Raise TypeError
  end.

(** [j != text] for a string literal. *)
Definition differs_from (j : t) (text : str) : bool :=
  match j with
  | Str s => negb (str_eqb s text)
  | _ => true
  end.
End Json.

(** A [ListingComp] as the fetcher fills it. A dataclass does not check
    the type of its fields: [title], [currency], [url] and [image] hold
    the decoded JSON value found at that place of the response, whatever
    its type, and [Json.Null] where Python has [None]. *)
Module FetchedComp.
Record t : Type := mk {
  title : Json.t;
  price : option float;
  currency : Json.t;
  url : Json.t;
  image : Json.t;
  source : Py.str
}.
End FetchedComp.

Module EbayMarketDataFetcher.
Import Py.

(** The request parameters, a dictionary in insertion order. *)
Definition Params : Type := list (str * str).

Fixpoint param (key : str) (params : Params) : option str :=
  match params with
  | [] => None
  | (k, v) :: rest => if str_eqb k key then Some v else param key rest
  end.

Record t : Type := mk {
  app_id : option str;
  default_global_id : str;
  (** [session.get(ENDPOINT, params, timeout)] followed by
      [raise_for_status()] and [json()]: the decoded body, or nothing on
      a [RequestException] or a decoding [ValueError]. *)
  session : Params -> option Json.t;
  timeout : Z
}.

Definition CURRENCY_TO_GLOBAL_ID : list (str * str) :=
  [ (u "EUR", u "EBAY-DE"); (u "USD", u "EBAY-US"); (u "GBP", u "EBAY-GB");
    (u "CAD", u "EBAY-ENCA"); (u "AUD", u "EBAY-AU");
    (u "CHF", u "EBAY-CH") ].

Definition pick_global_id (self : t) (currency : option str) : str :=
  match currency with
  | Some ((_ :: _) as c) =>
      match param c CURRENCY_TO_GLOBAL_ID with
      | Some id => id
      | None => default_global_id self
      end
  | _ => default_global_id self
  end.

Definition _perform_request (self : t) (params : Params) : Json.t :=
  match session self params with
  | Some data => data
  | None => Json.Obj []
  end.

(** Run [body]; a [KeyError], [IndexError] or [TypeError] gives
    [fallback], any other exception escapes. *)
Definition catch_lookup_errors {A} (body : res A) (fallback : A) : res A :=
  match body with
  | Raise KeyError | Raise IndexError | Raise TypeError => Ok fallback
  | other => other
  end.

Definition _extract_items (data : Json.t) (root_key : str) : res Json.t :=
  catch_lookup_errors
    (root <- Json.item data root_key ;;
     response <- Json.first root ;;
     results <- Json.get response (u "searchResult")
                         (Json.Arr [Json.Obj []]) ;;
     search_result <- Json.first results ;;
     Json.get search_result (u "item") (Json.Arr []))
    (Json.Arr []).

Section Price.
(** [float(text)]: nothing on a [ValueError]. *)
Variable float_of_str : str -> option float.
(** [float(n)] for an integer: nothing on an [OverflowError]. *)
Variable float_of_int : Z -> option float.

(** [float(value)] for a decoded JSON value other than null. *)
Definition to_float (value : Json.t) : res float :=
  match value with
  | Json.Float x => Ok x
  | Json.Int n =>
      match float_of_int n with
      | Some x => Ok x
      | None => Raise OverflowError
      end
  | Json.Bool b => Ok (if b then 1%float else 0%float)
  | Json.Str s =>
      match float_of_str s with
      | Some x => Ok x
      | None => Raise ValueError
      end
  | Json.Null | Json.Arr _ | Json.Obj _ => Raise TypeError
  end.

(** [info.get(key)] inside [try ... except AttributeError: None]. *)
Definition get_or_none (info : Json.t) (key : str) : Json.t :=
  match Json.get info key Json.Null with
  | Ok v => v
  | Raise _ => Json.Null
  end.

(** The currency of the pair is the value of ["@currencyId"] as it
    is, [Json.Null] standing for [None]. *)
Definition _extract_price (price_info : Json.t)
  : res (option float * Json.t) :=
  if negb (Json.truthy price_info) then Ok (None, Json.Null)
  else
    info <-
      match Json.first price_info with
      | Raise IndexError | Raise TypeError => Ok price_info
      | other => other
      end ;;
    let value := get_or_none info (u "__value__") in
    let currency := get_or_none info (u "@currencyId") in
    match value with
    | Json.Null => Ok (None, currency)
    | _ =>
        match to_float value with
        | Ok x => Ok (Some x, currency)
        | Raise TypeError | Raise ValueError => Ok (None, currency)
        | Raise e => Raise e
        end
    end.

(** The part of both loops that reads one item's price. *)
Definition item_price (item : Json.t)
  : res (Json.t * option float * Json.t) :=
  statuses <- Json.get item (u "sellingStatus") (Json.Arr [Json.Obj []]) ;;
  selling_status <- Json.first statuses ;;
  converted <- Json.get selling_status (u "convertedCurrentPrice")
                        Json.Null ;;
  current <- Json.get selling_status (u "currentPrice") Json.Null ;;
  let price_info := Json.or converted current in
  '(price, currency) <- _extract_price price_info ;;
  Ok (selling_status, price, currency).

(** [item.get(key, [default])[0]] *)
Definition first_of (item : Json.t) (key : str) (default : Json.t)
  : res Json.t :=
  values <- Json.get item key (Json.Arr [default]) ;;
  Json.first values.

Definition listing (item : Json.t) (price : option float)
           (currency : Json.t) (source : str) : res FetchedComp.t :=
  title <- first_of item (u "title") (Json.Str []) ;;
  url <- first_of item (u "viewItemURL") Json.Null ;;
  image <- first_of item (u "galleryURL") Json.Null ;;
  Ok (FetchedComp.mk title price currency url image source).

(** [selling_status.get("sellingState", [""])[0]] *)
Definition selling_state (selling_status : Json.t) : res Json.t :=
  first_of selling_status (u "sellingState") (Json.Str []).

(** [state and state != "EndedWithSales"] *)
Definition other_end_state (state : Json.t) : bool :=
  Json.truthy state && Json.differs_from state (u "EndedWithSales").

(** The body of the loop of [fetch_sold_comps] over the items. *)
Fixpoint sold_loop (items : list Json.t) (comps : list FetchedComp.t)
  : res (list FetchedComp.t) :=
  match items with
  | [] => Ok comps
  | item :: rest =>
      '(selling_status, price, currency) <- item_price item ;;
      state <- selling_state selling_status ;;
      if other_end_state state then sold_loop rest comps
      else
        comp <- listing item price currency (u "eBay sold") ;;
        sold_loop rest (comps ++ [comp])
  end.

Fixpoint active_loop (items : list Json.t) (listings : list FetchedComp.t)
  : res (list FetchedComp.t) :=
  match items with
  | [] => Ok listings
  | item :: rest =>
      '(_, price, currency) <- item_price item ;;
      comp <- listing item price currency (u "eBay active") ;;
      active_loop rest (listings ++ [comp])
  end.

(** [str(max(1, min(limit, 100)))] *)
Definition entries_per_page (limit : Z) : str :=
  str_of_int (Z.max 1 (Z.min limit 100)).

Definition with_global_id (params : Params) (global_id : option str)
  : Params :=
  match global_id with
  | Some ((_ :: _) as g) => params ++ [(u "GLOBAL-ID", g)]
  | _ => params
  end.

Definition sold_params (self : t) (query : str) (limit : Z)
           (global_id : option str) : Params :=
  with_global_id
    [ (u "OPERATION-NAME", u "findCompletedItems");
      (u "SERVICE-VERSION", u "1.13.0");
      (u "SECURITY-APPNAME", or_empty (app_id self));
      (u "RESPONSE-DATA-FORMAT", u "JSON");
      (u "REST-PAYLOAD", u "true");
      (u "keywords", query);
      (u "itemFilter(0).name", u "SoldItemsOnly");
      (u "itemFilter(0).value", u "true");
      (u "paginationInput.entriesPerPage", entries_per_page limit);
      (u "sortOrder", u "EndTimeSoonest") ]
    global_id.

Definition active_params (self : t) (query : str) (limit : Z)
           (global_id : option str) : Params :=
  with_global_id
    [ (u "OPERATION-NAME", u "findItemsAdvanced");
      (u "SERVICE-VERSION", u "1.13.0");
      (u "SECURITY-APPNAME", or_empty (app_id self));
      (u "RESPONSE-DATA-FORMAT", u "JSON");
      (u "REST-PAYLOAD", u "true");
      (u "keywords", query);
      (u "paginationInput.entriesPerPage", entries_per_page limit);
      (u "sortOrder", u "PricePlusShippingLowest") ]
    global_id.

(** Both fetch operations return the requests they sent, in order,
    beside their result. *)
Definition fetch_sold_comps (self : t) (query : str) (limit : Z)
           (global_id : option str)
  : list Params * res (list FetchedComp.t) :=
  if negb (truthy_opt (app_id self)) || negb (truthy query)
  then ([], Ok [])
  else
    let params := sold_params self query limit global_id in
    let data := _perform_request self params in
    ([params],
     items <- _extract_items data (u "findCompletedItemsResponse") ;;
     items <- Json.iter items ;;
     sold_loop items []).

Definition fetch_active_listings (self : t) (query : str) (limit : Z)
           (global_id : option str)
  : list Params * res (list FetchedComp.t) :=
  if negb (truthy_opt (app_id self)) || negb (truthy query)
  then ([], Ok [])
  else
    let params := active_params self query limit global_id in
    let data := _perform_request self params in
    ([params],
     items <- _extract_items data (u "findItemsAdvancedResponse") ;;
     items <- Json.iter items ;;
     active_loop items []).
End Price.

End EbayMarketDataFetcher.

(* ================================================================== *)
(** * fuzzy_matcher.py *)
(* ================================================================== *)

(** [rapidfuzz.distance.Levenshtein.distance] with its default weights:
    the least number of insertions, deletions and substitutions. *)
Module Levenshtein.
Import Py.

Fixpoint distance (a b : str) : nat :=
  match a with
  | [] => length b
  | x :: a' =>
      (fix against (b : str) : nat :=
         match b with
         | [] => length a
         | y :: b' =>
             Nat.min (S (distance a' b))
                     (Nat.min (S (against b'))
                              ((if (x =? y)%N then 0 else 1)
                               + distance a' b'))
         end) b
  end.
End Levenshtein.

Module FuzzyMatcher.
Import Py.

Definition QUERY_NAME_DELIMITER : str := u "||".
Definition DEFAULT_FUZZY_THRESHOLD : float := 72%float.
Definition MAX_VARIANTS : nat := 5.

Definition WORD_SUBSTITUTIONS : list (str * list str) :=
  [ (u "ph", [u "f"]);
    (u "f", [u "ph"]);
    (u "ck", [u "k"; u "c"]);
    (u "oo", [u "u"; u "o"]);
    (u "ou", [u "u"; u "o"]);
    (u "ie", [u "ei"]);
    (u "ei", [u "ie"]);
    (u "y", [u "i"]);
    (u "i", [u "y"]);
    (u "c", [u "k"; u "q"; u "s"]);
    (u "k", [u "c"; u "q"]);
    (u "q", [u "k"; u "c"]);
    (u "v", [u "w"; u "b"]);
    (u "w", [u "v"]);
    (u "b", [u "v"]);
    (u "m", [u "n"]);
    (u "n", [u "m"]);
    (u "ll", [u "l"]);
    (u "rr", [u "r"]);
    (u "ss", [u "s"]);
    (u "tt", [u "t"]);
    (u "pp", [u "p"]);
    (u "ch", [u "sh"]);
    (u "sh", [u "ch"]);
    (u "gh", [u "g"]);
    (u "g", [u "gh"; u "j"]);
    (u "j", [u "g"]) ].

(** ** Query names *)

(** [(name or "").strip().replace("||", " ")] *)
Definition clean_name (name : option str) : str :=
  replace QUERY_NAME_DELIMITER (u " ") (strip (or_empty name)).

Definition encode_query_name (display_name base_search_text : option str)
  : option str :=
  let display := clean_name display_name in
  let base := clean_name base_search_text in
  if truthy base then
    let combined := if truthy display then display else base in
    Some (strip_chars QUERY_NAME_DELIMITER
                      (combined ++ QUERY_NAME_DELIMITER ++ base))
  else if truthy display then Some display
  else None.

Definition decode_query_name (raw_value : option str)
  : option str * option str :=
  match raw_value with
  | None | Some [] => (None, None)
  | Some raw =>
      if contains QUERY_NAME_DELIMITER raw then
        match split_once QUERY_NAME_DELIMITER raw with
        | Some (display, base) =>
            (or_none (strip display), or_none (strip base))
        | None => (None, None)
        end
      else (or_none (strip raw), None)
  end.

Section Matcher.
(** The transliteration table of [unidecode] for a code point outside
    ASCII (the empty string where the table has no entry). *)
Variable transliterate : N -> str.
(** [str.lower] on arbitrary text. *)
Variable lower : str -> str.
(** The order in which Python iterates over a [set] of strings that
    was filled by adding the given strings in turn. *)
Variable set_iter : list str -> list str.
(** [rapidfuzz.fuzz.token_set_ratio] *)
Variable token_set_ratio : str -> str -> float.

(** [unidecode(text)]: ASCII passes through, every other code point is
    replaced by its table entry. *)
Definition unidecode (text : str) : str :=
  flat_map (fun c => if is_ascii c then [c] else transliterate c) text.

Definition _normalize_text (text : option str) : str :=
  match text with
  | None | Some [] => []
  | Some text =>
      let normalized := unidecode text in
      let normalized := replace (u "-") (u " ") normalized in
      let normalized := replace (u "_") (u " ") normalized in
      let normalized := replace (u "&") (u " ") normalized in
      let normalized := replace (u "'") (u " ") normalized in
      let normalized := lower normalized in
      join (u " ") (split normalized)
  end.

(** ** Word variants *)

Definition char_at (word : str) (idx : nat) : N := nth idx word 0%N.

(** First loop: drop one letter of a doubled pair. *)
Definition dedupe_variants (word : str) : list str :=
  flat_map
    (fun idx =>
       if (char_at word idx =? char_at word (idx + 1))%N
       then [firstn idx word ++ skipn (idx + 1) word]
       else [])
    (seq 0 (length word - 1)).

(** Second loop: swap two neighbouring letters that differ. *)
Definition swap_variants (word : str) : list str :=
  flat_map
    (fun idx =>
       if negb (char_at word idx =? char_at word (idx + 1))%N
       then [firstn idx word ++ [char_at word (idx + 1)]
               ++ [char_at word idx] ++ skipn (idx + 2) word]
       else [])
    (seq 0 (length word - 1)).

(** [sorted(WORD_SUBSTITUTIONS, key=len, reverse=True)]: the patterns,
    longest first, ties in dictionary order. *)
Definition patterns_longest_first : list str :=
  sorted (fun a b => (length b <? length a)%nat)
         (map fst WORD_SUBSTITUTIONS).

Definition replacements_of (pattern : str) : list str :=
  match find (fun kv => str_eqb (fst kv) pattern) WORD_SUBSTITUTIONS with
  | Some kv => snd kv
  | None => []
  end.

(** The indices that the [while True: found = word.find(pattern, start)]
    loop visits: every index at which [pattern] occurs, in increasing
    order. *)
Definition occurrences (pattern word : str) : list nat :=
  filter (fun idx => prefixb pattern (skipn idx word))
         (seq 0 (length word)).

(** Third loop: apply each substitution rule at each occurrence. *)
Definition substitution_variants (word : str) : list str :=
  flat_map
    (fun pattern =>
       flat_map
         (fun found =>
            map (fun replacement =>
                   firstn found word ++ replacement
                     ++ skipn (found + length pattern) word)
                (replacements_of pattern))
         (occurrences pattern word))
    patterns_longest_first.

Definition _generate_word_variants (word : str) : list str :=
  match word with
  | [] => []
  | _ =>
      let variants :=
        set_iter (dedupe_variants word ++ swap_variants word
                    ++ substitution_variants word) in
      filter (fun variant => truthy variant && negb (str_eqb variant word))
             variants
  end.

(** ** Query expansion *)

(** The mutable state of the search: the [seen_sequences] set, the
    [collected] dictionary (in insertion order) and the [queue]. *)
Record search : Type := mk_search {
  seen_sequences : list str;
  collected : list (str * str);
  queue : list (list str * nat)
}.

Definition has_key (key : str) (d : list (str * str)) : bool :=
  existsb (fun kv => str_eqb (fst kv) key) d.

Definition add_variant (collected : list (str * str)) (value : str)
  : list (str * str) :=
  let normalized_key := _normalize_text (Some value) in
  if negb (truthy normalized_key) || has_key normalized_key collected
  then collected
  else collected ++ [(normalized_key, strip value)].

Definition limit_guard : nat := MAX_VARIANTS * 3.

Definition guard_reached (st : search) : bool :=
  (limit_guard <=? length (collected st))%nat.

(** [new_tokens = list(tokens); new_tokens[idx] = candidate] *)
Fixpoint set_token (tokens : list str) (idx : nat) (candidate : str)
  : list str :=
  match tokens, idx with
  | [], _ => []
  | _ :: rest, O => candidate :: rest
  | t :: rest, S i => t :: set_token rest i candidate
  end.

(** [for candidate in _generate_word_variants(token)]; a [break]
    returns at once. *)
Fixpoint candidates_loop (tokens : list str) (idx depth : nat)
         (candidates : list str) (st : search) : search :=
  match candidates with
  | [] => st
  | candidate :: rest =>
      let new_tokens := set_token tokens idx candidate in
      let key := join (u " ") new_tokens in
      if existsb (str_eqb key) (seen_sequences st)
      then candidates_loop tokens idx depth rest st
      else
        let st :=
          mk_search (seen_sequences st ++ [key])
                    (add_variant (collected st)
                                 (join (u " ") new_tokens))
                    (queue st) in
        if guard_reached st then st
        else
          let st :=
            if (depth <? 1)%nat
            then mk_search (seen_sequences st) (collected st)
                           (queue st ++ [(new_tokens, S depth)])
            else st in
          candidates_loop tokens idx depth rest st
  end.

(** [for idx, token in enumerate(tokens)] *)
Fixpoint tokens_loop (tokens : list str) (depth : nat)
         (remaining : list (nat * str)) (st : search) : search :=
  match remaining with
  | [] => st
  | (idx, token) :: rest =>
      let st := candidates_loop tokens idx depth
                                (_generate_word_variants token) st in
      if guard_reached st then st
      else tokens_loop tokens depth rest st
  end.

Definition enumerate (tokens : list str) : list (nat * str) :=
  combine (seq 0 (length tokens)) tokens.

(** [while queue: tokens, depth = queue.popleft(); ...]. [None] when
    [fuel] iterations do not empty the queue. *)
Fixpoint queue_loop (fuel : nat) (st : search) : option search :=
  match queue st with
  | [] => Some st
  | (tokens, depth) :: rest =>
      match fuel with
      | O => None
      | S fuel =>
          let st := mk_search (seen_sequences st) (collected st) rest in
          let st := tokens_loop tokens depth (enumerate tokens) st in
          if guard_reached st then Some st
          else queue_loop fuel st
      end
  end.

(** The number of candidates one queue entry can produce. *)
Definition candidate_count (tokens : list str) : nat :=
  list_sum (map (fun token => length (_generate_word_variants token))
                tokens).

(** Python's order on [(distance, value)] tuples. *)
Definition scored_ltb (a b : nat * str) : bool :=
  (fst a <? fst b)%nat || ((fst a =? fst b)%nat && str_ltb (snd a) (snd b)).

(** The [collected] dictionary once the seeds and the search are in:
    [None] only if the queue loop ran out of fuel. *)
Definition collect_variants (base : str) : option (list (str * str)) :=
  let normalized_base := _normalize_text (Some base) in
  let seeds := add_variant [] base in
  let seeds := add_variant seeds (lower base) in
  let seeds := add_variant seeds (unidecode base) in
  let normalized_tokens := split normalized_base in
  match normalized_tokens with
  | [] => Some seeds
  | _ =>
      let sequence_key := join (u " ") normalized_tokens in
      let st := mk_search [sequence_key] seeds
                          [(normalized_tokens, 0)] in
      option_map collected
                 (queue_loop (2 + candidate_count normalized_tokens) st)
  end.

Definition _expand_search_text_variants (search_text : option str)
  : option (list str) :=
  match search_text with
  | None => Some []
  | Some search_text =>
      let base := strip search_text in
      match base with
      | [] => Some []
      | _ =>
          let normalized_base := _normalize_text (Some base) in
          match collect_variants base with
          | None => None
          | Some variants =>
              let scored_variants :=
                sorted scored_ltb
                       (map (fun kv =>
                               (Levenshtein.distance normalized_base
                                                     (fst kv),
                                snd kv))
                            variants) in
              Some (firstn MAX_VARIANTS (map snd scored_variants))
          end
      end
  end.

(** ** Fuzzy matching *)

Definition has_target (key : str) (d : list (str * str)) : bool :=
  existsb (fun kv => str_eqb (fst kv) key) d.

Definition _build_fuzzy_targets (base_search_text : str)
  : list (str * str) :=
  let normalized_base := _normalize_text (Some base_search_text) in
  if truthy normalized_base then
    fold_left
      (fun targets token =>
         if (4 <=? length token)%nat && negb (has_target token targets)
         then targets ++ [(token, token)]
         else targets)
      (split normalized_base)
      [(normalized_base, strip base_search_text)]
  else [].

(** [process.extractOne(query, choices, scorer=fuzz.token_set_ratio,
    processor=None)]: the choice with the best score, the first of
    them on a tie; nothing when there is no choice. *)
Definition extractOne (query : str) (choices : list str)
  : option (str * float) :=
  fold_left
    (fun best choice =>
       let score := token_set_ratio query choice in
       match best with
       | None => Some (choice, score)
       | Some (_, top) =>
           if (top <? score)%float then Some (choice, score) else best
       end)
    choices None.

Definition target_of (choice : str) (targets : list (str * str)) : str :=
  match find (fun kv => str_eqb (fst kv) choice) targets with
  | Some kv => snd kv
  | None => []
  end.

(** One round of the loop over [("title", title), ("brand", brand)]. *)
Definition consider (targets : list (str * str)) (threshold : float)
           (best : option FuzzyResult.t)
           (source : str) (candidate : option str)
  : option FuzzyResult.t :=
  let normalized_candidate := _normalize_text candidate in
  if negb (truthy normalized_candidate) then best
  else
    match extractOne normalized_candidate (map fst targets) with
    | None => best
    | Some (choice, score) =>
        if (score <? threshold)%float then best
        else
          let better :=
            match best with
            | None => true
            | Some b => (FuzzyResult.score b <? score)%float
            end in
          if better
          then Some (FuzzyResult.mk
                       score source (target_of choice targets)
                       (match candidate with
                        | Some ((_ :: _) as c) => Some (strip c)
                        | other => other
                        end))
          else best
    end.

Definition find_best_fuzzy_match (base_search_text title brand : option str)
           (threshold : float) : option FuzzyResult.t :=
  match base_search_text with
  | None | Some [] => None
  | Some base =>
      let targets := _build_fuzzy_targets base in
      match targets with
      | [] => None
      | _ =>
          let best := None in
          let best := consider targets threshold best (u "title") title in
          let best := consider targets threshold best (u "brand") brand in
          best
      end
  end.
End Matcher.

End FuzzyMatcher.

(* ================================================================== *)
(** * Python primitives used by the display functions *)
(* ================================================================== *)

Module PyFormat.
Import Py.

(** [s.rstrip(chars)]: [chars] is a set of characters. *)
Definition rstrip_chars (chars : str) (s : str) : str :=
  rstrip_by (fun c => existsb (N.eqb c) chars) s.

(** [a or b] for optional strings. *)
Definition or_opt (a b : option str) : option str :=
  if truthy_opt a then a else b.

(** [n / d] rounded to the nearest integer, a tie to the even one
    (for [0 < d]). *)
Definition round_half_even (n d : Z) : Z :=
  let q := (n / d)%Z in
  let r := (n mod d)%Z in
  if (d <? 2 * r)%Z || ((2 * r =? d)%Z && Z.odd q) then (q + 1)%Z else q.

(** The magnitude [m * 2 ^ e] of a finite float times [10 ^ places],
    rounded to the nearest integer, a tie to the even one. The
    conversion is exact: it works on the float's binary value. *)
Definition scaled (places : nat) (m : positive) (e : Z) : Z :=
  let n := (Z.pos m * 10 ^ Z.of_nat places)%Z in
  if (0 <=? e)%Z then (n * 2 ^ e)%Z else round_half_even n (2 ^ (- e)).

Definition digit (d : Z) : N := Z.to_N (48 + d mod 10).

(** The last [places] decimal digits of [q], padded with zeros. *)
Definition digits (places : nat) (q : Z) : str :=
  map (fun i => digit (q / 10 ^ Z.of_nat (places - 1 - i))) (seq 0 places).

(** The text of the non-negative integer [q] read as a number with
    [places] digits after the point. *)
Definition fixed (places : nat) (q : Z) : str :=
  str_of_int (q / 10 ^ Z.of_nat places)
  ++ match places with
     | O => []
     | _ => u "." ++ digits places q
     end.

(** [format(x, ".<places>f")], the conversion behind [f"{x:.2f}"]: the
    correctly rounded decimal with [places] digits after the point. *)
Definition format_fixed (places : nat) (x : float) : str :=
  match Prim2SF x with
  | S754_nan => u "nan"
  | S754_infinity s => if s then u "-inf" else u "inf"
  | S754_zero s => (if s then u "-" else []) ++ fixed places 0
  | S754_finite s m e =>
      (if s then u "-" else []) ++ fixed places (scaled places m e)
  end.

(** [round(x)] for a float: the nearest integer, a tie to the even one;
    [ValueError] on NaN and [OverflowError] on an infinity. *)
Definition round (x : float) : res Z :=
  match Prim2SF x with
  | S754_nan => Raise ValueError
  | S754_infinity _ => Raise OverflowError
  | S754_zero _ => Ok 0%Z
  | S754_finite s m e =>
      Ok (if s then (- scaled 0 m e)%Z else scaled 0 m e)
  end.
End PyFormat.

(* ================================================================== *)
(** * valuation_engine.py: ListingNormalizer *)
(* ================================================================== *)

Module ListingNormalizer.
Import Py.

(** The argument [fuzzy_result] of [normalize], a [Dict[str, object]]:
    the items of the dictionary, with decoded JSON values for its
    objects ([Json.Null] for [None]). *)
Definition FuzzyDict : Type := list (str * Json.t).

(** [fuzzy_result.get(key)] *)
Definition value_at (key : str) (fuzzy_result : FuzzyDict) : Json.t :=
  match Json.lookup key fuzzy_result with
  | Some value => value
  | None => Json.Null
  end.

Section Normalizer.
(** The table of [unidecode] and [str.lower], as in [FuzzyMatcher];
    [float()] on a text and on an integer, as in
    [EbayMarketDataFetcher]. *)
Variable transliterate : N -> str.
Variable lower : str -> str.
Variable float_of_str : str -> option float.
Variable float_of_int : Z -> option float.

Definition _clean (value : option str) : str :=
  match value with
  | None | Some [] => []
  | Some value =>
      let normalized := FuzzyMatcher.unidecode transliterate value in
      let normalized := replace (u "-") (u " ") normalized in
      let normalized := replace (u "_") (u " ") normalized in
      strip (join (u " ") (split normalized))
  end.

(** The loop that removes duplicates while preserving order: the
    [seen] keys and the [canonical_parts] kept so far. *)
Definition keep_part (state : list str * list str) (part : str)
  : list str * list str :=
  let '(seen, canonical_parts) := state in
  let key := lower part in
  if existsb (str_eqb key) seen then (seen, canonical_parts)
  else (seen ++ [key], canonical_parts ++ [part]).

Definition canonical_parts (parts : list str) : list str :=
  snd (fold_left keep_part parts ([], [])).

(** [(fuzzy_result.get("target") or "").strip() or None]: only a text
    has [strip]. *)
Definition read_target (fuzzy_result : FuzzyDict) : res (option str) :=
  match Json.or (value_at (u "target") fuzzy_result) (Json.Str []) with
  | Json.Str target => Ok (or_none (strip target))
  | _ => Raise AttributeError
  end.

(** [float(fuzzy_result.get("score"))] inside
    [try ... except (TypeError, ValueError): fuzzy_score = None]. *)
Definition read_score (fuzzy_result : FuzzyDict) : res (option float) :=
  match EbayMarketDataFetcher.to_float
          float_of_str float_of_int (value_at (u "score") fuzzy_result)
  with
  | Ok score => Ok (Some score)
  | Raise TypeError | Raise ValueError => Ok None
  | Raise e => Raise e
  end.

(** [if fuzzy_result: ...]: the term and the score read from a
    dictionary that is not empty. *)
Definition read_fuzzy_result (fuzzy_result : option FuzzyDict)
  : res (option str * option float) :=
  match fuzzy_result with
  | Some ((_ :: _) as fuzzy_result) =>
      fuzzy_term <- read_target fuzzy_result ;;
      fuzzy_score <- read_score fuzzy_result ;;
      Ok (fuzzy_term, fuzzy_score)
  | _ => Ok (None, None)
  end.

Definition quality_of (fuzzy_score : option float)
           (fuzzy_term : option str) : str :=
  match fuzzy_score with
  | Some s =>
      if (90 <=? s)%float then u "canonical"
      else if (82 <=? s)%float && (s <=? 89)%float then u "likely"
      else u "approximate"
  | None =>
      if truthy_opt fuzzy_term then u "approximate" else u "unknown"
  end.

Definition normalize (title brand base_search_text : option str)
           (fuzzy_result : option FuzzyDict)
  : res NormalizationResult.t :=
  let cleaned_title := _clean title in
  let cleaned_brand := _clean brand in
  '(fuzzy_term, fuzzy_score) <- read_fuzzy_result fuzzy_result ;;
  let fuzzy_term :=
    if negb (truthy_opt fuzzy_term) && truthy_opt base_search_text
    then or_none (strip (or_empty base_search_text))
    else fuzzy_term in
  let match_quality := quality_of fuzzy_score fuzzy_term in
  let parts :=
    (if truthy_opt brand && truthy (strip (or_empty brand))
     then [strip (or_empty brand)] else [])
    ++ (if truthy_opt fuzzy_term then [or_empty fuzzy_term]
        else if truthy_opt title then [strip (or_empty title)]
        else []) in
  let canonical_query := strip (join (u " ") (canonical_parts parts)) in
  Ok (NormalizationResult.mk
        (if truthy cleaned_title then cleaned_title else or_empty title)
        (if truthy cleaned_brand then Some cleaned_brand
         else if truthy_opt brand then brand else None)
        canonical_query fuzzy_term fuzzy_score match_quality).
End Normalizer.
End ListingNormalizer.

(* ================================================================== *)
(** * valuation_engine.py: the display functions *)
(* ================================================================== *)

Module ValuationDisplay.
Import Py PyFormat.

(** The symbols, code point by code point as the source file spells
    them. *)
Definition CURRENCY_SYMBOLS : list (str * str) :=
  [ (u "EUR", [226; 8218; 172]%N);
    (u "USD", u "$");
    (u "GBP", [194; 163]%N);
    (u "CAD", u "C$");
    (u "AUD", u "A$");
    (u "CHF", u "CHF");
    (u "PLN", [122; 197; 8218]%N);
    (u "JPY", [194; 165]%N) ].

(** [CURRENCY_SYMBOLS.get(code, "")] *)
Definition symbol_of (code : str) : str :=
  match find (fun kv => str_eqb (fst kv) code) CURRENCY_SYMBOLS with
  | Some kv => snd kv
  | None => []
  end.

(** [f"{amount:.2f}".rstrip("0").rstrip(".")], then ["0"] if nothing is
    left. *)
Definition amount_text (amount : float) : str :=
  let value :=
    rstrip_chars (u ".") (rstrip_chars (u "0") (format_fixed 2 amount)) in
  if truthy value then value else u "0".

Definition format_money (amount : option float) (currency : option str)
  : str :=
  match amount with
  | None => u "n/a"
  | Some amount =>
      let symbol := symbol_of (or_empty currency) in
      let value := amount_text amount in
      if truthy symbol then symbol ++ value
      else if truthy_opt currency then value ++ u " " ++ or_empty currency
      else value
  end.

Definition RANGE_DASH : str := [226; 8364; 8220]%N.

Definition format_price_range (summary : MarketSummary.t) : str :=
  match (MarketSummary.sample_size summary =? 0)%Z,
        MarketSummary.minimum summary, MarketSummary.maximum summary with
  | false, Some minimum, Some maximum =>
      let lower := format_money (Some minimum)
                                (MarketSummary.currency summary) in
      let upper := format_money (Some maximum)
                                (MarketSummary.currency summary) in
      if str_eqb lower upper then lower
      else lower ++ RANGE_DASH ++ upper
  | _, _, _ => u "n/a"
  end.

Definition format_market_summary (summary : MarketSummary.t) : str :=
  if (MarketSummary.sample_size summary =? 0)%Z then u "not enough data"
  else
    let range_text := format_price_range summary in
    let median_text := format_money (MarketSummary.median summary)
                                    (MarketSummary.currency summary) in
    let source :=
      if truthy (MarketSummary.source summary)
      then MarketSummary.source summary else u "market" in
    range_text ++ u " (median " ++ median_text ++ u ", " ++ source
      ++ u ", n=" ++ str_of_int (MarketSummary.sample_size summary)
      ++ u ")".

Definition ACTIVE_PREFIX : str :=
  [10; 240; 376; 8250; 8217]%N ++ u " Active listings: ".

Definition format_active_summary (summary : option MarketSummary.t) : str :=
  match summary with
  | None => []
  | Some summary =>
      if (MarketSummary.sample_size summary =? 0)%Z then []
      else ACTIVE_PREFIX ++ format_market_summary summary
  end.

Definition format_profit_estimate (result : ValuationResult.t) : str :=
  match ValuationResult.profit result with
  | None =>
      let sold := ValuationResult.sold_summary result in
      if (MarketSummary.sample_size sold =? 0)%Z
      then u "n/a (no comps)"
      else if truthy_opt (MarketSummary.currency sold)
              && negb (str_eqb (or_empty (MarketSummary.currency sold))
                               (ValuationResult.item_currency result))
      then u "n/a (currency mismatch)"
      else u "n/a"
  | Some profit =>
      let currency :=
        if truthy_opt (ValuationResult.profit_currency result)
        then or_empty (ValuationResult.profit_currency result)
        else ValuationResult.item_currency result in
      let formatted :=
        format_money (Some (PrimFloat.abs profit)) (Some currency) in
      let formatted :=
        if (0 <? profit)%float then u "+" ++ formatted
        else if (profit <? 0)%float then u "-" ++ formatted
        else formatted in
      match ValuationResult.profit_multiple result with
      | Some multiple =>
          if float_truthy multiple && (0 <? multiple)%float
          then formatted ++ u " (" ++ format_fixed 1 multiple ++ u "x)"
          else formatted
      | None => formatted
      end
  end.

Definition format_confidence_line (result : ValuationResult.t) : str :=
  [10%N] ++ ValuationResult.confidence_icon result ++ u " Confidence: "
    ++ ValuationResult.confidence_label result.

Definition OPEN_QUOTE : str := [226; 8364; 339]%N.
Definition CLOSE_QUOTE : str := [226; 8364]%N.

(** [int(round(score))] may raise: [round] has no integer for NaN or an
    infinity. *)
Definition format_fuzzy_line (normalization : NormalizationResult.t)
  : res str :=
  let term := NormalizationResult.fuzzy_term normalization in
  let score := NormalizationResult.fuzzy_score normalization in
  let quality := NormalizationResult.match_quality normalization in
  match truthy_opt term, score with
  | false, None => Ok (u "No fuzzy match")
  | has_term, _ =>
      let quoted_term :=
        if has_term then OPEN_QUOTE ++ or_empty term ++ CLOSE_QUOTE
        else u "match" in
      match score with
      | None => Ok quoted_term
      | Some score =>
          rounded <- round score ;;
          let score_str := u "score " ++ str_of_int rounded in
          if str_eqb quality (u "canonical")
          then Ok (quoted_term ++ u " (" ++ score_str ++ u ", canonical)")
          else if str_eqb quality (u "likely")
          then Ok (quoted_term ++ u " (" ++ score_str ++ u ", likely)")
          else if str_eqb quality (u "approximate")
          then Ok (quoted_term ++ u " (" ++ score_str ++ u ", loose)")
          else Ok (quoted_term ++ u " (" ++ score_str ++ u ")")
      end
  end.

Definition REFERENCE_PREFIX : str :=
  [10; 240; 376; 8211; 188; 239; 184]%N ++ u " Reference: ".

(** The first comparable with an image, else the first with a link. *)
Definition build_reference_line (result : ValuationResult.t) : str :=
  match find (fun comp => truthy_opt (ListingComp.image comp))
             (ValuationResult.sold_comps result) with
  | Some comp => REFERENCE_PREFIX ++ or_empty (ListingComp.image comp)
  | None =>
      match find (fun comp => truthy_opt (ListingComp.url comp))
                 (ValuationResult.sold_comps result) with
      | Some comp => REFERENCE_PREFIX ++ or_empty (ListingComp.url comp)
      | None => []
      end
  end.
End ValuationDisplay.

(** [format_fuzzy_match] of [fuzzy_matcher.py], on the dictionary that
    [find_best_fuzzy_match] returns. *)
Module FuzzyDisplay.
Import Py PyFormat.

Definition ARROW : str := u "% " ++ [8596%N] ++ u " ".

Definition format_fuzzy_match (result : option FuzzyResult.t) : res str :=
  match result with
  | None => Ok (u "No fuzzy match")
  | Some result =>
      let label :=
        if str_eqb (FuzzyResult.source result) (u "title")
        then u "Title" else u "Brand" in
      score <- round (FuzzyResult.score result) ;;
      let target := strip (FuzzyResult.target result) in
      if truthy target
      then Ok (label ++ u " " ++ str_of_int score ++ ARROW ++ target)
      else Ok (label ++ u " " ++ str_of_int score ++ u "%")
  end.
End FuzzyDisplay.

(* ================================================================== *)
(** * valuation_engine.py: the constructor of the fetcher *)
(* ================================================================== *)

(** [EbayMarketDataFetcher.__init__] *)
Module EbayMarketDataFetcherSetup.
Import Py PyFormat EbayMarketDataFetcher.

Section Environment.
(** [os.getenv]: the value of an environment variable, if it is set. *)
Variable getenv : str -> option str.
(** [requests.Session()] *)
Variable new_session : Params -> option Json.t.

Definition __init__ (app_id default_global_id : option str)
           (session : option (Params -> option Json.t)) (timeout : Z)
  : EbayMarketDataFetcher.t :=
  EbayMarketDataFetcher.mk
    (or_opt (or_opt app_id (getenv (u "EBAY_APP_ID")))
            (getenv (u "EBAY_APPID")))
    (match or_opt default_global_id (getenv (u "EBAY_GLOBAL_ID")) with
     | Some ((_ :: _) as id) => id
     | _ => u "EBAY-DE"
     end)
    (match session with
     | Some s => s
     | None => new_session
     end)
    timeout.
End Environment.
End EbayMarketDataFetcherSetup.

(* ================================================================== *)
(** * core.py: process_query and get_formatted_query_list *)
(* ================================================================== *)

Module Core.
Import Py.

(** The dictionary that [parse_qs] returns: each parameter with the
    list of its values, in insertion order. *)
Definition QueryParams : Type := list (str * list str).

(** [params[key] = value] *)
Fixpoint set_param (key : str) (value : list str) (params : QueryParams)
  : QueryParams :=
  match params with
  | [] => [(key, value)]
  | (k, v) :: rest =>
      if str_eqb k key then (k, value) :: rest
      else (k, v) :: set_param key value rest
  end.

(** [params.pop(key, None)] *)
Definition pop_param (key : str) (params : QueryParams) : QueryParams :=
  filter (fun kv => negb (str_eqb (fst kv) key)) params.

(** [params.get(key)] *)
Definition get_param (key : str) (params : QueryParams)
  : option (list str) :=
  option_map snd (find (fun kv => str_eqb (fst kv) key) params).

(** A row of [db.get_queries()], of which the code reads [query[1]], the
    URL, and [query[3]], the stored name. *)
Record QueryRow : Type := {
  row_url : str;
  row_name : option str
}.

Section Queries.
Variable transliterate : N -> str.
Variable lower : str -> str.
Variable set_iter : list str -> list str.

(** [urllib.parse]: [urlparse(query)], [parse_qs(parsed_url.query)],
    and [urlunparse] of the parsed URL with its query replaced by
    [urlencode(params, doseq=True)]. *)
Variable ParseResult : Type.
Variable urlparse : str -> ParseResult.
Variable parse_qs : ParseResult -> QueryParams.
Variable build_processed_query : ParseResult -> QueryParams -> str.

(** [configuration_values.ENABLE_VARIANTS] *)
Variable ENABLE_VARIANTS : bool.

(** The [db] module: the state of the database, the test
    [db.is_query_in_db] and the update [db.add_query_to_db]. *)
Variable Db : Type.
Variable is_query_in_db : Db -> str -> bool.
Variable add_query_to_db : Db -> str -> option str -> Db.

Definition query_params_of (parsed_url : ParseResult) : QueryParams :=
  let query_params := parse_qs parsed_url in
  let query_params :=
    set_param (u "order") [u "newest_first"] query_params in
  let query_params := pop_param (u "time") query_params in
  let query_params := pop_param (u "search_id") query_params in
  let query_params :=
    pop_param (u "disabled_personalization") query_params in
  pop_param (u "page") query_params.

(** [searched_text[0] if searched_text else None] *)
Definition base_search_text_of (query_params : QueryParams)
  : option str :=
  match get_param (u "search_text") query_params with
  | Some (text :: _) => Some text
  | _ => None
  end.

(** The list [variant_queries]; nothing only if the variant search of
    [_expand_search_text_variants] ran out of fuel. *)
Definition variant_queries_of (parsed_url : ParseResult)
           (base_params : QueryParams) (base_search_text : option str)
  : option (list str) :=
  if truthy_opt base_search_text && ENABLE_VARIANTS then
    match FuzzyMatcher._expand_search_text_variants
            transliterate lower set_iter base_search_text with
    | Some expanded_terms =>
        Some (map (fun variant =>
                     build_processed_query
                       parsed_url
                       (set_param (u "search_text") [variant]
                                  base_params))
                  expanded_terms)
    | None => None
    end
  else Some [build_processed_query parsed_url base_params].

(** The loop over [variant_queries]: the database and [added_count]. *)
Fixpoint add_queries (variant_queries : list str)
         (stored_name : option str) (db : Db) (added_count : nat)
  : Db * nat :=
  match variant_queries with
  | [] => (db, added_count)
  | processed_query :: rest =>
      if is_query_in_db db processed_query
      then add_queries rest stored_name db added_count
      else add_queries rest stored_name
                       (add_query_to_db db processed_query stored_name)
                       (S added_count)
  end.

Definition process_query (db : Db) (query : str) (name : option str)
  : option (str * bool * Db) :=
  let parsed_url := urlparse query in
  let query_params := query_params_of parsed_url in
  let base_search_text := base_search_text_of query_params in
  let display_name :=
    if truthy_opt name then name else base_search_text in
  let stored_name :=
    FuzzyMatcher.encode_query_name display_name base_search_text in
  match variant_queries_of parsed_url query_params base_search_text with
  | None => None
  | Some variant_queries =>
      let '(db, added_count) :=
        add_queries variant_queries stored_name db 0 in
      Some
        (if (added_count =? 0)%nat
         then (u "Query already exists.", false, db)
         else if (length variant_queries =? 1)%nat
         then (u "Query added.", true, db)
         else (u "Added " ++ str_of_int (Z.of_nat added_count)
                 ++ u " queries ("
                 ++ str_of_int (Z.of_nat (length variant_queries))
                 ++ u " variants considered).", true, db))
  end.

(** One round of the loop of [get_formatted_query_list]: the entry
    shown for a stored query. *)
Definition entry_of (query : QueryRow) : res str :=
  let parsed_url := urlparse (row_url query) in
  let query_params := parse_qs parsed_url in
  let '(display_name, _) :=
    FuzzyMatcher.decode_query_name (row_name query) in
  fallback <-
    match get_param (u "search_text") query_params with
    | Some (text :: _) => Ok (Some text)
    | Some [] => Raise IndexError
    | None => Ok None
    end ;;
  Ok (if truthy_opt display_name then or_empty display_name
      else if truthy_opt fallback then or_empty fallback
      else row_url query).

Fixpoint entries_of (all_queries : list QueryRow) : res (list str) :=
  match all_queries with
  | [] => Ok []
  | query :: rest =>
      entry <- entry_of query ;;
      entries <- entries_of rest ;;
      Ok (entry :: entries)
  end.

(** [f"{i + 1}. {value}"] for each entry, from [i = start]. *)
Fixpoint numbered (start : nat) (entries : list str) : list str :=
  match entries with
  | [] => []
  | value :: rest =>
      (str_of_int (Z.of_nat start + 1) ++ u ". " ++ value)
        :: numbered (S start) rest
  end.

Definition get_formatted_query_list (all_queries : list QueryRow)
  : res str :=
  entries <- entries_of all_queries ;;
  Ok (join [10%N] (numbered 0 entries)).
End Queries.
End Core.

(* ================================================================== *)
(** * Theorems: Python primitives *)
(* ================================================================== *)

Module PyFacts.
Import Py.

Lemma str_eqb_refl a : str_eqb a a = true.
Proof. unfold str_eqb. destruct (str_eq_dec a a); congruence. Qed.

Lemma str_eqb_true a b : str_eqb a b = true <-> a = b.
Proof. unfold str_eqb. destruct (str_eq_dec a b); split; congruence. Qed.

Lemma str_eqb_false a b : str_eqb a b = false <-> a <> b.
Proof. unfold str_eqb. destruct (str_eq_dec a b); split; congruence. Qed.

Lemma truthy_true s : truthy s = true <-> s <> [].
Proof. destruct s; simpl; split; congruence. Qed.

Lemma truthy_false s : truthy s = false <-> s = [].
Proof. destruct s; simpl; split; congruence. Qed.

Lemma or_none_some s : s <> [] -> or_none s = Some s.
Proof. destruct s; intros H; [congruence | reflexivity]. Qed.

(** ** [strip] *)

Section Strip.
Variable f : N -> bool.

Lemma lstrip_by_In s x : In x (lstrip_by f s) -> In x s.
Proof.
  induction s as [|c s IH]; simpl; [auto|].
  destruct (f c); simpl; auto.
Qed.

Lemma lstrip_by_idem s : lstrip_by f (lstrip_by f s) = lstrip_by f s.
Proof.
  induction s as [|c s IH]; simpl; [reflexivity|].
  destruct (f c) eqn:E; [exact IH|]. simpl. now rewrite E.
Qed.

Lemma lstrip_by_keep c s : f c = false -> lstrip_by f (c :: s) = c :: s.
Proof. intros H. simpl. now rewrite H. Qed.

Lemma lstrip_by_all s : forallb f s = true -> lstrip_by f s = [].
Proof.
  induction s as [|c s IH]; simpl; [reflexivity|].
  destruct (f c); simpl; [exact IH | discriminate].
Qed.

Lemma lstrip_by_app_all s t :
  forallb f s = true -> lstrip_by f (s ++ t) = lstrip_by f t.
Proof.
  induction s as [|c s IH]; simpl; [reflexivity|].
  destruct (f c); simpl; [exact IH | discriminate].
Qed.

(** Either everything is stripped, or the result starts with a
    character that is kept and the rest is untouched. *)
Lemma lstrip_by_cases s :
  (lstrip_by f s = [] /\ forallb f s = true) \/
  exists pre c rest,
    s = pre ++ c :: rest /\ forallb f pre = true /\ f c = false /\
    lstrip_by f s = c :: rest.
Proof.
  induction s as [|c s IH]; simpl; [now left|].
  destruct (f c) eqn:E; simpl.
  - destruct IH as [[H1 H2]|(pre & d & rest & -> & Hp & Hd & Hs)].
    + now left.
    + right. exists (c :: pre), d, rest. simpl. rewrite E. auto.
  - right. exists [], c, s. auto.
Qed.

Lemma lstrip_by_app_keep s t :
  lstrip_by f s <> [] -> lstrip_by f (s ++ t) = lstrip_by f s ++ t.
Proof.
  induction s as [|c s IH]; simpl; [congruence|].
  destruct (f c); auto.
Qed.

Lemma rstrip_by_cons_keep c s :
  f c = false -> rstrip_by f (c :: s) = c :: rstrip_by f s.
Proof.
  intros H. unfold rstrip_by. simpl.
  destruct (lstrip_by_cases (rev s))
    as [[H1 H2]|(pre & d & rest & E & Hp & Hd & Hs)].
  - rewrite lstrip_by_app_all by exact H2.
    rewrite H1, lstrip_by_keep by exact H. reflexivity.
  - rewrite lstrip_by_app_keep by (rewrite Hs; discriminate).
    rewrite rev_app_distr. reflexivity.
Qed.

Lemma rstrip_by_In s x : In x (rstrip_by f s) -> In x s.
Proof.
  unfold rstrip_by. rewrite <- in_rev. intros H.
  apply lstrip_by_In in H. now apply in_rev.
Qed.

Lemma strip_by_In s x : In x (strip_by f s) -> In x s.
Proof.
  unfold strip_by. intros H.
  apply rstrip_by_In in H. now apply lstrip_by_In in H.
Qed.

(** A text with nothing to strip at either end. *)
Definition stripped (s : str) : Prop :=
  lstrip_by f s = s /\ lstrip_by f (rev s) = rev s.

Lemma stripped_strip_by s : stripped s -> strip_by f s = s.
Proof.
  intros [H1 H2]. unfold strip_by, rstrip_by.
  rewrite H1, H2. apply rev_involutive.
Qed.

Lemma strip_by_stripped s : stripped (strip_by f s).
Proof.
  unfold stripped, strip_by. split.
  - destruct (lstrip_by_cases s)
      as [[H1 H2]|(pre & c & rest & E & Hp & Hc & Hs)].
    + rewrite H1. reflexivity.
    + rewrite Hs, rstrip_by_cons_keep by exact Hc.
      now apply lstrip_by_keep.
  - unfold rstrip_by. rewrite rev_involutive. apply lstrip_by_idem.
Qed.

Lemma strip_by_idem s : strip_by f (strip_by f s) = strip_by f s.
Proof. apply stripped_strip_by, strip_by_stripped. Qed.

Lemma stripped_ends c s d :
  f c = false -> f d = false -> stripped (c :: s ++ [d]).
Proof.
  intros Hc Hd. split; [now apply lstrip_by_keep|].
  change (c :: s ++ [d]) with ((c :: s) ++ [d]).
  rewrite rev_app_distr. simpl rev at 1. simpl app at 1.
  now apply lstrip_by_keep.
Qed.

Lemma stripped_single c : f c = false -> stripped [c].
Proof. intros H. split; simpl; now rewrite H. Qed.

(** A non-empty text whose first and last characters are kept is
    stripped. *)
Lemma stripped_by_ends s :
  s <> [] ->
  (forall c, hd_error s = Some c -> f c = false) ->
  (forall d, hd_error (rev s) = Some d -> f d = false) ->
  stripped s.
Proof.
  intros Hne Hh Hl. split.
  - destruct s as [|c s]; [congruence|].
    apply lstrip_by_keep, Hh. reflexivity.
  - destruct (rev s) as [|d r] eqn:E.
    + reflexivity.
    + apply lstrip_by_keep, Hl. reflexivity.
Qed.
End Strip.

Lemma strip_idem s : strip (strip s) = strip s.
Proof. apply strip_by_idem. Qed.

Lemma strip_In s x : In x (strip s) -> In x s.
Proof. apply strip_by_In. Qed.

(** ** [replace], [in], [split(sep, 1)] *)

Lemma prefixb_app p s : prefixb p (p ++ s) = true.
Proof.
  induction p as [|a p IH]; simpl; [reflexivity|].
  now rewrite N.eqb_refl.
Qed.

Lemma prefixb_head a p c s : a <> c -> prefixb (a :: p) (c :: s) = false.
Proof. intros H. simpl. apply N.eqb_neq in H. now rewrite H. Qed.

(** Nothing is replaced in a text that lacks the first character of the
    pattern. *)
Lemma replace_absent a old new s :
  ~ In a s -> replace (a :: old) new s = s.
Proof.
  unfold replace. induction s as [|c s IH]; simpl; [reflexivity|].
  intros H. apply Decidable.not_or in H. destruct H as [Hc Hs].
  pose proof (prefixb_head old s (not_eq_sym Hc)) as E.
  simpl in E. rewrite E. now rewrite IH.
Qed.

(** Replacing one character by another is a map. *)
Lemma replace_char a b s :
  replace [a] [b] s = map (fun c => if (c =? a)%N then b else c) s.
Proof.
  unfold replace. induction s as [|c s IH]; simpl; [reflexivity|].
  rewrite (N.eqb_sym a c).
  destruct (c =? a)%N; simpl; now rewrite IH.
Qed.

Lemma contains_app pre sub post : contains sub (pre ++ sub ++ post) = true.
Proof.
  induction pre as [|c pre IH].
  - simpl app. destruct (sub ++ post) eqn:E; simpl;
      rewrite <- E, prefixb_app; reflexivity.
  - simpl app. simpl. rewrite IH. apply orb_true_r.
Qed.

Lemma skipn_length_app (p s : str) : skipn (length p) (p ++ s) = s.
Proof. induction p as [|a p IH]; simpl; auto. Qed.

Lemma split_once_first a sep pre post :
  ~ In a pre ->
  split_once (a :: sep) (pre ++ (a :: sep) ++ post) = Some (pre, post).
Proof.
  induction pre as [|c pre IH]; intros H.
  - pose proof (prefixb_app (a :: sep) post) as E.
    pose proof (skipn_length_app (a :: sep) post) as K.
    cbn [app] in *. unfold split_once. now rewrite E, K.
  - apply Decidable.not_or in H. destruct H as [Hc Hs].
    pose proof (prefixb_head sep (pre ++ (a :: sep) ++ post)
                             (not_eq_sym Hc)) as E.
    cbn [app] in *. unfold split_once; fold split_once.
    rewrite E. now rewrite (IH Hs).
Qed.
(** ** Lengths of stripped texts *)

Lemma lstrip_by_length f s : length (lstrip_by f s) <= length s.
Proof.
  induction s as [|c s IH]; simpl; [lia|].
  destruct (f c); simpl; lia.
Qed.

Lemma lstrip_by_fixed f c s : lstrip_by f (c :: s) = c :: s -> f c = false.
Proof.
  simpl. destruct (f c); [|reflexivity].
  intros H. pose proof (lstrip_by_length f s) as Hl.
  rewrite H in Hl. simpl in Hl. lia.
Qed.

Lemma lstrip_by_same_length f s :
  length (lstrip_by f s) = length s -> lstrip_by f s = s.
Proof.
  destruct s as [|c s]; [reflexivity|]. simpl.
  destruct (f c); [|reflexivity].
  pose proof (lstrip_by_length f s). simpl. lia.
Qed.

Lemma strip_by_length f s : length (strip_by f s) <= length s.
Proof.
  unfold strip_by, rstrip_by. rewrite length_rev.
  pose proof (lstrip_by_length f (rev (lstrip_by f s))) as H1.
  rewrite length_rev in H1.
  pose proof (lstrip_by_length f s). lia.
Qed.

Lemma strip_by_same_length f s :
  length (strip_by f s) = length s -> strip_by f s = s.
Proof.
  intros H. unfold strip_by, rstrip_by in *. rewrite length_rev in H.
  pose proof (lstrip_by_length f (rev (lstrip_by f s))) as H1.
  rewrite length_rev in H1.
  pose proof (lstrip_by_length f s) as H2.
  assert (E : lstrip_by f s = s) by (apply lstrip_by_same_length; lia).
  rewrite E in *.
  rewrite lstrip_by_same_length by (rewrite length_rev; lia).
  apply rev_involutive.
Qed.

Lemma prefixb_length p s : prefixb p s = true -> length p <= length s.
Proof.
  revert s. induction p as [|a p IH]; intros s; simpl; [lia|].
  destruct s as [|b s]; [discriminate|].
  intros H. apply andb_true_iff in H. destruct H as [_ H].
  apply IH in H. simpl. lia.
Qed.

(** ** Lengths of replaced texts *)

Lemma replace_go_length old new skip s :
  length new <= length old ->
  length (replace_go old new skip s) + Nat.min skip (length s)
  <= length s.
Proof.
  intros Hn. revert skip.
  induction s as [|c s IH]; intros skip; simpl; [lia|].
  destruct skip as [|k].
  - destruct (prefixb old (c :: s)) eqn:E.
    + apply prefixb_length in E. simpl in E.
      specialize (IH (length old - 1)). rewrite length_app. lia.
    + specialize (IH 0). simpl. lia.
  - specialize (IH k). lia.
Qed.

Lemma replace_length old new s :
  length new <= length old -> length (replace old new s) <= length s.
Proof.
  intros Hn. pose proof (replace_go_length old new 0 s Hn). unfold replace.
  lia.
Qed.

(** A replacement by a shorter text shortens the text. *)
Lemma replace_shortens old new s :
  length new < length old -> contains old s = true ->
  length (replace old new s) < length s.
Proof.
  intros Hn. unfold replace.
  induction s as [|c s IH]; simpl.
  - rewrite orb_false_r. intros H. apply prefixb_length in H.
    simpl in H. lia.
  - destruct (prefixb old (c :: s)) eqn:E; simpl.
    + intros _. apply prefixb_length in E. simpl in E.
      pose proof (replace_go_length old new (length old - 1) s) as H.
      rewrite length_app. lia.
    + intros H. specialize (IH H). simpl. lia.
Qed.

Lemma replace_none old new s :
  contains old s = false -> replace old new s = s.
Proof.
  unfold replace. induction s as [|c s IH]; simpl; [reflexivity|].
  intros H. apply orb_false_iff in H. destruct H as [Hp Hc].
  simpl in Hp. rewrite Hp. now rewrite IH.
Qed.

Lemma replace_nonempty old c new s :
  s <> [] -> replace old (c :: new) s <> [].
Proof.
  unfold replace. destruct s as [|x s]; [congruence|]. intros _. simpl.
  destruct (prefixb old (x :: s)); discriminate.
Qed.

(** ** The parts of [split(sep, 1)] *)

Lemma prefixb_skipn p s :
  prefixb p s = true -> s = p ++ skipn (length p) s.
Proof.
  revert s. induction p as [|a p IH]; intros s; simpl; [reflexivity|].
  destruct s as [|b s]; [discriminate|].
  intros H. apply andb_true_iff in H. destruct H as [Hab H].
  apply N.eqb_eq in Hab. subst. f_equal. now apply IH.
Qed.

Lemma split_once_parts sep s a b :
  split_once sep s = Some (a, b) -> s = a ++ sep ++ b.
Proof.
  revert a. induction s as [|c s IH]; intros a; simpl.
  - destruct (prefixb sep []) eqn:E; [|discriminate].
    intros [= <- <-]. simpl. now apply prefixb_skipn in E.
  - destruct (prefixb sep (c :: s)) eqn:E.
    + intros [= <- <-]. simpl. now apply prefixb_skipn in E.
    + destruct (split_once sep s) as [[a' b']|]; [|discriminate].
      intros [= <- <-]. simpl. f_equal. now apply IH.
Qed.

(** The split is at the first occurrence of the separator. *)
Lemma split_once_earliest sep pre post a b :
  split_once sep (pre ++ sep ++ post) = Some (a, b) ->
  length a <= length pre.
Proof.
  revert a. induction pre as [|c pre IH]; intros a.
  - simpl app. pose proof (prefixb_app sep post) as E.
    destruct (sep ++ post) as [|x r]; simpl; rewrite E;
      intros [= <- <-]; simpl; lia.
  - simpl app. simpl.
    destruct (prefixb sep (c :: pre ++ sep ++ post)).
    + intros [= <- <-]. simpl. lia.
    + destruct (split_once sep (pre ++ sep ++ post)) as [[a' b']|];
        [|discriminate].
      intros [= <- <-]. simpl. specialize (IH a' eq_refl). lia.
Qed.

(** The last character of a text. *)
Definition last_char (s : str) : option N := hd_error (rev s).

Lemma last_char_cons c s : s <> [] -> last_char (c :: s) = last_char s.
Proof.
  unfold last_char. simpl. intros H.
  destruct (rev s) as [|x r] eqn:E; [|reflexivity].
  apply (f_equal (@rev _)) in E. rewrite rev_involutive in E. easy.
Qed.

Lemma last_char_app s t : t <> [] -> last_char (s ++ t) = last_char t.
Proof.
  unfold last_char. rewrite rev_app_distr. intros H.
  destruct (rev t) as [|x r] eqn:E; [|reflexivity].
  apply (f_equal (@rev _)) in E. rewrite rev_involutive in E. easy.
Qed.

Lemma last_char_snoc s c : last_char s = Some c -> exists s', s = s' ++ [c].
Proof.
  unfold last_char. intros H.
  destruct (rev s) as [|x r] eqn:E; [discriminate|].
  injection H as ->. exists (rev r).
  apply (f_equal (@rev _)) in E. rewrite rev_involutive in E. exact E.
Qed.

(** A doubled character is found at its first occurrence when the text
    before it neither contains the pair nor ends with the character. *)
Lemma split_once_pair a pre post :
  contains [a; a] pre = false -> last_char pre <> Some a ->
  split_once [a; a] (pre ++ [a; a] ++ post) = Some (pre, post).
Proof.
  induction pre as [|c pre IH]; intros Hc Hl.
  - simpl. now rewrite N.eqb_refl.
  - cbn [contains] in Hc. apply orb_false_iff in Hc.
    destruct Hc as [Hp Hc].
    assert (E : prefixb [a; a] (c :: pre ++ [a; a] ++ post) = false).
    { cbn [prefixb]. destruct (N.eqb_spec a c) as [<-|]; [|reflexivity].
      cbn [andb].
      destruct pre as [|d pre].
      - exfalso. apply Hl. reflexivity.
      - cbn [app prefixb] in *. rewrite N.eqb_refl in Hp.
        cbn [andb] in Hp. rewrite andb_true_r in *. exact Hp. }
    change ((c :: pre) ++ [a; a] ++ post)
      with (c :: (pre ++ [a; a] ++ post)).
    cbn [split_once]. rewrite E.
    rewrite IH; [reflexivity | exact Hc |].
    destruct pre as [|d pre]; [discriminate|].
    rewrite <- (last_char_cons c) by discriminate. exact Hl.
Qed.

(** ** The order on floats *)

(** A float that is not NaN. *)
Definition is_number (x : float) : Prop := (x =? x)%float = true.

(** A key whose lexicographic order is the order of the floats. *)
Definition rank (f : spec_float) : option (Z * Z * Z) :=
  match f with
  | S754_nan => None
  | S754_zero _ => Some (0, 0, 0)%Z
  | S754_infinity s => Some (if s then (-2) else 2, 0, 0)%Z
  | S754_finite s m e =>
      Some (if s then (-1, - e, Z.neg m) else (1, e, Z.pos m))%Z
  end.

Definition lex (a b : Z * Z * Z) : comparison :=
  let '(a1, a2, a3) := a in
  let '(b1, b2, b3) := b in
  match (a1 ?= b1)%Z with
  | Eq => match (a2 ?= b2)%Z with
          | Eq => (a3 ?= b3)%Z
          | r => r
          end
  | r => r
  end.

Lemma SFcompare_rank f g :
  SFcompare f g =
  match rank f, rank g with
  | Some a, Some b => Some (lex a b)
  | _, _ => None
  end.
Proof.
  destruct f as [s| s | |s m e], g as [s'|s'| |s' m' e']; simpl;
    try reflexivity;
    try (destruct s; reflexivity);
    try (destruct s'; reflexivity);
    try (destruct s, s'; reflexivity).
  destruct s, s'; simpl; try reflexivity.
  rewrite Z.compare_opp, (Z.compare_antisym e e').
  destruct (e ?= e')%Z; reflexivity.
Qed.

Lemma lex_antisym a b : lex b a = CompOpp (lex a b).
Proof.
  destruct a as [[a1 a2] a3], b as [[b1 b2] b3]. simpl.
  rewrite (Z.compare_antisym a1 b1), (Z.compare_antisym a2 b2),
          (Z.compare_antisym a3 b3).
  destruct (a1 ?= b1)%Z, (a2 ?= b2)%Z, (a3 ?= b3)%Z; reflexivity.
Qed.

Lemma lex_le_lt_trans a b c :
  lex a b <> Gt -> lex b c = Lt -> lex a c = Lt.
Proof.
  destruct a as [[a1 a2] a3], b as [[b1 b2] b3], c as [[c1 c2] c3]. simpl.
  destruct (Z.compare_spec a1 b1), (Z.compare_spec a2 b2),
           (Z.compare_spec a3 b3),
           (Z.compare_spec b1 c1), (Z.compare_spec b2 c2),
           (Z.compare_spec b3 c3);
    try congruence; intros _ _; subst;
    repeat match goal with
           | |- context [(?x ?= ?y)%Z] =>
               destruct (Z.compare_spec x y); try lia; try reflexivity
           end.
Qed.

Lemma is_number_rank x : is_number x <-> rank (Prim2SF x) <> None.
Proof.
  unfold is_number. rewrite eqb_spec. unfold SFeqb.
  rewrite SFcompare_rank.
  destruct (rank (Prim2SF x)) as [a|]; [|split; congruence].
  split; [discriminate|]. intros _.
  destruct a as [[a1 a2] a3]. simpl. now rewrite !Z.compare_refl.
Qed.

Lemma leb_numbers x y :
  (x <=? y)%float = true -> is_number x /\ is_number y.
Proof.
  rewrite leb_spec, !is_number_rank. unfold SFleb.
  rewrite SFcompare_rank.
  destruct (rank (Prim2SF x)), (rank (Prim2SF y)); try discriminate.
  split; discriminate.
Qed.

(** On numbers, "not below" is "at least". *)
Lemma ltb_false_leb x y :
  is_number x -> is_number y ->
  (x <? y)%float = false -> (y <=? x)%float = true.
Proof.
  rewrite !is_number_rank, ltb_spec, leb_spec. unfold SFltb, SFleb.
  rewrite !SFcompare_rank.
  destruct (rank (Prim2SF x)) as [a|], (rank (Prim2SF y)) as [b|];
    try congruence.
  intros _ _. rewrite (lex_antisym a b).
  destruct (lex a b); simpl; congruence.
Qed.

Lemma leb_ltb_trans x y z :
  (x <=? y)%float = true -> (y <? z)%float = true -> (x <? z)%float = true.
Proof.
  rewrite leb_spec, !ltb_spec. unfold SFltb, SFleb.
  rewrite !SFcompare_rank.
  destruct (rank (Prim2SF x)) as [a|], (rank (Prim2SF y)) as [b|],
           (rank (Prim2SF z)) as [c|]; try discriminate.
  intros H1 H2.
  rewrite (@lex_le_lt_trans a b c); [reflexivity| |].
  - destruct (lex a b); congruence.
  - destruct (lex b c); congruence.
Qed.

Lemma lex_le_trans a b c :
  lex a b <> Gt -> lex b c <> Gt -> lex a c <> Gt.
Proof.
  destruct a as [[a1 a2] a3], b as [[b1 b2] b3], c as [[c1 c2] c3]. simpl.
  destruct (Z.compare_spec a1 b1), (Z.compare_spec a2 b2),
           (Z.compare_spec a3 b3),
           (Z.compare_spec b1 c1), (Z.compare_spec b2 c2),
           (Z.compare_spec b3 c3);
    try congruence; intros _ _; subst;
    repeat match goal with
           | |- context [(?x ?= ?y)%Z] =>
               destruct (Z.compare_spec x y); try lia; try discriminate
           end.
Qed.

Lemma leb_trans x y z :
  (x <=? y)%float = true -> (y <=? z)%float = true ->
  (x <=? z)%float = true.
Proof.
  rewrite !leb_spec. unfold SFleb.
  rewrite !SFcompare_rank.
  destruct (rank (Prim2SF x)) as [a|], (rank (Prim2SF y)) as [b|],
           (rank (Prim2SF z)) as [c|]; try discriminate.
  intros H1 H2.
  pose proof (@lex_le_trans a b c) as H.
  destruct (lex a c); try reflexivity.
  exfalso. apply H; try reflexivity.
  - destruct (lex a b); congruence.
  - destruct (lex b c); congruence.
Qed.

Lemma ltb_leb x y : (x <? y)%float = true -> (x <=? y)%float = true.
Proof.
  rewrite leb_spec, ltb_spec. unfold SFltb, SFleb.
  destruct (SFcompare _ _) as [[]|]; congruence.
Qed.

Lemma leb_refl x : is_number x -> (x <=? x)%float = true.
Proof.
  unfold is_number. rewrite leb_spec, eqb_spec. unfold SFeqb, SFleb.
  destruct (SFcompare _ _) as [[]|]; congruence.
Qed.

(** ** [split] and [join] *)

Definition spaceless (t : str) : Prop := Forall (fun c => isspace c = false) t.

(** A word as [split] produces them. *)
Definition word (t : str) : Prop := t <> [] /\ spaceless t.

Lemma rev_nonempty (A : Type) (l : list A) : l <> [] -> rev l <> [].
Proof.
  destruct l as [|x l]; [congruence|]. simpl. intros _ E.
  now apply app_eq_nil in E as [_ [=]].
Qed.

Lemma split_go_words cur s :
  spaceless cur ->
  Forall (fun t => word t /\ forall c, In c t -> In c cur \/ In c s)
         (split_go cur s).
Proof.
  revert cur. induction s as [|c s IH]; intros cur Hcur; simpl.
  - destruct cur as [|x cur]; constructor; [|constructor].
    split; [split|].
    + now apply rev_nonempty.
    + now apply Forall_rev.
    + intros d Hd. left. now apply in_rev.
  - destruct (isspace c) eqn:E.
    + assert (Hrest : Forall (fun t => word t /\
                                 forall d, In d t -> In d cur \/ In d (c :: s))
                             (split_go [] s)).
      { eapply Forall_impl; [|apply IH; constructor].
        intros t [Hw Hin]. split; [exact Hw|].
        intros d Hd. destruct (Hin d Hd) as [[]|H]. right. now right. }
      destruct cur as [|x cur]; [exact Hrest|].
      constructor; [|exact Hrest].
      split; [split|].
      * now apply rev_nonempty.
      * now apply Forall_rev.
      * intros d Hd. left. now apply in_rev.
    + eapply Forall_impl; [|apply IH; constructor; auto].
      intros t [Hw Hin]. split; [exact Hw|].
      intros d Hd. destruct (Hin d Hd) as [[<-|H]|H]; simpl; auto.
Qed.

Lemma split_words s :
  Forall (fun t => word t /\ forall c, In c t -> In c s) (split s).
Proof.
  eapply Forall_impl; [|apply (@split_go_words [] s); constructor].
  intros t [Hw Hin]. split; [exact Hw|].
  intros c Hc. now destruct (Hin c Hc) as [[]|H].
Qed.

Lemma split_go_spaceless cur t rest :
  spaceless t -> split_go cur (t ++ rest) = split_go (rev t ++ cur) rest.
Proof.
  revert cur. induction t as [|c t IH]; intros cur Ht; simpl; [reflexivity|].
  inversion Ht as [|? ? Hc Ht']; subst. rewrite Hc.
  rewrite IH by exact Ht'. now rewrite <- app_assoc.
Qed.

Lemma split_go_spaces cur w :
  Forall (fun c => isspace c = true) w ->
  split_go cur w = match cur with [] => [] | _ => [rev cur] end.
Proof.
  revert cur. induction w as [|c w IH]; intros cur Hw; simpl; [reflexivity|].
  inversion Hw as [|? ? Hc Hw']; subst. rewrite Hc.
  destruct cur; rewrite IH by exact Hw'; reflexivity.
Qed.

Lemma split_go_trailing cur s w :
  Forall (fun c => isspace c = true) w ->
  split_go cur (s ++ w) = split_go cur s.
Proof.
  intros Hw. revert cur. induction s as [|c s IH]; intros cur; simpl.
  - now apply split_go_spaces.
  - destruct (isspace c); [destruct cur|]; now rewrite IH.
Qed.

Lemma split_leading w s :
  Forall (fun c => isspace c = true) w -> split (w ++ s) = split s.
Proof.
  unfold split. induction w as [|c w IH]; intros Hw; simpl; [reflexivity|].
  inversion Hw as [|? ? Hc Hw']; subst. rewrite Hc. auto.
Qed.

Lemma split_padded w1 s w2 :
  Forall (fun c => isspace c = true) w1 ->
  Forall (fun c => isspace c = true) w2 ->
  split (w1 ++ s ++ w2) = split s.
Proof.
  intros H1 H2. rewrite split_leading by exact H1.
  now apply split_go_trailing.
Qed.

Definition space : str := u " ".

Lemma split_join ts : Forall word ts -> split (join space ts) = ts.
Proof.
  unfold split. induction ts as [|t ts IH]; intros H; [reflexivity|].
  inversion H as [|? ? [Hne Hsp] Hts]; subst.
  destruct ts as [|t' ts].
  - simpl. rewrite <- (app_nil_r t) at 1.
    rewrite split_go_spaceless by exact Hsp. simpl.
    rewrite app_nil_r.
    destruct (rev t) eqn:E.
    + apply (f_equal (@rev N)) in E. rewrite rev_involutive in E.
      simpl in E. congruence.
    + rewrite <- E. now rewrite rev_involutive.
  - change (join space (t :: t' :: ts))
      with (t ++ space ++ join space (t' :: ts)).
    rewrite split_go_spaceless by exact Hsp.
    rewrite app_nil_r. change space with [32%N]. simpl app.
    cbn [split_go]. change (isspace 32) with true. cbv iota.
    destruct (rev t) eqn:E.
    + apply (f_equal (@rev N)) in E. rewrite rev_involutive in E.
      simpl in E. congruence.
    + rewrite <- E, rev_involutive. f_equal. now apply IH.
Qed.

Lemma join_nonempty t ts : t <> [] -> join space (t :: ts) <> [].
Proof.
  intros H. destruct ts; simpl; [exact H|].
  destruct t; [congruence | discriminate].
Qed.

Lemma join_In ts c :
  In c (join space ts) -> c = 32%N \/ exists t, In t ts /\ In c t.
Proof.
  induction ts as [|t ts IH]; simpl; [intros []|].
  destruct ts as [|t' ts].
  - intros H. right. exists t. auto.
  - intros H. apply in_app_or in H. destruct H as [H|H].
    + right. exists t. auto.
    + change (space ++ join space (t' :: ts))
        with (32%N :: join space (t' :: ts)) in H.
      destruct H as [<-|H]; [now left|].
      destruct (IH H) as [->|(x & Hx & Hc)]; [now left|].
      right. exists x. split; [now right | exact Hc].
Qed.

Lemma join_hd t ts c :
  t <> [] -> hd_error (join space (t :: ts)) = Some c -> hd_error t = Some c.
Proof.
  intros Hne. destruct ts; simpl; [auto|].
  destruct t; [congruence | auto].
Qed.

Lemma join_last ts c :
  Forall (fun t => t <> []) ts ->
  hd_error (rev (join space ts)) = Some c ->
  exists t, In t ts /\ hd_error (rev t) = Some c.
Proof.
  induction ts as [|t ts IH]; intros Hall; [discriminate|].
  inversion Hall as [|? ? Ht Hts]; subst.
  destruct ts as [|t' ts].
  - simpl. intros H. exists t. auto.
  - change (join space (t :: t' :: ts))
      with (t ++ space ++ join space (t' :: ts)).
    rewrite !rev_app_distr, <- app_assoc.
    intros H.
    assert (Hne : rev (join space (t' :: ts)) <> []).
    { apply rev_nonempty, join_nonempty. now inversion Hts. }
    destruct (rev (join space (t' :: ts))) as [|x r] eqn:E; [congruence|].
    simpl in H. injection H as ->.
    destruct (IH Hts) as (y & Hy & Hc); [reflexivity|].
    exists y. split; [now right | exact Hc].
Qed.

(** A text made of words joined by single blanks has nothing to strip. *)
Lemma strip_join t ts :
  Forall word (t :: ts) -> strip (join space (t :: ts)) = join space (t :: ts).
Proof.
  intros H. apply stripped_strip_by, stripped_by_ends.
  - apply join_nonempty. now inversion H as [|? ? [Hne _] _].
  - intros c Hc. inversion H as [|? ? [Hne Hsp] _]; subst.
    apply join_hd in Hc; [|exact Hne].
    destruct t as [|x t]; [congruence|]. injection Hc as <-.
    now inversion Hsp.
  - intros d Hd.
    destruct (@join_last (t :: ts) d) as (y & Hy & Hlast); [|exact Hd|].
    + eapply Forall_impl; [|exact H]. now intros a [Ha _].
    + rewrite Forall_forall in H. destruct (H y Hy) as [_ Hsp].
      unfold spaceless in Hsp. rewrite Forall_forall in Hsp.
      apply Hsp, in_rev.
      destruct (rev y); [discriminate|]. injection Hlast as ->. now left.
Qed.

(** ** [sorted] *)

Lemma insert_length (A : Type) (lt : A -> A -> bool) x l :
  length (insert lt x l) = S (length l).
Proof.
  induction l as [|y l IH]; simpl; [reflexivity|].
  destruct (lt y x); simpl; [now rewrite IH | reflexivity].
Qed.

Lemma sorted_length (A : Type) (lt : A -> A -> bool) l :
  length (sorted lt l) = length l.
Proof.
  induction l as [|x l IH]; simpl; [reflexivity|].
  now rewrite insert_length, IH.
Qed.


Section SortedFacts.
Variable A : Type.
Variable lt : A -> A -> bool.

(** [a] may stand before [b]. *)
Definition le (a b : A) : Prop := lt b a = false.

Hypothesis lt_asym : forall a b, lt a b = true -> lt b a = false.
Hypothesis le_trans : forall a b c, le a b -> le b c -> le a c.

Lemma insert_perm x l : Permutation (insert lt x l) (x :: l).
Proof.
  induction l as [|y l IH]; simpl; [reflexivity|].
  destruct (lt y x); [|reflexivity].
  rewrite IH. apply perm_swap.
Qed.

Lemma sorted_perm l : Permutation (sorted lt l) l.
Proof.
  induction l as [|x l IH]; simpl; [reflexivity|].
  rewrite insert_perm. now constructor.
Qed.

Lemma insert_sorted x l :
  StronglySorted le l -> StronglySorted le (insert lt x l).
Proof.
  induction l as [|y l IH]; intros Hs; simpl.
  - repeat constructor.
  - inversion Hs as [|? ? Hl Hy]; subst.
    destruct (lt y x) eqn:E.
    + constructor; [now apply IH|].
      rewrite Forall_forall in *. intros z Hz.
      apply (Permutation_in _ (insert_perm x l)) in Hz.
      destruct Hz as [<-|Hz]; [now apply lt_asym | now apply Hy].
    + constructor; [exact Hs|].
      constructor; [exact E|].
      rewrite Forall_forall in *. intros z Hz.
      apply le_trans with y; [exact E | now apply Hy].
Qed.

Lemma sorted_sorted l : StronglySorted le (sorted lt l).
Proof.
  induction l as [|x l IH]; simpl; [constructor | now apply insert_sorted].
Qed.
End SortedFacts.

Lemma StronglySorted_firstn (A : Type) (R : A -> A -> Prop) n l :
  StronglySorted R l -> StronglySorted R (firstn n l).
Proof.
  revert l. induction n as [|n IH]; intros l Hs; simpl; [constructor|].
  destruct l as [|x l]; [constructor|].
  inversion Hs as [|? ? Hl Hx]; subst.
  constructor; [now apply IH|].
  rewrite Forall_forall in *. intros y Hy. apply Hx.
  rewrite <- (firstn_skipn n l). apply in_or_app. now left.
Qed.

Lemma StronglySorted_map (A B : Type) (R : B -> B -> Prop) (g : A -> B) l :
  StronglySorted (fun a b => R (g a) (g b)) l ->
  StronglySorted R (map g l).
Proof.
  induction 1 as [|x l Hl IH Hx]; simpl; constructor; [exact IH|].
  rewrite Forall_forall in *. intros y Hy.
  apply in_map_iff in Hy. destruct Hy as (a & <- & Ha). now apply Hx.
Qed.

Lemma NoDup_firstn (A : Type) n (l : list A) : NoDup l -> NoDup (firstn n l).
Proof.
  intros H. rewrite <- (firstn_skipn n l) in H.
  now apply NoDup_app_remove_r in H.
Qed.

(** ** The order on strings *)

Lemma str_ltb_irrefl a : str_ltb a a = false.
Proof.
  induction a as [|x a IH]; simpl; [reflexivity|].
  now rewrite N.ltb_irrefl.
Qed.

Lemma str_ltb_asym a b : str_ltb a b = true -> str_ltb b a = false.
Proof.
  revert b. induction a as [|x a IH]; intros [|y b]; simpl; try congruence.
  destruct (N.ltb_spec x y), (N.ltb_spec y x); simpl;
    try congruence; try lia.
  apply IH.
Qed.

Lemma str_ltb_negtrans a b c :
  str_ltb a b = false -> str_ltb b c = false -> str_ltb a c = false.
Proof.
  revert b c. induction a as [|x a IH]; intros [|y b] [|z c]; simpl;
    try congruence.
  destruct (N.ltb_spec x y), (N.ltb_spec y x), (N.ltb_spec y z),
           (N.ltb_spec z y), (N.ltb_spec x z), (N.ltb_spec z x);
    simpl; try congruence; try lia.
  apply IH.
Qed.

End PyFacts.

Module LevenshteinFacts.
Import Py Levenshtein.

Lemma distance_cons x a y b :
  distance (x :: a) (y :: b) =
  Nat.min (S (distance a (y :: b)))
          (Nat.min (S (distance (x :: a) b))
                   ((if (x =? y)%N then 0 else 1) + distance a b)).
Proof. reflexivity. Qed.

Lemma distance_nil_r a : distance a [] = length a.
Proof. destruct a; reflexivity. Qed.

(** Only a text itself is at distance zero from it. *)
Lemma distance_zero a b : distance a b = 0 <-> a = b.
Proof.
  revert b. induction a as [|x a IH]; intros b.
  - simpl. destruct b; simpl; split; congruence.
  - destruct b as [|y b].
    + rewrite distance_nil_r. simpl. split; congruence.
    + rewrite distance_cons.
      generalize (distance a (y :: b)) (distance (x :: a) b).
      intros n m.
      destruct (N.eqb_spec x y) as [->|Hxy].
      * split.
        -- intros H. f_equal. apply IH. lia.
        -- intros [= ->]. assert (distance b b = 0) by now apply IH. lia.
      * split; [lia | congruence].
Qed.
End LevenshteinFacts.
(* ================================================================== *)
(** * Theorems: valuation engine *)
(* ================================================================== *)

Module ValuationEngineFacts.
Import Py PyFacts ValuationEngine.

(** ** Sorting and summarization never fail *)

Lemma median_ok data :
  data <> [] -> exists m, Statistics.median data = Ok m.
Proof.
  intros Hne. unfold Statistics.median.
  rewrite sorted_length.
  destruct data as [|x data]; [congruence|].
  cbn [length]. destruct (Nat.odd (S (length data))); eauto.
Qed.

Lemma group_add_nonempty cur p groups :
  Forall (fun g => snd g <> []) groups ->
  Forall (fun g => snd g <> []) (group_add cur p groups).
Proof.
  induction groups as [|[k ps] rest IH]; intros H; simpl.
  - repeat constructor. discriminate.
  - inversion H as [|? ? Hk Hrest]; subst.
    destruct (str_eqb k cur); constructor; simpl; auto.
    now destruct ps.
Qed.

Lemma group_by_currency_nonempty listings :
  Forall (fun g => snd g <> []) (group_by_currency listings).
Proof.
  unfold group_by_currency.
  assert (H : Forall (fun g : str * list float => snd g <> []) [])
    by constructor.
  revert H. generalize (@nil (str * list float)).
  induction listings as [|x l IH]; intros acc H; simpl; [exact H|].
  apply IH.
  destruct (ListingComp.price x), (ListingComp.currency x); auto.
  now apply group_add_nonempty.
Qed.

Lemma largest_group_nonempty first rest :
  Forall (fun g => snd g <> []) (first :: rest) ->
  snd (largest_group first rest) <> [].
Proof.
  unfold largest_group. revert first.
  induction rest as [|g rest IH]; intros first H; simpl.
  - now inversion H.
  - inversion H as [|? ? Hf Hr]; subst.
    inversion Hr as [|? ? Hg Hrest]; subst.
    apply IH. destruct (_ <? _)%nat; constructor; auto.
Qed.

(** What [_summarize] returns: either the empty summary, or a summary
    whose fields are all defined and consistent with its price list. *)
Lemma _summarize_cases listings src :
  _summarize listings src = Ok (MarketSummary.default src) \/
  exists cur p0 ps med,
    Statistics.median (p0 :: ps) = Ok med /\
    _summarize listings src =
      Ok (MarketSummary.mk
            (Some (min_of PrimFloat.ltb p0 ps))
            (Some (max_of PrimFloat.ltb p0 ps))
            (Some med) (Some cur)
            (Z.of_nat (length (p0 :: ps))) src (p0 :: ps)).
Proof.
  unfold _summarize.
  destruct listings as [|l0 ls]; [now left|].
  pose proof (group_by_currency_nonempty (l0 :: ls)) as Hg.
  destruct (group_by_currency (l0 :: ls)) as [|first rest]; [now left|].
  right.
  pose proof (largest_group_nonempty Hg) as Hne.
  destruct (largest_group first rest) as [cur prices]. simpl in Hne.
  assert (Hs : sorted PrimFloat.ltb prices <> []).
  { intros E. apply (f_equal (@length _)) in E.
    rewrite sorted_length in E. now destruct prices. }
  destruct (median_ok Hs) as [med Hmed].
  rewrite Hmed. simpl.
  destruct (sorted PrimFloat.ltb prices) as [|p0 ps] eqn:E; [congruence|].
  exists cur, p0, ps, med. split; [exact Hmed | reflexivity].
Qed.

Lemma _summarize_total listings src :
  exists s, _summarize listings src = Ok s.
Proof.
  destruct (_summarize_cases listings src) as [H|(c & p0 & ps & m & _ & H)];
    rewrite H; eauto.
Qed.

Lemma truthy_opt_true s :
  truthy_opt s = true <-> exists c, s = Some c /\ c <> [].
Proof.
  destruct s as [[|x c]|]; simpl; split; try discriminate.
  - intros (c & [= <-] & H). congruence.
  - intros _. eexists; split; [reflexivity | discriminate].
  - reflexivity.
  - intros (c & H & _). discriminate.
Qed.

(** ** Profit estimate *)

(** The mismatch test of [_estimate_profit]: the summary carries a
    non-empty currency code and it is not the item's. *)
Definition currency_mismatch (summary : MarketSummary.t)
           (item_currency : str) : Prop :=
  exists c, MarketSummary.currency summary = Some c /\ c <> []
            /\ c <> item_currency.

Lemma mismatch_test summary item_currency :
  truthy_opt (MarketSummary.currency summary)
  && negb (str_eqb (or_empty (MarketSummary.currency summary)) item_currency)
  = true <-> currency_mismatch summary item_currency.
Proof.
  unfold currency_mismatch.
  rewrite andb_true_iff, negb_true_iff, str_eqb_false, truthy_opt_true.
  split.
  - intros [(c & Hc & Hne) Hd]. rewrite Hc in Hd. simpl in Hd. eauto.
  - intros (c & Hc & Hne & Hd). rewrite Hc. simpl. eauto.
Qed.

(** C1 as the specification states it: no profit exactly when there is
    no sample or the two currencies differ; otherwise the exact
    difference, and the multiple when the price is positive. *)
Definition profit_as_stated (summary : MarketSummary.t)
           (item_price : float) (item_currency : str) : Prop :=
  let '(profit, _, multiple) :=
    _estimate_profit summary item_price item_currency in
  (profit = None <->
     MarketSummary.sample_size summary = 0%Z \/
     MarketSummary.currency summary <> Some item_currency)
  /\ (profit <> None ->
      exists med, Statistics.median (MarketSummary.prices summary) = Ok med
        /\ profit = Some (med - item_price)%float
        /\ multiple = if (0 <? item_price)%float
                      then Some (med / item_price)%float else None).

(** A sold listing whose currency code is the empty string. *)
Definition comp_without_code : ListingComp.t :=
  ListingComp.mk (u "plate") (Some 40%float) (Some []) None None
                 (u "eBay sold").

Lemma estimate_profit_none summary item_price item_currency :
  fst (fst (_estimate_profit summary item_price item_currency)) = None <->
  (MarketSummary.sample_size summary = 0%Z \/
   MarketSummary.median summary = None \/
   currency_mismatch summary item_currency).
Proof.
  unfold _estimate_profit.
  rewrite <- mismatch_test.
  destruct (Z.eqb_spec (MarketSummary.sample_size summary) 0) as [E|E];
    [simpl; tauto|].
  destruct (MarketSummary.median summary) as [med|]; [|simpl; tauto].
  destruct (_ && _); simpl; split; auto.
  - discriminate.
  - intros [H|[H|H]]; congruence.
Qed.

Lemma estimate_profit_value summary item_price item_currency med :
  MarketSummary.median summary = Some med ->
  fst (fst (_estimate_profit summary item_price item_currency)) <> None ->
  _estimate_profit summary item_price item_currency =
    (Some (med - item_price)%float,
     (if truthy_opt (MarketSummary.currency summary)
      then MarketSummary.currency summary else Some item_currency),
     if (0 <? item_price)%float
     then Some (med / item_price)%float else None).
Proof.
  unfold _estimate_profit. intros ->.
  destruct (_ =? _)%Z; simpl; [congruence|].
  destruct (_ && _); simpl; [congruence|reflexivity].
Qed.

Lemma _summarize_median listings src s :
  _summarize listings src = Ok s ->
  MarketSummary.sample_size s <> 0%Z ->
  exists med, MarketSummary.median s = Some med /\
              Statistics.median (MarketSummary.prices s) = Ok med /\
              exists c, MarketSummary.currency s = Some c.
Proof.
  intros Hs Hn.
  destruct (_summarize_cases listings src)
    as [H|(c & p0 & ps & m & Hm & H)]; rewrite H in Hs;
    injection Hs as <-; simpl in *; [congruence|].
  exists m. repeat split; eauto.
Qed.

(** C1, amended. [_estimate_profit] yields no profit exactly when the
    sample is empty, the median is undefined, or the summary carries a
    non-empty currency code other than the item's (a summary without a
    code is priced in the item's currency). In every other case the
    profit is exactly [summary.median - item_price] and the multiple is
    [summary.median / item_price] when [item_price > 0], undefined
    otherwise. For a summary built by [_summarize] with a non-empty
    sample, [summary.median] is the median of its prices. *)
Theorem estimate_profit_exact :
  (forall summary item_price item_currency,
      (fst (fst (_estimate_profit summary item_price item_currency)) = None
       <-> (MarketSummary.sample_size summary = 0%Z \/
            MarketSummary.median summary = None \/
            currency_mismatch summary item_currency))
      /\ (forall med,
             MarketSummary.median summary = Some med ->
             fst (fst (_estimate_profit summary item_price item_currency))
               <> None ->
             fst (fst (_estimate_profit summary item_price item_currency))
               = Some (med - item_price)%float
             /\ snd (_estimate_profit summary item_price item_currency)
                = if (0 <? item_price)%float
                  then Some (med / item_price)%float else None))
  /\ (forall listings src, exists s,
         _summarize listings src = Ok s /\
         (MarketSummary.sample_size s <> 0%Z ->
          exists med, MarketSummary.median s = Some med /\
                      Statistics.median (MarketSummary.prices s) = Ok med)).
Proof.
  split.
  - intros summary item_price item_currency. split.
    + apply estimate_profit_none.
    + intros med Hmed Hsome.
      rewrite (estimate_profit_value _ _ _ Hmed Hsome). simpl. auto.
  - intros listings src.
    destruct (_summarize_total listings src) as [s Hs].
    exists s. split; [exact Hs|]. intros Hn.
    destruct (_summarize_median _ _ Hs Hn) as (med & H1 & H2 & _). eauto.
Qed.

(** C1 fails as stated: a sold listing whose currency code is empty is
    summarized under that empty code, which differs from the item's
    EUR, and the profit is nevertheless computed. *)
Lemma estimate_profit_stated_counterexample :
  exists s,
    _summarize [comp_without_code] (u "eBay sold") = Ok s /\
    MarketSummary.sample_size s = 1%Z /\
    MarketSummary.currency s <> Some (u "EUR") /\
    _estimate_profit s 25%float (u "EUR")
      = (Some 15%float, Some (u "EUR"), Some (40 / 25)%float) /\
    ~ profit_as_stated s 25%float (u "EUR").
Proof.
  eexists. split; [reflexivity|].
  split; [reflexivity|].
  split; [discriminate|].
  split; [reflexivity|].
  unfold profit_as_stated.
  intros [[_ H] _].
  assert (Some 15%float = None) as E by (apply H; right; discriminate).
  discriminate E.
Qed.


(** ** Confidence scoring *)

(** The same summary with another sample size. *)
Definition with_sample_size (s : MarketSummary.t) (n : Z) : MarketSummary.t :=
  MarketSummary.mk
    (MarketSummary.minimum s) (MarketSummary.maximum s)
    (MarketSummary.median s) (MarketSummary.currency s)
    n (MarketSummary.source s) (MarketSummary.prices s).

(** Low < Medium < High, read off the label. *)
Definition confidence_rank (c : str * str) : nat :=
  if str_eqb (fst c) (u "High") then 2
  else if str_eqb (fst c) (u "Medium") then 1
  else 0.

Section Scoring.
Variable pstdev : list float -> float.
Variable self : ValuationEngine.t.

Lemma score_confidence_few_comps fuzzy_score summary :
  (MarketSummary.sample_size summary < 4)%Z ->
  _score_confidence pstdev self fuzzy_score summary = Ok Low.
Proof.
  intros H. unfold _score_confidence.
  destruct (Z.ltb_spec (MarketSummary.sample_size summary) 4);
    [reflexivity | lia].
Qed.

Lemma score_confidence_4_to_7 fuzzy_score summary :
  (4 <= MarketSummary.sample_size summary <= 7)%Z ->
  _score_confidence pstdev self fuzzy_score summary = Ok Medium.
Proof.
  intros [H4 H7]. unfold _score_confidence.
  destruct (Z.ltb_spec (MarketSummary.sample_size summary) 4); [lia|].
  destruct (Z.leb_spec 8 (MarketSummary.sample_size summary)); [lia|].
  rewrite andb_false_r. simpl.
  destruct (Z.leb_spec 4 (MarketSummary.sample_size summary)); [|lia].
  destruct (Z.leb_spec (MarketSummary.sample_size summary) 7); [|lia].
  simpl. now rewrite orb_true_r.
Qed.

(** C2. At a fixed fuzzy score of at least 82, a summary with three
    comps is labelled Low and the same summary with four comps is
    labelled Medium, which ranks above Low; and whatever the score
    (present or not), fewer than four comps give Low. *)
Theorem confidence_monotone_in_sample_size
        (score : float) (summary : MarketSummary.t) :
  (82 <=? score)%float = true ->
  (exists l3 l4,
      _score_confidence pstdev self (Some score)
                        (with_sample_size summary 3) = Ok l3 /\
      _score_confidence pstdev self (Some score)
                        (with_sample_size summary 4) = Ok l4 /\
      l3 = Low /\
      confidence_rank Medium <= confidence_rank l4 /\
      confidence_rank l3 < confidence_rank l4)
  /\ (forall fuzzy_score s,
         (MarketSummary.sample_size s < 4)%Z ->
         _score_confidence pstdev self fuzzy_score s = Ok Low).
Proof.
  intros _. split.
  - exists Low, Medium.
    rewrite score_confidence_few_comps by (simpl; lia).
    rewrite score_confidence_4_to_7 by (simpl; lia).
    repeat split; vm_compute; lia.
  - intros. now apply score_confidence_few_comps.
Qed.
End Scoring.

(** An engine for the examples: no fetcher, a normalizer that passes the
    title through as the query, the default limits. *)
Definition plain_normalizer : Normalize :=
  fun title brand _ fuzzy_result =>
    NormalizationResult.mk
      (or_empty title) brand (or_empty title) None
      (option_map FuzzyResult.score fuzzy_result) (u "unknown").

Definition engine_with (f : option Fetcher) : ValuationEngine.t :=
  ValuationEngine.mk f plain_normalizer 30 10 0.35%float.

Definition sold_40_50_60 : MarketSummary.t :=
  MarketSummary.mk (Some 40%float) (Some 60%float) (Some 50%float)
                   (Some (u "EUR")) 3 (u "eBay sold")
                   [40%float; 50%float; 60%float].

Lemma confidence_monotone_in_sample_size_witness :
  (82 <=? 85)%float = true /\
  exists l3 l4,
    _score_confidence (fun _ => 0%float) (engine_with None) (Some 85%float)
                      (with_sample_size sold_40_50_60 3) = Ok l3 /\
    _score_confidence (fun _ => 0%float) (engine_with None) (Some 85%float)
                      (with_sample_size sold_40_50_60 4) = Ok l4 /\
    l3 = Low /\
    confidence_rank Medium <= confidence_rank l4 /\
    confidence_rank l3 < confidence_rank l4.
Proof.
  split; [reflexivity|].
  exact (proj1 (@confidence_monotone_in_sample_size
                  (fun _ => 0%float) (engine_with None)
                  85%float sold_40_50_60 eq_refl)).
Defined.

(** ** The assembled result *)

Section Evaluate.
Variable pstdev : list float -> float.
Variable self : ValuationEngine.t.

(** What [evaluate] puts in its result: the item's price and currency
    as given, the output of [_estimate_profit] on the sold summary,
    and a sold summary that is empty or comes from [_summarize]. *)
Lemma evaluate_result title brand price currency base fuzzy_result r :
  evaluate pstdev self title brand price currency base fuzzy_result
    = Ok r ->
  ValuationResult.item_price r = price /\
  ValuationResult.item_currency r = currency /\
  (ValuationResult.profit r, ValuationResult.profit_currency r,
   ValuationResult.profit_multiple r)
    = _estimate_profit (ValuationResult.sold_summary r) price currency /\
  (ValuationResult.sold_summary r = MarketSummary.default (u "eBay sold")
   \/ exists comps,
        _summarize comps (u "eBay sold")
          = Ok (ValuationResult.sold_summary r)).
Proof.
  unfold evaluate.
  set (nz := normalizer self title brand base fuzzy_result).
  assert (Hfinish :
    forall sc al ss asum,
      (ss = MarketSummary.default (u "eBay sold") \/
       exists comps, _summarize comps (u "eBay sold") = Ok ss) ->
      (let '(profit, profit_currency, profit_multiple) :=
         _estimate_profit ss price currency in
       '(confidence_label, confidence_icon) <-
         _score_confidence pstdev self
           (NormalizationResult.fuzzy_score nz) ss ;;
       Ok (ValuationResult.mk nz ss asum profit profit_currency
             profit_multiple confidence_label confidence_icon
             price currency sc al)) = Ok r ->
      ValuationResult.item_price r = price /\
      ValuationResult.item_currency r = currency /\
      (ValuationResult.profit r, ValuationResult.profit_currency r,
       ValuationResult.profit_multiple r)
        = _estimate_profit (ValuationResult.sold_summary r) price currency
      /\ (ValuationResult.sold_summary r
            = MarketSummary.default (u "eBay sold")
          \/ exists comps,
               _summarize comps (u "eBay sold")
                 = Ok (ValuationResult.sold_summary r))).
  { intros sc al ss asum Hss.
    destruct (_estimate_profit ss price currency) as [[pf pc] pm] eqn:E.
    destruct (_score_confidence _ _ _ _) as [[lab icon]|e]; simpl;
      [|discriminate].
    intros [= <-]. simpl. rewrite E. auto. }
  destruct (fetcher self) as [f|]; cbn [bind].
  2: { apply Hfinish. now left. }
  destruct (truthy _); cbn [bind].
  2: { apply Hfinish. now left. }
  destruct (fetch_sold_comps _ _ _ _) as [sc|e]; cbn [bind];
    [|discriminate].
  destruct (_summarize sc (u "eBay sold")) as [ss|e] eqn:Ess; cbn [bind];
    [|discriminate].
  destruct (0 <? active_limit self)%Z; cbn [bind].
  - destruct (fetch_active_listings _ _ _ _) as [al|e]; cbn [bind];
      [|discriminate].
    destruct (_summarize al _) as [asum|e]; cbn [bind]; [|discriminate].
    apply Hfinish. right. eauto.
  - apply Hfinish. right. eauto.
Qed.

Lemma estimate_profit_mismatch summary item_price item_currency c med :
  (0 < MarketSummary.sample_size summary)%Z ->
  MarketSummary.median summary = Some med ->
  MarketSummary.currency summary = Some c ->
  c <> [] -> c <> item_currency ->
  _estimate_profit summary item_price item_currency
    = (None, Some c, None).
Proof.
  intros Hn Hmed Hc Hne Hd. unfold _estimate_profit.
  destruct (Z.eqb_spec (MarketSummary.sample_size summary) 0); [lia|].
  rewrite Hmed, Hc. simpl.
  destruct c as [|x c]; [congruence|].
  apply str_eqb_false in Hd. rewrite Hd. reflexivity.
Qed.

(** C10, amended. When the sold summary has a non-empty sample, a
    defined median and a non-empty currency code other than the
    item's, [_estimate_profit] returns no profit and no multiple but
    the summary's code as the profit currency; and every result that
    [evaluate] assembles around such a sold summary carries that code
    (which is not the item's) with an undefined profit and multiple. *)
Theorem profit_currency_on_mismatch :
  (forall summary item_price item_currency c med,
      (0 < MarketSummary.sample_size summary)%Z ->
      MarketSummary.median summary = Some med ->
      MarketSummary.currency summary = Some c ->
      c <> [] -> c <> item_currency ->
      _estimate_profit summary item_price item_currency
        = (None, Some c, None))
  /\ (forall title brand price currency base fuzzy_result r c,
         evaluate pstdev self title brand price currency base fuzzy_result
           = Ok r ->
         (0 < MarketSummary.sample_size (ValuationResult.sold_summary r))%Z
         ->
         MarketSummary.currency (ValuationResult.sold_summary r) = Some c
         ->
         c <> [] -> c <> currency ->
         ValuationResult.profit r = None /\
         ValuationResult.profit_multiple r = None /\
         ValuationResult.profit_currency r = Some c /\
         ValuationResult.profit_currency r
           <> Some (ValuationResult.item_currency r)).
Proof.
  split; [exact estimate_profit_mismatch|].
  intros title brand price currency base fuzzy_result r c Hev Hn Hc Hne Hd.
  destruct (evaluate_result _ _ _ _ _ _ Hev) as (_ & Hcur & Hp & Hs).
  assert (exists med,
             MarketSummary.median (ValuationResult.sold_summary r)
             = Some med) as [med Hmed].
  { destruct Hs as [Hs|[comps Hs]].
    - rewrite Hs in Hn. simpl in Hn. lia.
    - destruct (_summarize_median _ _ Hs) as (med & Hm & _); [lia|eauto]. }
  rewrite (estimate_profit_mismatch _ _ Hn Hmed Hc Hne Hd) in Hp.
  injection Hp as -> -> ->. rewrite Hcur.
  repeat split; congruence.
Qed.
End Evaluate.

(** A fetcher stand-in that returns the given sold comps. *)
Definition fetcher_returning (comps : list ListingComp.t) : Fetcher :=
  {| pick_global_id := fun _ => u "EBAY-DE";
     fetch_sold_comps := fun _ _ _ => Ok comps;
     fetch_active_listings := fun _ _ _ => Ok [] |}.

Definition sold_in (code : str) (p : float) : ListingComp.t :=
  ListingComp.mk (u "plate") (Some p) (Some code) None None (u "eBay sold").

(** Two comps sold in USD for an item priced in EUR. *)
Lemma profit_currency_on_mismatch_witness :
  exists r,
    evaluate (fun _ => 0%float)
             (engine_with
                (Some (fetcher_returning
                         [sold_in (u "USD") 40; sold_in (u "USD") 60])))
             (Some (u "plate")) None 25 (u "EUR") None None = Ok r /\
    MarketSummary.sample_size (ValuationResult.sold_summary r) = 2%Z /\
    MarketSummary.currency (ValuationResult.sold_summary r)
      = Some (u "USD") /\
    ValuationResult.profit r = None /\
    ValuationResult.profit_multiple r = None /\
    ValuationResult.profit_currency r = Some (u "USD") /\
    ValuationResult.profit_currency r
      <> Some (ValuationResult.item_currency r).
Proof.
  eexists. split; [vm_compute; reflexivity|].
  split; [reflexivity|]. split; [reflexivity|].
  apply (proj2 (@profit_currency_on_mismatch
                  (fun _ => 0%float)
                  (engine_with
                     (Some (fetcher_returning
                              [sold_in (u "USD") 40; sold_in (u "USD") 60]))))
               (Some (u "plate")) None 25%float (u "EUR") None None
               _ (u "USD")).
  - vm_compute. reflexivity.
  - reflexivity.
  - reflexivity.
  - discriminate.
  - discriminate.
Defined.

(** C10 as stated: a non-empty sample and a summary currency that is
    not the item's give no profit, no multiple, and the summary's
    currency, which is defined. *)
Definition mismatch_as_stated (summary : MarketSummary.t)
           (item_price : float) (item_currency : str) : Prop :=
  (0 < MarketSummary.sample_size summary)%Z ->
  MarketSummary.currency summary <> Some item_currency ->
  _estimate_profit summary item_price item_currency
    = (None, MarketSummary.currency summary, None)
  /\ MarketSummary.currency summary <> None.

(** C10 fails as stated: two comps sold under an empty currency code
    are summarized under that code, which is not the item's EUR, yet
    the assembled result carries a profit, in the item's currency. *)
Lemma mismatch_stated_counterexample :
  exists r,
    evaluate (fun _ => 0%float)
             (engine_with
                (Some (fetcher_returning [sold_in [] 40; sold_in [] 60])))
             (Some (u "plate")) None 25 (u "EUR") None None = Ok r /\
    MarketSummary.sample_size (ValuationResult.sold_summary r) = 2%Z /\
    MarketSummary.currency (ValuationResult.sold_summary r) = Some [] /\
    ValuationResult.profit r = Some 25%float /\
    ValuationResult.profit_currency r = Some (u "EUR") /\
    ~ mismatch_as_stated (ValuationResult.sold_summary r) 25 (u "EUR").
Proof.
  eexists. split; [vm_compute; reflexivity|].
  split; [reflexivity|]. split; [reflexivity|].
  split; [reflexivity|]. split; [reflexivity|].
  unfold mismatch_as_stated. cbn [ValuationResult.sold_summary].
  intros H. destruct H as [H _]; [reflexivity | discriminate |].
  vm_compute in H. discriminate H.
Qed.

End ValuationEngineFacts.

(* ================================================================== *)
(** * Theorems: market data fetcher *)
(* ================================================================== *)

Module EbayMarketDataFetcherFacts.
Import Py EbayMarketDataFetcher.

(** ** Page size *)

Lemma param_app key params more v :
  param key params = Some v -> param key (params ++ more) = Some v.
Proof.
  induction params as [|[k w] rest IH]; simpl; [discriminate|].
  destruct (str_eqb k key); auto.
Qed.

Lemma param_with_global_id key params global_id v :
  param key params = Some v ->
  param key (with_global_id params global_id) = Some v.
Proof.
  intros H. unfold with_global_id.
  destruct global_id as [[|c g]|]; auto using param_app.
Qed.

Definition page_size_key : str := u "paginationInput.entriesPerPage".

(** The page size a request carries is the decimal text of a number
    between 1 and 100. *)
Definition page_size_in_range (params : Params) : Prop :=
  exists n, param page_size_key params = Some (str_of_int n)
            /\ (1 <= n <= 100)%Z.

Lemma sold_params_page_size self query limit global_id :
  page_size_in_range (sold_params self query limit global_id).
Proof.
  exists (Z.max 1 (Z.min limit 100)). split; [|lia].
  apply param_with_global_id. reflexivity.
Qed.

Lemma active_params_page_size self query limit global_id :
  page_size_in_range (active_params self query limit global_id).
Proof.
  exists (Z.max 1 (Z.min limit 100)). split; [|lia].
  apply param_with_global_id. reflexivity.
Qed.

Example entries_per_page_examples :
  map entries_per_page [0; -7; 30; 100; 250]%Z
  = [u "1"; u "1"; u "30"; u "100"; u "100"].
Proof. reflexivity. Qed.

Section Fetch.
Variable float_of_str : str -> option float.
Variable float_of_int : Z -> option float.

Abbreviation fetch_sold_comps :=
  (fetch_sold_comps float_of_str float_of_int).
Abbreviation fetch_active_listings :=
  (fetch_active_listings float_of_str float_of_int).
Abbreviation _extract_price := (_extract_price float_of_str float_of_int).
Abbreviation to_float := (to_float float_of_str float_of_int).
Abbreviation item_price := (item_price float_of_str float_of_int).
Abbreviation sold_loop := (sold_loop float_of_str float_of_int).

(** C9. Whatever limit is requested (zero, negative or above 100
    included), every request that [fetch_sold_comps] and
    [fetch_active_listings] send carries a
    [paginationInput.entriesPerPage] between 1 and 100; and each sends
    exactly one request when the credentials and the query are
    present. *)
Theorem page_size_clamped self query limit global_id :
  Forall page_size_in_range
         (fst (fetch_sold_comps self query limit global_id)) /\
  Forall page_size_in_range
         (fst (fetch_active_listings self query limit global_id)) /\
  (truthy_opt (app_id self) && truthy query = true ->
   fst (fetch_sold_comps self query limit global_id)
     = [sold_params self query limit global_id] /\
   fst (fetch_active_listings self query limit global_id)
     = [active_params self query limit global_id]).
Proof.
  unfold EbayMarketDataFetcher.fetch_sold_comps,
         EbayMarketDataFetcher.fetch_active_listings.
  destruct (truthy_opt (app_id self)), (truthy query); simpl;
    repeat split; try discriminate; repeat constructor;
    auto using sold_params_page_size, active_params_page_size.
Qed.

(** ** Price extraction *)

(** The entry [_extract_price] reads: the first element of a sequence,
    or the value itself when it cannot be indexed. *)
Definition entry (price_info : Json.t) : Json.t :=
  match Json.first price_info with
  | Ok e => e
  | Raise _ => price_info
  end.

Definition value_field (price_info : Json.t) : Json.t :=
  get_or_none (entry price_info) (u "__value__").

(** The value of ["@currencyId"] in that entry, [Json.Null] when the
    entry has none. *)
Definition currency_field (price_info : Json.t) : Json.t :=
  get_or_none (entry price_info) (u "@currencyId").

Definition is_object (j : Json.t) : bool :=
  match j with Json.Obj _ => true | _ => false end.

Lemma get_or_none_not_object j key :
  is_object j = false -> get_or_none j key = Json.Null.
Proof. destruct j; intros H; try reflexivity; discriminate H. Qed.

Lemma extract_price_falsy price_info :
  Json.truthy price_info = false ->
  _extract_price price_info = Ok (None, Json.Null).
Proof.
  intros H. unfold EbayMarketDataFetcher._extract_price.
  now rewrite H.
Qed.

Lemma extract_price_entry price_info :
  Json.truthy price_info = true ->
  is_object price_info = false ->
  _extract_price price_info =
    match value_field price_info with
    | Json.Null => Ok (None, currency_field price_info)
    | _ =>
        match to_float (value_field price_info) with
        | Ok x => Ok (Some x, currency_field price_info)
        | Raise TypeError | Raise ValueError =>
            Ok (None, currency_field price_info)
        | Raise e => Raise e
        end
    end.
Proof.
  intros Ht Ho.
  unfold EbayMarketDataFetcher._extract_price, value_field,
         currency_field, entry.
  rewrite Ht. cbn [negb].
  destruct price_info as [| b | n | x | [|c s] | [|j l] | items];
    try (simpl in Ht; discriminate Ht);
    try (simpl in Ho; discriminate Ho); reflexivity.
Qed.

Lemma to_float_raises value e :
  to_float value = Raise e ->
  e = TypeError \/ e = ValueError \/
  (e = OverflowError /\ exists n, value = Json.Int n
                                  /\ float_of_int n = None).
Proof.
  destruct value as [| b | n | x | s | l | items]; simpl;
    try (intros [= <-]; auto); try discriminate.
  - destruct (float_of_int n) eqn:E; [discriminate|].
    intros [= <-]. right. right. eauto.
  - destruct (float_of_str s); [discriminate|]. intros [= <-]. auto.
Qed.

(** C8, amended. For every price info that is not a non-empty mapping
    (so: absent or empty, a sequence, a string, a number) and whose
    value field is not an integer beyond the float range, extraction
    returns a pair and raises nothing. The price is the float read
    from the value field of the selected entry, and none when that
    field is missing or does not coerce; the currency is the entry's
    [@currencyId] as the response has it, of whatever type, and none
    when the entry has none. So the pair is
    (none, none) for absent price info and for an entry that is not a
    mapping, and (none, currency) for a mapping without a usable
    value. *)
Theorem extract_price_defensive (price_info : Json.t) :
  Json.truthy price_info && is_object price_info = false ->
  (forall n, value_field price_info = Json.Int n ->
             float_of_int n <> None) ->
  exists price currency,
    _extract_price price_info = Ok (price, currency) /\
    (Json.truthy price_info = false ->
     price = None /\ currency = Json.Null) /\
    (is_object (entry price_info) = false ->
     price = None /\ currency = Json.Null) /\
    (forall x, price = Some x <->
               value_field price_info <> Json.Null /\
               to_float (value_field price_info) = Ok x) /\
    (Json.truthy price_info = true ->
     currency = currency_field price_info).
Proof.
  intros Hshape Hint.
  destruct (Json.truthy price_info) eqn:Ht.
  - simpl in Hshape.
    rewrite (extract_price_entry _ Ht Hshape).
    assert (Hnot : is_object (entry price_info) = false ->
                   value_field price_info = Json.Null /\
                   currency_field price_info = Json.Null).
    { intros Ho. unfold value_field, currency_field.
      now rewrite !get_or_none_not_object. }
    destruct (value_field price_info) as [| b | n | x | s | l | items]
      eqn:Ev.
    { exists None, (currency_field price_info).
      split; [reflexivity|]. split; [discriminate|].
      split; [intros Ho; now destruct (Hnot Ho)|].
      split; [|reflexivity].
      intros x. split; [discriminate | intros [H _]; congruence]. }
    all: destruct (to_float _) as [y|e] eqn:Ef.
    all: try (exists (Some y), (currency_field price_info);
              split; [reflexivity|]; split; [discriminate|];
              split; [intros Ho; destruct (Hnot Ho); discriminate|];
              split; [|reflexivity];
              intros z; split;
              [intros [= <-]; split; [discriminate|reflexivity]
              |intros [_ [= <-]]; reflexivity]).
    all: destruct (to_float_raises _ Ef) as [->|[->|(-> & k & Hk & Hov)]].
    all: try (exists None, (currency_field price_info);
              split; [reflexivity|]; split; [discriminate|];
              split; [intros Ho; destruct (Hnot Ho); discriminate|];
              split; [|reflexivity];
              intros z; split;
              [discriminate | intros [_ H]; discriminate H]).
    all: try discriminate Hk.
    injection Hk as <-. exfalso. now apply (Hint n).
  - rewrite (extract_price_falsy _ Ht).
    exists None, Json.Null.
    split; [reflexivity|]. split; [auto|]. split; [auto|].
    split; [|discriminate].
    intros x. split; [discriminate|]. intros [H _]. exfalso. apply H.
    unfold value_field, entry.
    destruct price_info as [| b | n | x0 | [|c s] | [|j l] | [|kv items]];
      try (simpl in Ht; discriminate Ht); reflexivity.
Qed.

(** ** Sold comparables *)

(** [item["sellingStatus"][0]["sellingState"][0]] with the defaults of
    [fetch_sold_comps]. *)
Definition item_state (item : Json.t) : res Json.t :=
  statuses <- Json.get item (u "sellingStatus") (Json.Arr [Json.Obj []]) ;;
  selling_status <- Json.first statuses ;;
  selling_state selling_status.

(** The items the loop keeps: those whose state is not another end
    state. *)
Definition kept (item : Json.t) : bool :=
  match item_state item with
  | Ok state => negb (other_end_state state)
  | Raise _ => false
  end.

Definition sale_or_unstated (state : Json.t) : Prop :=
  Json.truthy state = false \/ state = Json.Str (u "EndedWithSales").

(** [comp] is the listing built from [item]. *)
Definition built_from (item : Json.t) (comp : FetchedComp.t) : Prop :=
  exists selling_status price currency,
    item_price item = Ok (selling_status, price, currency) /\
    listing item price currency (u "eBay sold") = Ok comp.

Definition came_from_sale (item : Json.t) (comp : FetchedComp.t) : Prop :=
  (exists state, item_state item = Ok state /\ sale_or_unstated state)
  /\ built_from item comp.

Lemma other_end_state_false state :
  other_end_state state = false -> sale_or_unstated state.
Proof.
  unfold other_end_state, sale_or_unstated.
  destruct (Json.truthy state); simpl; [|auto].
  destruct state; simpl; try discriminate.
  rewrite negb_false_iff. unfold str_eqb.
  destruct (str_eq_dec s (u "EndedWithSales")); [|discriminate].
  subst. auto.
Qed.

Lemma item_price_state item selling_status price currency :
  item_price item = Ok (selling_status, price, currency) ->
  item_state item = selling_state selling_status.
Proof.
  unfold EbayMarketDataFetcher.item_price, item_state.
  destruct (Json.get item _ _) as [statuses|e]; cbn [bind];
    [|discriminate].
  destruct (Json.first statuses) as [ss|e]; cbn [bind]; [|discriminate].
  destruct (Json.get ss (u "convertedCurrentPrice") _) as [cv|e];
    cbn [bind]; [|discriminate].
  destruct (Json.get ss (u "currentPrice") _) as [cu|e];
    cbn [bind]; [|discriminate].
  destruct (_extract_price _) as [[p c]|e]; cbn [bind]; [|discriminate].
  now intros [= <- _ _].
Qed.

Lemma sold_loop_kept items acc comps :
  sold_loop items acc = Ok comps ->
  exists added,
    comps = acc ++ added /\
    Forall2 came_from_sale (filter kept items) added.
Proof.
  revert acc. induction items as [|item rest IH]; intros acc; simpl.
  - intros [= <-]. exists []. rewrite app_nil_r. split; constructor.
  - destruct (item_price item) as [[[ss price] currency]|e] eqn:Ep;
      cbn [bind]; [|discriminate].
    pose proof (item_price_state _ Ep) as Est.
    destruct (selling_state ss) as [state|e] eqn:Es; cbn [bind];
      [|discriminate].
    unfold kept. rewrite Est.
    destruct (other_end_state state) eqn:Eo; cbn [negb].
    + apply IH.
    + destruct (listing item price currency _) as [comp|e] eqn:El;
        cbn [bind]; [|discriminate].
      intros H. destruct (IH _ H) as (added & -> & Hall).
      exists (comp :: added). rewrite <- app_assoc. split; [reflexivity|].
      constructor; [|exact Hall].
      split.
      * exists state. split; [exact Est|].
        now apply other_end_state_false.
      * exists ss, price, currency. auto.
Qed.

(** The items of the response to a request, as the fetch loops see
    them. *)
Definition response_items (self : t) (params : Params) (root_key : str)
  : res (list Json.t) :=
  items <- _extract_items (_perform_request self params) root_key ;;
  Json.iter items.

(** C7, amended. The comparables that [fetch_sold_comps] returns are,
    in order, the listings built from the response items it keeps,
    and each kept item's selling state is "EndedWithSales" or is
    missing or empty; an item whose selling state is any other
    non-empty value is not kept. *)
Theorem sold_comps_from_sales self query limit global_id comps :
  snd (fetch_sold_comps self query limit global_id) = Ok comps ->
  exists items,
    (fst (fetch_sold_comps self query limit global_id) = [] /\ items = []
     \/ response_items self (sold_params self query limit global_id)
                       (u "findCompletedItemsResponse") = Ok items) /\
    Forall2 came_from_sale (filter kept items) comps /\
    (forall item state,
        In item items -> item_state item = Ok state ->
        other_end_state state = true ->
        ~ In item (filter kept items)).
Proof.
  intros H.
  assert (Hdrop : forall items item state,
             In item items -> item_state item = Ok state ->
             other_end_state state = true ->
             ~ In item (filter kept items)).
  { intros items item state _ Hst Ho Hin.
    apply filter_In in Hin. destruct Hin as [_ Hk].
    unfold kept in Hk. rewrite Hst, Ho in Hk. discriminate. }
  revert H. unfold EbayMarketDataFetcher.fetch_sold_comps, response_items.
  destruct (negb (truthy_opt (app_id self)) || negb (truthy query));
    cbn [fst snd].
  - intros [= <-]. exists [].
    split; [now left|]. split; [constructor | apply Hdrop].
  - destruct (_extract_items _ _) as [raw|e]; cbn [bind]; [|discriminate].
    destruct (Json.iter raw) as [items|e]; cbn [bind]; [|discriminate].
    intros H. destruct (sold_loop_kept _ _ H) as (added & -> & Hall).
    exists items.
    split; [now right|]. split; [exact Hall | apply Hdrop].
Qed.
End Fetch.

(** A decimal reader that knows the prices used in the examples. *)
Definition read_price (s : str) : option float :=
  if str_eqb s (u "12.5") then Some 12.5%float
  else if str_eqb s (u "40") then Some 40%float
  else None.

Definition no_overflow (n : Z) : option float := Some 0%float.

Definition priced (value code : str) : Json.t :=
  Json.Arr [Json.Obj [(u "__value__", Json.Str value);
                      (u "@currencyId", Json.Str code)]].

Lemma extract_price_defensive_witness :
  exists price currency,
    _extract_price read_price no_overflow (priced (u "12.5") (u "EUR"))
      = Ok (price, currency) /\
    price = Some 12.5%float /\ currency = Json.Str (u "EUR").
Proof.
  destruct (@extract_price_defensive
              read_price no_overflow (priced (u "12.5") (u "EUR"))
              eq_refl)
    as (price & currency & H & _ & _ & Hp & Hc).
  - intros n [=].
  - exists price, currency. split; [exact H|]. split.
    + apply Hp. split; [discriminate | reflexivity].
    + now apply Hc.
Defined.

(** C8 as stated: whenever no number can be read from the value field,
    the result is the pair (none, none). *)
Definition extract_price_as_stated (price_info : Json.t) : Prop :=
  (forall x, to_float read_price no_overflow
                      (value_field price_info) <> Ok x) ->
  _extract_price read_price no_overflow price_info = Ok (None, Json.Null).

(** C8 fails as stated: an entry with a currency id and no value field
    yields (none, "EUR"), not (none, none). *)
Lemma extract_price_stated_counterexample :
  _extract_price read_price no_overflow
                 (Json.Arr [Json.Obj [(u "@currencyId", Json.Str (u "EUR"))]])
    = Ok (None, Json.Str (u "EUR"))
  /\ ~ extract_price_as_stated
        (Json.Arr [Json.Obj [(u "@currencyId", Json.Str (u "EUR"))]]).
Proof.
  split; [reflexivity|].
  unfold extract_price_as_stated. intros H.
  assert (E : _extract_price read_price no_overflow
                (Json.Arr [Json.Obj [(u "@currencyId",
                                      Json.Str (u "EUR"))]])
              = Ok (None, Json.Null)).
  { apply H. intros x. vm_compute. discriminate. }
  vm_compute in E. discriminate E.
Qed.

(** *** A response with three sold items *)

Definition sold_item (title : str) (state : list (str * Json.t))
           (value : str) : Json.t :=
  Json.Obj
    [ (u "title", Json.Arr [Json.Str title]);
      (u "sellingStatus",
       Json.Arr [Json.Obj ((u "currentPrice", priced value (u "EUR"))
                           :: state)]) ].

Definition in_state (state : str) : list (str * Json.t) :=
  [(u "sellingState", Json.Arr [Json.Str state])].

Definition completed_items (items : list Json.t) : Json.t :=
  Json.Obj
    [ (u "findCompletedItemsResponse",
       Json.Arr [Json.Obj [(u "searchResult",
                            Json.Arr [Json.Obj [(u "item",
                                                 Json.Arr items)]])]]) ].

Definition fetcher_answering (body : Json.t) : EbayMarketDataFetcher.t :=
  EbayMarketDataFetcher.mk (Some (u "app")) (u "EBAY-DE")
                           (fun _ => Some body) 12.

Definition plate : Json.t :=
  sold_item (u "Plate") (in_state (u "EndedWithSales")) (u "40").
Definition lamp : Json.t :=
  sold_item (u "Lamp") (in_state (u "EndedWithoutSales")) (u "12.5").
Definition vase : Json.t := sold_item (u "Vase") [] (u "12.5").

Definition sold_comp (title : str) (price : float) : FetchedComp.t :=
  FetchedComp.mk (Json.Str title) (Some price) (Json.Str (u "EUR"))
                 Json.Null Json.Null (u "eBay sold").

Lemma sold_comps_from_sales_witness :
  exists comps items,
    snd (fetch_sold_comps read_price no_overflow
           (fetcher_answering (completed_items [plate; lamp; vase]))
           (u "plate") 30 None) = Ok comps /\
    map FetchedComp.title comps
      = [Json.Str (u "Plate"); Json.Str (u "Vase")] /\
    Forall2 (came_from_sale read_price no_overflow)
            (filter (kept) items) comps.
Proof.
  destruct (@sold_comps_from_sales
              read_price no_overflow
              (fetcher_answering (completed_items [plate; lamp; vase]))
              (u "plate") 30%Z None
              [ sold_comp (u "Plate") 40; sold_comp (u "Vase") 12.5 ]
              eq_refl)
    as (items & _ & Hall & _).
  eexists. exists items. split; [reflexivity|].
  split; [reflexivity | exact Hall].
Defined.

(** C7 as stated: every returned comparable comes from an item in the
    "EndedWithSales" state. *)
Definition sold_only_as_stated (items : list Json.t)
           (comps : list FetchedComp.t) : Prop :=
  forall comp, In comp comps ->
    exists item, In item items /\
                 item_state item = Ok (Json.Str (u "EndedWithSales")) /\
                 built_from read_price no_overflow item comp.

(** C7 fails as stated: an item that reports no selling state is
    returned as a sold comparable. *)
Lemma sold_only_stated_counterexample :
  response_items (fetcher_answering (completed_items [vase]))
                 (sold_params (fetcher_answering (completed_items [vase]))
                              (u "vase") 30 None)
                 (u "findCompletedItemsResponse") = Ok [vase] /\
  item_state vase = Ok (Json.Str []) /\
  snd (fetch_sold_comps read_price no_overflow
         (fetcher_answering (completed_items [vase])) (u "vase") 30 None)
    = Ok [sold_comp (u "Vase") 12.5] /\
  ~ sold_only_as_stated [vase] [sold_comp (u "Vase") 12.5].
Proof.
  split; [reflexivity|]. split; [reflexivity|]. split; [reflexivity|].
  intros H.
  destruct (H _ (or_introl eq_refl)) as (item & [<-|[]] & Hst & _).
  vm_compute in Hst. discriminate Hst.
Qed.

(** Outside the amended claim: price info that is itself a mapping,
    which the [except (IndexError, TypeError)] clause is written to
    accept, is indexed with [0] and the [KeyError] escapes. *)
Example extract_price_mapping_raises :
  _extract_price read_price no_overflow
                 (Json.Obj [(u "__value__", Json.Str (u "12.5"));
                            (u "@currencyId", Json.Str (u "EUR"))])
  = Raise KeyError.
Proof. reflexivity. Qed.

(** A currency id that is not a text is returned as it is. *)
Example extract_price_numeric_currency :
  _extract_price read_price no_overflow
                 (Json.Arr [Json.Obj [(u "__value__", Json.Str (u "12.5"));
                                      (u "@currencyId", Json.Int 978)]])
  = Ok (Some 12.5%float, Json.Int 978).
Proof. reflexivity. Qed.

End EbayMarketDataFetcherFacts.

(* ================================================================== *)
(** * Theorems: fuzzy matcher *)
(* ================================================================== *)

Module FuzzyMatcherFacts.
Import Py PyFacts FuzzyMatcher.

(** ** Query names *)

(** The character of [QUERY_NAME_DELIMITER]. *)
Definition pipe : N := 124%N.

Lemma delimiter_pipes : QUERY_NAME_DELIMITER = [pipe; pipe].
Proof. reflexivity. Qed.

Definition is_pipe (c : N) : bool := existsb (N.eqb c) QUERY_NAME_DELIMITER.

Lemma is_pipe_false c : c <> pipe -> is_pipe c = false.
Proof.
  intros H. unfold is_pipe. rewrite delimiter_pipes. simpl.
  apply N.eqb_neq in H. now rewrite H.
Qed.

Lemma clean_name_plain (name : str) :
  ~ In pipe name -> clean_name (Some name) = strip name.
Proof.
  intros H. unfold clean_name. rewrite delimiter_pipes. simpl or_empty.
  apply replace_absent. intros Hin. apply H. now apply strip_In.
Qed.

(** Joining two pipe-free, non-empty parts leaves nothing for
    [strip("||")] to remove. *)
Lemma strip_chars_joined (left right : str) :
  left <> [] -> right <> [] -> ~ In pipe left -> ~ In pipe right ->
  strip_chars QUERY_NAME_DELIMITER (left ++ QUERY_NAME_DELIMITER ++ right)
  = left ++ QUERY_NAME_DELIMITER ++ right.
Proof.
  intros Hl Hr Pl Pr. unfold strip_chars.
  apply stripped_strip_by, stripped_by_ends.
  - destruct left; [congruence | discriminate].
  - intros c Hc. apply is_pipe_false. intros ->. apply Pl.
    destruct left as [|x left]; [congruence|].
    simpl in Hc. injection Hc as ->. now left.
  - intros d Hd. apply is_pipe_false. intros ->. apply Pr.
    rewrite !rev_app_distr, <- app_assoc in Hd.
    destruct (rev right) as [|x r] eqn:E.
    + apply (f_equal (@rev N)) in E. rewrite rev_involutive in E.
      simpl in E. congruence.
    + simpl in Hd. injection Hd as ->.
      apply in_rev. rewrite E. now left.
Qed.

Lemma decode_joined (left right : str) :
  left <> [] -> right <> [] -> ~ In pipe left ->
  strip left = left -> strip right = right ->
  decode_query_name (Some (left ++ QUERY_NAME_DELIMITER ++ right))
  = (Some left, Some right).
Proof.
  intros Hl Hr Pl Sl Sr. unfold decode_query_name.
  destruct (left ++ QUERY_NAME_DELIMITER ++ right) as [|x raw] eqn:E.
  { destruct left; [congruence | discriminate]. }
  rewrite <- E. rewrite contains_app.
  rewrite delimiter_pipes.
  rewrite (@split_once_first pipe [pipe] left right Pl).
  now rewrite Sl, Sr, !or_none_some.
Qed.

(** The name that comes back for a display name and a base: the trimmed
    display name, or the trimmed base when that is empty. *)
Definition shown_name (display_name : option str) (base : str) : str :=
  if truthy (strip (or_empty display_name))
  then strip (or_empty display_name) else strip base.

(** The two trimmed texts survive the encoding: neither contains the
    delimiter, the name neither starts nor ends with ['|'], and the
    base does not end with it. *)
Definition kept_apart (shown base : str) : Prop :=
  contains QUERY_NAME_DELIMITER shown = false /\
  contains QUERY_NAME_DELIMITER base = false /\
  hd_error shown <> Some pipe /\
  last_char shown <> Some pipe /\
  last_char base <> Some pipe.

Definition spaced (s : str) : str := replace QUERY_NAME_DELIMITER (u " ") s.

Lemma spaced_nonempty s : s <> [] -> spaced s <> [].
Proof. apply replace_nonempty. Qed.

Lemma spaced_length s : length (spaced s) <= length s.
Proof. apply replace_length. simpl. lia. Qed.

Lemma spaced_same_length s :
  length (spaced s) = length s ->
  contains QUERY_NAME_DELIMITER s = false /\ spaced s = s.
Proof.
  intros H. destruct (contains QUERY_NAME_DELIMITER s) eqn:E.
  - pose proof (@replace_shortens QUERY_NAME_DELIMITER (u " ") s) as Hs.
    unfold spaced in H. simpl length in Hs at 1 2.
    specialize (Hs ltac:(lia) E). lia.
  - split; [reflexivity|]. now apply replace_none.
Qed.

Lemma shown_name_trimmed display_name base :
  strip base <> [] ->
  shown_name display_name base <> [] /\
  strip (shown_name display_name base) = shown_name display_name base.
Proof.
  intros Hb. unfold shown_name.
  destruct (truthy _) eqn:E.
  - split; [now apply truthy_true | apply strip_idem].
  - split; [exact Hb | apply strip_idem].
Qed.

(** What [encode_query_name] stores for a base that is not blank. *)
Lemma encode_shape display_name base :
  strip base <> [] ->
  encode_query_name display_name (Some base)
  = Some (strip_chars QUERY_NAME_DELIMITER
            (spaced (shown_name display_name base)
               ++ QUERY_NAME_DELIMITER ++ spaced (strip base))).
Proof.
  intros Hb. unfold encode_query_name, clean_name, shown_name.
  cbn [or_empty]. fold (spaced (strip base)).
  fold (spaced (strip (or_empty display_name))).
  pose proof (spaced_nonempty Hb) as Hsb.
  apply truthy_true in Hsb. rewrite Hsb.
  destruct (strip (or_empty display_name)) as [|c t] eqn:E.
  - reflexivity.
  - assert (Hd : spaced (c :: t) <> []) by now apply spaced_nonempty.
    apply truthy_true in Hd. now rewrite Hd.
Qed.

Lemma is_pipe_true c : is_pipe c = true -> c = pipe.
Proof.
  unfold is_pipe. rewrite delimiter_pipes. simpl.
  rewrite orb_false_r, orb_diag. apply N.eqb_eq.
Qed.

Lemma stored_whole (shown base : str) :
  shown <> [] -> base <> [] ->
  (strip_chars QUERY_NAME_DELIMITER (shown ++ QUERY_NAME_DELIMITER ++ base)
   = shown ++ QUERY_NAME_DELIMITER ++ base
   <-> hd_error shown <> Some pipe /\ last_char base <> Some pipe).
Proof.
  intros Hs Hb.
  assert (Hlast : last_char (shown ++ QUERY_NAME_DELIMITER ++ base)
                  = last_char base).
  { rewrite last_char_app.
    - now apply last_char_app.
    - destruct base; [congruence | discriminate]. }
  assert (Hhd : hd_error (shown ++ QUERY_NAME_DELIMITER ++ base)
                = hd_error shown).
  { destruct shown; [congruence | reflexivity]. }
  unfold strip_chars. fold is_pipe. split.
  - intros H.
    pose proof (strip_by_stripped is_pipe
                  (shown ++ QUERY_NAME_DELIMITER ++ base)) as [H1 H2].
    change (fun c => existsb (N.eqb c) QUERY_NAME_DELIMITER) with is_pipe in H.
    rewrite H in H1, H2. rewrite <- Hhd, <- Hlast. unfold last_char.
    split.
    + destruct (shown ++ QUERY_NAME_DELIMITER ++ base) as [|c s];
        [discriminate|].
      apply lstrip_by_fixed in H1. intros [= ->]. discriminate.
    + destruct (rev (shown ++ QUERY_NAME_DELIMITER ++ base)) as [|c s];
        [discriminate|].
      apply lstrip_by_fixed in H2. intros [= ->]. discriminate.
  - intros [H1 H2].
    change (fun c => existsb (N.eqb c) QUERY_NAME_DELIMITER) with is_pipe.
    apply stripped_strip_by, stripped_by_ends.
    + destruct shown; [congruence | discriminate].
    + rewrite Hhd. intros c Hc.
      destruct (is_pipe c) eqn:E; [|reflexivity].
      apply is_pipe_true in E. congruence.
    + fold (last_char (shown ++ QUERY_NAME_DELIMITER ++ base)).
      rewrite Hlast. intros c Hc.
      destruct (is_pipe c) eqn:E; [|reflexivity].
      apply is_pipe_true in E. congruence.
Qed.

Lemma or_none_eq s t : or_none s = Some t -> s = t.
Proof. destruct s; simpl; [discriminate|]. now intros [= <-]. Qed.

Lemma decode_parts stored shown base :
  decode_query_name (Some stored) = (Some shown, Some base) ->
  exists a b,
    stored = a ++ QUERY_NAME_DELIMITER ++ b /\
    split_once QUERY_NAME_DELIMITER stored = Some (a, b) /\
    strip a = shown /\ strip b = base.
Proof.
  unfold decode_query_name.
  destruct stored as [|c s]; [discriminate|].
  destruct (contains QUERY_NAME_DELIMITER (c :: s)); [|discriminate].
  destruct (split_once QUERY_NAME_DELIMITER (c :: s)) as [[a b]|] eqn:E;
    [|discriminate].
  intros [= Ha Hb]. exists a, b.
  split; [now apply split_once_parts|]. split; [reflexivity|].
  split; now apply or_none_eq.
Qed.

Lemma strip_length s : length (strip s) <= length s.
Proof. apply strip_by_length. Qed.

Lemma strip_same_length s : length (strip s) = length s -> strip s = s.
Proof. apply strip_by_same_length. Qed.

(** C6, amended. For a base that is not empty once trimmed,
    [encode_query_name] stores a value, and decoding it gives the
    trimmed display name (the trimmed base when that is empty) and the
    trimmed base exactly when these two texts survive the encoding:
    neither contains ["||"], the name neither starts nor ends with
    ['|'], and the base does not end with ['|']. Encoding the decoded
    pair then gives the same stored value again. *)
Theorem query_name_round_trip (display_name : option str) (base : str) :
  strip base <> [] ->
  let shown := shown_name display_name base in
  exists stored,
    encode_query_name display_name (Some base) = Some stored /\
    (decode_query_name (Some stored) = (Some shown, Some (strip base))
     <-> kept_apart shown (strip base)) /\
    (kept_apart shown (strip base) ->
     encode_query_name (Some shown) (Some (strip base)) = Some stored).
Proof.
  intros Hb shown.
  destruct (@shown_name_trimmed display_name base Hb) as [Hne Htrim].
  fold shown in Hne, Htrim.
  assert (Hbt : strip (strip base) = strip base) by apply strip_idem.
  rewrite (@encode_shape display_name base Hb). fold shown.
  clearbody shown.
  eexists. split; [reflexivity|].
  assert (Hkept : kept_apart shown (strip base) ->
            strip_chars QUERY_NAME_DELIMITER
              (spaced shown ++ QUERY_NAME_DELIMITER ++ spaced (strip base))
            = shown ++ QUERY_NAME_DELIMITER ++ strip base).
  { intros (H1 & H2 & H3 & H4 & H5).
    unfold spaced. rewrite !replace_none by assumption.
    now apply stored_whole. }
  split; [split|].
  - (* the pair comes back: nothing was replaced, stripped or split
       early *)
    intros Hdec.
    destruct (decode_parts _ Hdec) as (a & b & Est & Esp & Ha & Hb').
    pose proof (strip_by_length
                  (fun c => existsb (N.eqb c) QUERY_NAME_DELIMITER)
                  (spaced shown ++ QUERY_NAME_DELIMITER
                     ++ spaced (strip base))) as L1.
    fold (strip_chars QUERY_NAME_DELIMITER
            (spaced shown ++ QUERY_NAME_DELIMITER ++ spaced (strip base)))
      in L1.
    pose proof (spaced_length shown) as L2.
    pose proof (spaced_length (strip base)) as L3.
    pose proof (strip_length a) as L4.
    pose proof (strip_length b) as L5.
    rewrite Ha in L4. rewrite Hb' in L5.
    pose proof (f_equal (@length _) Est) as L6.
    rewrite !length_app in L1, L6.
    assert (S1 : length (spaced shown) = length shown) by lia.
    assert (S2 : length (spaced (strip base)) = length (strip base))
      by lia.
    destruct (spaced_same_length _ S1) as [C1 E1].
    destruct (spaced_same_length _ S2) as [C2 E2].
    rewrite E1, E2 in *.
    assert (Ea : a = shown).
    { rewrite <- Ha. symmetry. apply strip_same_length.
      rewrite Ha. lia. }
    assert (Eb : b = strip base).
    { rewrite <- Hb'. symmetry. apply strip_same_length.
      rewrite Hb'. lia. }
    subst a b.
    assert (Ewhole :
      strip_chars QUERY_NAME_DELIMITER
        (shown ++ QUERY_NAME_DELIMITER ++ strip base)
      = shown ++ QUERY_NAME_DELIMITER ++ strip base).
    { apply strip_by_same_length. unfold strip_chars in Est.
      rewrite Est at 1. rewrite !length_app. reflexivity. }
    apply stored_whole in Ewhole; [|assumption|assumption].
    destruct Ewhole as [H3 H5].
    split; [exact C1|]. split; [exact C2|]. split; [exact H3|].
    split; [|exact H5].
    intros Hl. apply last_char_snoc in Hl. destruct Hl as [pre Hpre].
    rewrite Est in Esp. rewrite Hpre in Esp at 1.
    rewrite <- app_assoc in Esp. rewrite delimiter_pipes in Esp.
    change ([pipe] ++ [pipe; pipe] ++ strip base)
      with ([pipe; pipe] ++ pipe :: strip base) in Esp.
    apply split_once_earliest in Esp.
    rewrite Hpre, length_app in Esp. simpl in Esp. lia.
  - intros Hk. rewrite (Hkept Hk).
    destruct Hk as (H1 & H2 & H3 & H4 & H5).
    unfold decode_query_name.
    destruct (shown ++ QUERY_NAME_DELIMITER ++ strip base) as [|x raw] eqn:E.
    { destruct shown; [congruence | discriminate]. }
    rewrite <- E. rewrite contains_app. rewrite delimiter_pipes in *.
    rewrite split_once_pair by assumption.
    now rewrite Htrim, Hbt, !or_none_some.
  - intros Hk. rewrite (Hkept Hk).
    rewrite (@encode_shape (Some shown) (strip base))
      by (rewrite Hbt; exact Hb).
    unfold shown_name. cbn [or_empty]. rewrite Htrim, Hbt.
    apply truthy_true in Hne. rewrite Hne.
    f_equal. symmetry. rewrite <- (Hkept Hk). reflexivity.
Qed.

Lemma query_name_round_trip_witness :
  exists stored,
    encode_query_name (Some (u "  Limoges|plates ")) (Some (u " |limoges "))
      = Some stored /\
    stored = u "Limoges|plates|||limoges" /\
    decode_query_name (Some stored)
      = (Some (u "Limoges|plates"), Some (u "|limoges")) /\
    encode_query_name (Some (u "Limoges|plates")) (Some (u "|limoges"))
      = Some stored.
Proof.
  destruct (@query_name_round_trip
              (Some (u "  Limoges|plates ")) (u " |limoges "))
    as (stored & He & Hd & Hi).
  - vm_compute. discriminate.
  - assert (Hk : kept_apart
                   (shown_name (Some (u "  Limoges|plates "))
                               (u " |limoges "))
                   (strip (u " |limoges "))).
    { vm_compute. repeat split; discriminate. }
    exists stored. split; [exact He|].
    assert (Es : stored = u "Limoges|plates|||limoges").
    { vm_compute in He. injection He as <-. reflexivity. }
    split; [exact Es|]. split; [now apply Hd | now apply Hi].
Defined.

(** C6 as stated: for a non-empty base, decoding the encoded name gives
    back the display name (the base when it is empty) and the base, and
    encoding that pair again gives the same stored value. *)
Definition round_trip_as_stated (display base : str) : Prop :=
  base <> [] ->
  decode_query_name (encode_query_name (Some display) (Some base))
  = (Some (if truthy display then display else base), Some base)
  /\ (let '(d, b) :=
        decode_query_name (encode_query_name (Some display) (Some base)) in
      encode_query_name d b
      = encode_query_name (Some display) (Some base)).

(** C6 fails as stated: the encoder trims, so a display name with a
    leading blank does not come back. *)
Lemma round_trip_stated_counterexample :
  decode_query_name (encode_query_name (Some (u " a")) (Some (u "b")))
    = (Some (u "a"), Some (u "b"))
  /\ ~ round_trip_as_stated (u " a") (u "b").
Proof.
  split; [reflexivity|].
  intros H. destruct H as [H _]; [discriminate|].
  vm_compute in H. discriminate H.
Qed.

(** ** Fuzzy matching *)

Section Matching.
Variable transliterate : N -> str.
Variable lower : str -> str.
Variable token_set_ratio : str -> str -> float.

(** The scorer returns a number (never NaN). *)
Hypothesis ratio_is_number :
  forall a b, is_number (token_set_ratio a b).

Abbreviation _normalize_text := (_normalize_text transliterate lower).
Abbreviation _build_fuzzy_targets :=
  (_build_fuzzy_targets transliterate lower).
Abbreviation extractOne := (extractOne token_set_ratio).
Abbreviation consider := (consider transliterate lower token_set_ratio).
Abbreviation find_best_fuzzy_match :=
  (find_best_fuzzy_match transliterate lower token_set_ratio).

Definition pick (query : str) (best : option (str * float)) (choice : str)
  : option (str * float) :=
  let score := token_set_ratio query choice in
  match best with
  | None => Some (choice, score)
  | Some (_, top) =>
      if (top <? score)%float then Some (choice, score) else best
  end.

Lemma extract_from query choices c0 s0 :
  is_number s0 ->
  exists c s,
    fold_left (pick query) choices (Some (c0, s0)) = Some (c, s) /\
    ((c, s) = (c0, s0) \/ (In c choices /\ s = token_set_ratio query c))
    /\ (s0 <=? s)%float = true
    /\ (forall c', In c' choices ->
                   (token_set_ratio query c' <=? s)%float = true).
Proof.
  revert c0 s0. induction choices as [|x rest IH]; intros c0 s0 Hn.
  - exists c0, s0. simpl.
    split; [reflexivity|]. split; [now left|].
    split; [now apply leb_refl | intros c' []].
  - simpl. destruct (s0 <? token_set_ratio query x)%float eqn:E.
    + destruct (IH x (token_set_ratio query x) (ratio_is_number _ _))
        as (c & s & Hf & Hin & Hle & Hall).
      exists c, s. split; [exact Hf|]. split; [|split].
      * right. destruct Hin as [[= -> ->]|[Hin ->]]; auto.
      * apply leb_trans with (token_set_ratio query x);
          auto using ltb_leb.
      * intros c' [<-|Hc']; auto.
    + destruct (IH c0 s0 Hn) as (c & s & Hf & Hin & Hle & Hall).
      exists c, s. split; [exact Hf|]. split; [|split].
      * destruct Hin as [Heq|[Hin ->]]; auto.
      * exact Hle.
      * intros c' [<-|Hc']; auto.
        apply leb_trans with s0; auto.
        apply ltb_false_leb; auto.
Qed.

(** [extractOne] returns a choice together with its score, and no
    choice scores higher. *)
Lemma extractOne_best query x rest :
  exists c s,
    extractOne query (x :: rest) = Some (c, s) /\
    In c (x :: rest) /\ s = token_set_ratio query c /\
    (forall c', In c' (x :: rest) ->
                (token_set_ratio query c' <=? s)%float = true).
Proof.
  unfold FuzzyMatcher.extractOne. simpl.
  destruct (@extract_from query rest x (token_set_ratio query x)
                          (ratio_is_number _ _))
    as (c & s & Hf & Hin & Hle & Hall).
  exists c, s. split; [exact Hf|]. split; [|split].
  - destruct Hin as [[= -> ->]|[Hin ->]]; auto.
  - destruct Hin as [[= -> ->]|[Hin ->]]; auto.
  - intros c' [<-|Hc']; auto.
Qed.

Variable threshold : float.
Hypothesis threshold_is_number : is_number threshold.

(** A candidate clears the threshold when its normalized text is not
    empty and its score against some target is not below the
    threshold. *)
Definition clears (targets : list (str * str)) (candidate : option str)
  : bool :=
  truthy (_normalize_text candidate)
  && existsb (fun t => negb (token_set_ratio (_normalize_text candidate) t
                             <? threshold)%float)
             (map fst targets).

Definition at_least_threshold (best : option FuzzyResult.t) : Prop :=
  forall r, best = Some r -> (threshold <=? FuzzyResult.score r)%float = true.

Lemma consider_clears targets best source candidate :
  targets <> [] ->
  at_least_threshold best ->
  if clears targets candidate
  then exists r,
      consider targets threshold best source candidate = Some r /\
      (threshold <=? FuzzyResult.score r)%float = true
  else consider targets threshold best source candidate = best.
Proof.
  intros Hne Hbest. unfold clears, FuzzyMatcher.consider.
  destruct (truthy (_normalize_text candidate)); simpl; [|reflexivity].
  set (q := _normalize_text candidate).
  destruct targets as [|[k v] rest]; [congruence|].
  destruct (@extractOne_best q k (map fst rest))
    as (c & s & Hone & Hin & Hs & Hall).
  change (k :: map fst rest) with (map fst ((k, v) :: rest)) in *.
  rewrite Hone.
  destruct (s <? threshold)%float eqn:E.
  - replace (existsb _ _) with false; [reflexivity|].
    symmetry. apply not_true_is_false. intros Hex.
    apply existsb_exists in Hex. destruct Hex as (t & Ht & Hge).
    apply negb_true_iff in Hge.
    rewrite (leb_ltb_trans (Hall t Ht) E) in Hge. discriminate.
  - replace (existsb _ _) with true.
    2: { symmetry. apply existsb_exists. exists c. split; [exact Hin|].
         rewrite <- Hs, E. reflexivity. }
    assert (Hge : (threshold <=? s)%float = true).
    { apply ltb_false_leb; auto. subst s. apply ratio_is_number. }
    destruct best as [b|].
    + destruct (FuzzyResult.score b <? s)%float.
      * eexists. split; [reflexivity | exact Hge].
      * exists b. split; [reflexivity | now apply Hbest].
    + eexists. split; [reflexivity | exact Hge].
Qed.

(** The candidate has no score at or above the threshold: it is not
    scored at all (its normalized text is empty), or it scores below
    the threshold against every target. *)
Definition scores_below (targets : list (str * str))
           (candidate : option str) : Prop :=
  _normalize_text candidate <> [] ->
  forall t, In t (map fst targets) ->
            (token_set_ratio (_normalize_text candidate) t
             <? threshold)%float = true.

Lemma clears_false targets candidate :
  clears targets candidate = false <-> scores_below targets candidate.
Proof.
  unfold clears, scores_below. split.
  - intros H Hq t Ht. apply truthy_true in Hq. rewrite Hq in H.
    simpl in H.
    destruct (_ <? threshold)%float eqn:E; [reflexivity|].
    exfalso. apply not_true_iff_false in H. apply H.
    apply existsb_exists. exists t. split; [exact Ht|]. now rewrite E.
  - intros H. destruct (truthy _) eqn:Eq; [|reflexivity]. simpl.
    apply not_true_is_false. intros Hex.
    apply existsb_exists in Hex. destruct Hex as (t & Ht & Hge).
    apply truthy_true in Eq.
    rewrite (H Eq t Ht) in Hge. discriminate.
Qed.

(** C5. [find_best_fuzzy_match] returns none whenever the title and the
    brand both score below the threshold against every target (a
    candidate whose normalized text is empty is not scored), and
    otherwise returns a result whose score is at least the
    threshold. *)
Theorem find_best_fuzzy_match_threshold
        (base_search_text title brand : option str) :
  let targets := _build_fuzzy_targets (or_empty base_search_text) in
  (scores_below targets title /\ scores_below targets brand ->
   find_best_fuzzy_match base_search_text title brand threshold = None)
  /\ (~ (scores_below targets title /\ scores_below targets brand) ->
      exists r,
        find_best_fuzzy_match base_search_text title brand threshold
          = Some r /\
        (threshold <=? FuzzyResult.score r)%float = true).
Proof.
  intros targets.
  assert (Hnone : at_least_threshold None) by (intros r [=]).
  assert (Hfind :
    find_best_fuzzy_match base_search_text title brand threshold =
    match targets with
    | [] => None
    | _ => consider targets threshold
                    (consider targets threshold None (u "title") title)
                    (u "brand") brand
    end).
  { unfold FuzzyMatcher.find_best_fuzzy_match, targets.
    destruct base_search_text as [[|c b]|]; try reflexivity. }
  rewrite Hfind. rewrite <- !clears_false.
  clear Hfind. clearbody targets.
  destruct targets as [|t0 rest].
  - split; [reflexivity|]. intros H. exfalso. apply H.
    unfold clears. simpl. now rewrite !andb_false_r.
  - set (targets := t0 :: rest).
    assert (Hne : targets <> []) by discriminate.
    pose proof (@consider_clears targets None (u "title") title
                                 Hne Hnone) as Ht.
    destruct (clears targets title) eqn:Ct.
    + destruct Ht as (r & -> & Hr).
      assert (Hb : at_least_threshold (Some r)) by (intros ? [= <-]; auto).
      pose proof (@consider_clears targets (Some r) (u "brand") brand
                                   Hne Hb) as Hbr.
      split; [intros [H _]; discriminate|]. intros _.
      destruct (clears targets brand).
      * exact Hbr.
      * rewrite Hbr. eauto.
    + rewrite Ht.
      pose proof (@consider_clears targets None (u "brand") brand
                                   Hne Hnone) as Hbr.
      destruct (clears targets brand).
      * split; [intros [_ H]; discriminate | intros _; exact Hbr].
      * split; [intros _; exact Hbr|]. intros H. exfalso. now apply H.
Qed.
End Matching.

(** ** Normalization *)

Definition ascii_text (s : str) : Prop :=
  Forall (fun c => is_ascii c = true) s.

(** The separators that [_normalize_text] turns into blanks. *)
Definition separator (c : N) : bool :=
  ((c =? 45) || (c =? 95) || (c =? 38) || (c =? 39))%N.

Definition is_upper (c : N) : bool := ((65 <=? c) && (c <=? 90))%N.

(** A character of a normalized token: ASCII, and neither a blank, nor a
    separator, nor an upper-case letter. *)
Definition plain (c : N) : bool :=
  is_ascii c && negb (isspace c) && negb (separator c) && negb (is_upper c).

Definition token (t : str) : Prop :=
  t <> [] /\ Forall (fun c => plain c = true) t.

Definition blank_separators (s : str) : str :=
  map (fun c => if separator c then 32%N else c) s.

Lemma replace_separators s :
  replace (u "'") (u " ")
    (replace (u "&") (u " ")
       (replace (u "_") (u " ") (replace (u "-") (u " ") s)))
  = blank_separators s.
Proof.
  change (u "'") with [39%N]. change (u "&") with [38%N].
  change (u "_") with [95%N]. change (u "-") with [45%N].
  change (u " ") with [32%N].
  rewrite !replace_char, !map_map. apply map_ext. intros c.
  unfold separator.
  destruct (N.eqb_spec c 45) as [->|H1]; [reflexivity|].
  destruct (N.eqb_spec c 95) as [->|H2]; [reflexivity|].
  destruct (N.eqb_spec c 38) as [->|H3]; [reflexivity|].
  destruct (N.eqb_spec c 39) as [->|H4]; reflexivity.
Qed.

Lemma ascii_below c : is_ascii c = true -> In c (map N.of_nat (seq 0 128)).
Proof.
  unfold is_ascii. intros H. apply N.ltb_lt in H.
  apply in_map_iff. exists (N.to_nat c). split; [apply N2Nat.id|].
  apply in_seq. lia.
Qed.

(** A property of the 128 ASCII characters that holds by inspection. *)
Lemma ascii_forall (P : N -> bool) :
  forallb P (map N.of_nat (seq 0 128)) = true ->
  forall c, is_ascii c = true -> P c = true.
Proof.
  intros H c Hc. rewrite forallb_forall in H. now apply H, ascii_below.
Qed.

Lemma lowered_plain c :
  is_ascii c = true ->
  isspace (ascii_lower (if separator c then 32%N else c)) = false ->
  plain (ascii_lower (if separator c then 32%N else c)) = true.
Proof.
  intros Hc.
  apply (@ascii_forall
           (fun c =>
              let d := ascii_lower (if separator c then 32%N else c) in
              isspace d || plain d)) in Hc; [|vm_compute; reflexivity].
  simpl in Hc. intros Hs. now rewrite Hs in Hc.
Qed.

Lemma plain_facts c :
  plain c = true ->
  is_ascii c = true /\ isspace c = false /\ separator c = false
  /\ ascii_lower c = c.
Proof.
  unfold plain. rewrite !andb_true_iff, !negb_true_iff.
  intros [[[H1 H2] H3] H4]. repeat split; auto.
  unfold ascii_lower. unfold is_upper in H4. now rewrite H4.
Qed.

Lemma token_word t : token t -> word t.
Proof.
  intros [Hne Hall]. split; [exact Hne|].
  eapply Forall_impl; [|exact Hall]. intros c Hc.
  now apply plain_facts in Hc.
Qed.

Section Normalize.
Variable transliterate : N -> str.
Variable lower : str -> str.

Hypothesis transliterate_ascii : forall c, ascii_text (transliterate c).
Hypothesis lower_ascii :
  forall s, ascii_text s -> lower s = map ascii_lower s.

Abbreviation unidecode := (unidecode transliterate).
Abbreviation _normalize_text := (_normalize_text transliterate lower).

Lemma unidecode_ascii s : ascii_text (unidecode s).
Proof.
  unfold ascii_text, FuzzyMatcher.unidecode.
  induction s as [|c s IH]; simpl; [constructor|].
  apply Forall_app. split; [|exact IH].
  destruct (is_ascii c) eqn:E; [now repeat constructor|].
  apply transliterate_ascii.
Qed.

Lemma unidecode_id s : ascii_text s -> unidecode s = s.
Proof.
  unfold FuzzyMatcher.unidecode.
  induction 1 as [|c s Hc Hs IH]; simpl; [reflexivity|].
  now rewrite Hc, IH.
Qed.

Lemma blank_separators_ascii s :
  ascii_text s -> ascii_text (blank_separators s).
Proof.
  unfold ascii_text, blank_separators. intros H.
  apply Forall_map. eapply Forall_impl; [|exact H].
  intros c Hc. now destruct (separator c).
Qed.

(** The text of which [_normalize_text] takes the words. *)
Definition folded (text : str) : str :=
  map ascii_lower (blank_separators (unidecode text)).

Lemma normalize_words text :
  _normalize_text (Some text) = join space (split (folded text)).
Proof.
  unfold FuzzyMatcher._normalize_text, folded.
  destruct text as [|c text]; [reflexivity|].
  rewrite replace_separators.
  now rewrite lower_ascii
    by apply blank_separators_ascii, unidecode_ascii.
Qed.

Lemma folded_tokens text : Forall token (split (folded text)).
Proof.
  eapply Forall_impl; [|apply split_words].
  intros t [[Hne Hsp] Hin]. split; [exact Hne|].
  unfold spaceless in Hsp. rewrite Forall_forall in *.
  intros c Hc. pose proof (Hsp c Hc) as Hs.
  apply Hin in Hc. unfold folded, blank_separators in Hc.
  rewrite map_map in Hc. apply in_map_iff in Hc.
  destruct Hc as (d & <- & Hd).
  apply lowered_plain; [|exact Hs].
  pose proof (unidecode_ascii text) as Ha.
  unfold ascii_text in Ha. rewrite Forall_forall in Ha. now apply Ha.
Qed.

Lemma join_tokens_chars ts c :
  Forall token ts -> In c (join space ts) -> c = 32%N \/ plain c = true.
Proof.
  intros Hts Hc. apply join_In in Hc.
  destruct Hc as [->|(t & Ht & Hc)]; [now left|]. right.
  rewrite Forall_forall in Hts. destruct (Hts t Ht) as [_ Hall].
  rewrite Forall_forall in Hall. now apply Hall.
Qed.

(** A text made of tokens joined by single blanks is its own
    normalized form, and has nothing to strip. *)
Lemma normalize_joined t ts :
  Forall token (t :: ts) ->
  _normalize_text (Some (join space (t :: ts))) = join space (t :: ts)
  /\ strip (join space (t :: ts)) = join space (t :: ts).
Proof.
  intros Hts.
  assert (Hw : Forall word (t :: ts))
    by (eapply Forall_impl; [|exact Hts]; apply token_word).
  split; [|now apply strip_join].
  rewrite normalize_words. f_equal.
  set (v := join space (t :: ts)).
  assert (Hv : forall c, In c v -> c = 32%N \/ plain c = true)
    by (intros c; now apply join_tokens_chars).
  assert (Hfold : folded v = v).
  { unfold folded.
    rewrite unidecode_id.
    2: { unfold ascii_text. apply Forall_forall. intros c Hc.
         destruct (Hv c Hc) as [->|Hp]; [reflexivity|].
         now apply plain_facts in Hp. }
    unfold blank_separators. rewrite map_map.
    rewrite <- (map_id v) at 2. apply map_ext_in.
    intros c Hc. destruct (Hv c Hc) as [->|Hp]; [reflexivity|].
    apply plain_facts in Hp. destruct Hp as (_ & _ & Hsep & Hlow).
    now rewrite Hsep. }
  rewrite Hfold. now apply split_join.
Qed.
End Normalize.

(** ** Word variants *)

Lemma In_firstn (A : Type) n (l : list A) x : In x (firstn n l) -> In x l.
Proof.
  intros H. rewrite <- (firstn_skipn n l). apply in_or_app. now left.
Qed.

Lemma In_skipn (A : Type) n (l : list A) x : In x (skipn n l) -> In x l.
Proof.
  intros H. rewrite <- (firstn_skipn n l). apply in_or_app. now right.
Qed.

Lemma char_at_In word idx : idx < length word -> In (char_at word idx) word.
Proof. intros H. now apply nth_In. Qed.

Lemma dedupe_variants_chars word v c :
  In v (dedupe_variants word) -> In c v -> In c word.
Proof.
  unfold dedupe_variants. intros Hv Hc.
  apply in_flat_map in Hv. destruct Hv as (idx & _ & Hv).
  destruct (_ =? _)%N; [|destruct Hv].
  destruct Hv as [<-|[]].
  apply in_app_or in Hc. destruct Hc; eauto using In_firstn, In_skipn.
Qed.

Lemma swap_variants_chars word v c :
  In v (swap_variants word) -> In c v -> In c word.
Proof.
  unfold swap_variants. intros Hv Hc.
  apply in_flat_map in Hv. destruct Hv as (idx & Hidx & Hv).
  apply in_seq in Hidx.
  destruct (negb _); [|destruct Hv].
  destruct Hv as [<-|[]].
  repeat (apply in_app_or in Hc; destruct Hc as [Hc|Hc]);
    eauto using In_firstn, In_skipn.
  - destruct Hc as [<-|[]]. apply char_at_In. lia.
  - destruct Hc as [<-|[]]. apply char_at_In. lia.
Qed.

Lemma replacements_plain pattern r c :
  In r (replacements_of pattern) -> In c r -> plain c = true.
Proof.
  unfold replacements_of.
  destruct (find _ WORD_SUBSTITUTIONS) as [kv|] eqn:E; [|intros []].
  apply find_some in E. destruct E as [Hkv _].
  assert (Htable : forallb (fun kv => forallb (forallb plain) (snd kv))
                           WORD_SUBSTITUTIONS = true)
    by (vm_compute; reflexivity).
  rewrite forallb_forall in Htable. specialize (Htable kv Hkv).
  rewrite forallb_forall in Htable. intros Hr Hc.
  specialize (Htable r Hr). rewrite forallb_forall in Htable. auto.
Qed.

Lemma substitution_variants_chars word v c :
  In v (substitution_variants word) -> In c v ->
  In c word \/ plain c = true.
Proof.
  unfold substitution_variants. intros Hv Hc.
  apply in_flat_map in Hv. destruct Hv as (pattern & _ & Hv).
  apply in_flat_map in Hv. destruct Hv as (found & _ & Hv).
  apply in_map_iff in Hv. destruct Hv as (r & <- & Hr).
  repeat (apply in_app_or in Hc; destruct Hc as [Hc|Hc]);
    eauto using In_firstn, In_skipn, replacements_plain.
Qed.

Lemma NoDup_snoc (A : Type) (l : list A) x :
  NoDup l -> ~ In x l -> NoDup (l ++ [x]).
Proof.
  intros Hl Hx.
  apply (Permutation_NoDup (Permutation_cons_append l x)).
  now constructor.
Qed.

Lemma set_token_tokens tokens idx candidate :
  Forall token tokens -> token candidate ->
  Forall token (set_token tokens idx candidate).
Proof.
  revert idx. induction tokens as [|t tokens IH]; intros idx Hts Hc;
    simpl; [constructor|].
  inversion Hts; subst. destruct idx; constructor; auto.
Qed.

Lemma set_token_nonempty tokens idx candidate :
  tokens <> [] -> set_token tokens idx candidate <> [].
Proof. destruct tokens, idx; simpl; congruence. Qed.

(** ** The search for variants *)

Section Expansion.
Variable transliterate : N -> str.
Variable lower : str -> str.
Variable set_iter : list str -> list str.

(** The entries of the transliteration table are ASCII. *)
Hypothesis transliterate_ascii : forall c, ascii_text (transliterate c).
(** On ASCII text, [str.lower] changes the letters [A-Z] only. *)
Hypothesis lower_ascii :
  forall s, ascii_text s -> lower s = map ascii_lower s.
(** Lower-casing puts no blank at either end of a trimmed text. *)
Hypothesis lower_stripped :
  forall s, strip s = s -> strip (lower s) = lower s.
(** Iterating over a set yields strings that were added to it. *)
Hypothesis set_iter_members :
  forall l x, In x (set_iter l) -> In x l.

Abbreviation unidecode := (unidecode transliterate).
Abbreviation _normalize_text := (_normalize_text transliterate lower).
Abbreviation _generate_word_variants := (_generate_word_variants set_iter).
Abbreviation add_variant := (add_variant transliterate lower).
Abbreviation candidates_loop :=
  (candidates_loop transliterate lower).
Abbreviation tokens_loop :=
  (tokens_loop transliterate lower set_iter).
Abbreviation queue_loop :=
  (queue_loop transliterate lower set_iter).
Abbreviation collect_variants :=
  (collect_variants transliterate lower set_iter).
Abbreviation _expand_search_text_variants :=
  (_expand_search_text_variants transliterate lower set_iter).

Lemma word_variants_tokens word :
  token word -> Forall token (_generate_word_variants word).
Proof.
  intros [Hne Hplain]. unfold FuzzyMatcher._generate_word_variants.
  destruct word as [|x word]; [congruence|].
  set (w := x :: word) in *.
  apply Forall_forall. intros v Hv.
  apply filter_In in Hv. destruct Hv as [Hv Hkeep].
  apply andb_true_iff in Hkeep. destruct Hkeep as [Htruthy _].
  split; [now apply truthy_true|].
  apply set_iter_members in Hv.
  rewrite Forall_forall in *. intros c Hc.
  apply in_app_or in Hv. destruct Hv as [Hv|Hv];
    [|apply in_app_or in Hv; destruct Hv as [Hv|Hv]].
  - eauto using dedupe_variants_chars.
  - eauto using swap_variants_chars.
  - destruct (substitution_variants_chars _ _ _ Hv Hc); auto.
Qed.

(** *** What the [collected] dictionary holds *)

Variable base : str.

(** An entry maps a non-empty key to a value that normalizes to the
    key; the value is the phrase, its lower-cased form, or the key
    itself. *)
Definition entry_ok (kv : str * str) : Prop :=
  fst kv <> [] /\
  _normalize_text (Some (snd kv)) = fst kv /\
  (snd kv = base \/ snd kv = lower base \/ snd kv = fst kv).

Definition collected_ok (d : list (str * str)) : Prop :=
  NoDup (map fst d) /\ Forall entry_ok d.

Lemma has_key_false key d :
  has_key key d = false -> ~ In key (map fst d).
Proof.
  unfold has_key. intros H Hin.
  apply in_map_iff in Hin. destruct Hin as (kv & <- & Hkv).
  apply not_true_iff_false in H. apply H.
  apply existsb_exists. exists kv. split; [exact Hkv|].
  apply str_eqb_refl.
Qed.

Lemma add_variant_ok d value :
  collected_ok d ->
  _normalize_text (Some (strip value)) = _normalize_text (Some value) ->
  (strip value = base \/ strip value = lower base
   \/ strip value = _normalize_text (Some value)) ->
  collected_ok (add_variant d value).
Proof.
  intros [Hnd Hall] Hnorm Hclass. unfold FuzzyMatcher.add_variant.
  destruct (truthy (_normalize_text (Some value))) eqn:Et;
    simpl; [|now split].
  destruct (has_key _ d) eqn:Eh; [now split|].
  split.
  - rewrite map_app. simpl.
    apply NoDup_snoc; [exact Hnd | now apply has_key_false].
  - apply Forall_app. split; [exact Hall|].
    constructor; [|constructor].
    split; [now apply truthy_true|]. simpl. auto.
Qed.

Lemma add_variant_keeps d value e : In e d -> In e (add_variant d value).
Proof.
  intros H. unfold FuzzyMatcher.add_variant.
  destruct (_ || _); [exact H|]. apply in_or_app. now left.
Qed.

(** The invariant of the search: the dictionary is well formed and
    every queued token sequence is a non-empty list of tokens. *)
Definition search_ok (st : search) : Prop :=
  collected_ok (collected st) /\
  Forall (fun q => fst q <> [] /\ Forall token (fst q)) (queue st).

Lemma add_joined_ok d tokens :
  tokens <> [] -> Forall token tokens -> collected_ok d ->
  collected_ok (add_variant d (join space tokens)).
Proof.
  intros Hne Hts Hd. destruct tokens as [|t ts]; [congruence|].
  destruct (@normalize_joined transliterate lower transliterate_ascii
                              lower_ascii t ts Hts) as [Hn Hs].
  apply add_variant_ok; [exact Hd | now rewrite Hs |].
  right. right. now rewrite Hs, Hn.
Qed.

Lemma candidates_loop_ok tokens idx depth candidates st :
  tokens <> [] -> Forall token tokens -> Forall token candidates ->
  search_ok st -> search_ok (candidates_loop tokens idx depth candidates st).
Proof.
  intros Hne Hts. revert st.
  induction candidates as [|candidate rest IH]; intros st Hcs Hst;
    simpl; [exact Hst|].
  inversion Hcs as [|? ? Hc Hrest]; subst.
  destruct (existsb _ (seen_sequences st)); [now apply IH|].
  destruct Hst as [Hd Hq].
  assert (Hnew : Forall token (set_token tokens idx candidate))
    by now apply set_token_tokens.
  assert (Hnn : set_token tokens idx candidate <> [])
    by now apply set_token_nonempty.
  assert (Hd' : collected_ok
                  (add_variant (collected st)
                     (join (u " ") (set_token tokens idx candidate))))
    by now apply add_joined_ok.
  destruct (guard_reached _); [now split|].
  apply IH; [exact Hrest|].
  destruct (depth <? 1); simpl; split; auto.
  apply Forall_app. split; [exact Hq|]. repeat constructor; auto.
Qed.

Lemma candidates_loop_keeps tokens idx depth candidates st e :
  In e (collected st) ->
  In e (collected (candidates_loop tokens idx depth candidates st)).
Proof.
  revert st. induction candidates as [|candidate rest IH]; intros st He;
    simpl; [exact He|].
  destruct (existsb _ (seen_sequences st)); [now apply IH|].
  destruct (guard_reached _); simpl; [now apply add_variant_keeps|].
  apply IH. destruct (depth <? 1); simpl; now apply add_variant_keeps.
Qed.

Lemma tokens_loop_ok tokens depth remaining st :
  tokens <> [] -> Forall token tokens ->
  Forall (fun p => token (snd p)) remaining ->
  search_ok st -> search_ok (tokens_loop tokens depth remaining st).
Proof.
  intros Hne Hts. revert st.
  induction remaining as [|[idx t] rest IH]; intros st Hrem Hst;
    simpl; [exact Hst|].
  inversion Hrem as [|? ? Ht Hrest]; subst. simpl in Ht.
  assert (Hst' : search_ok
                   (candidates_loop tokens idx depth
                                    (_generate_word_variants t) st))
    by (apply candidates_loop_ok; auto using word_variants_tokens).
  destruct (guard_reached _); [exact Hst' | now apply IH].
Qed.

Lemma tokens_loop_keeps tokens depth remaining st e :
  In e (collected st) ->
  In e (collected (tokens_loop tokens depth remaining st)).
Proof.
  revert st. induction remaining as [|[idx t] rest IH]; intros st He;
    simpl; [exact He|].
  destruct (guard_reached _); [|apply IH];
    now apply candidates_loop_keeps.
Qed.

Lemma enumerate_tokens tokens :
  Forall token tokens -> Forall (fun p => token (snd p)) (enumerate tokens).
Proof.
  intros H. unfold enumerate. apply Forall_forall. intros [i t] Hin.
  apply in_combine_r in Hin. rewrite Forall_forall in H. now apply H.
Qed.

Lemma queue_loop_ok fuel st st' :
  search_ok st -> queue_loop fuel st = Some st' -> search_ok st'.
Proof.
  revert st. induction fuel as [|fuel IH]; intros st Hst; simpl.
  - destruct (queue st) as [|[tokens depth] rest] eqn:E; [|discriminate].
    now intros [= <-].
  - destruct (queue st) as [|[tokens depth] rest] eqn:E;
      [now intros [= <-]|].
    destruct Hst as [Hd Hq]. rewrite E in Hq.
    inversion Hq as [|? ? [Hne Hts] Hrest]; subst. simpl in *.
    assert (Hst1 : search_ok
                     (tokens_loop tokens depth (enumerate tokens)
                        (mk_search (seen_sequences st) (collected st)
                                   rest))).
    { apply tokens_loop_ok; auto using enumerate_tokens. now split. }
    destruct (guard_reached _); [now intros [= <-] | now apply IH].
Qed.

Lemma queue_loop_keeps fuel st st' e :
  queue_loop fuel st = Some st' ->
  In e (collected st) -> In e (collected st').
Proof.
  revert st. induction fuel as [|fuel IH]; intros st; simpl.
  - destruct (queue st) as [|[tokens depth] rest]; [|discriminate].
    now intros [= <-].
  - destruct (queue st) as [|[tokens depth] rest]; [now intros [= <-]|].
    intros H He.
    assert (He1 : In e (collected
                          (tokens_loop tokens depth (enumerate tokens)
                             (mk_search (seen_sequences st) (collected st)
                                        rest))))
      by now apply tokens_loop_keeps.
    destruct (guard_reached _); [now injection H as <- | eauto].
Qed.

(** *** The queue loop ends within its fuel *)

(** [after] is [before] with at most [bound] entries appended, all at
    depth [depth + 1]. *)
Definition grows_by (bound depth : nat)
           (before after : list (list str * nat)) : Prop :=
  exists added,
    after = before ++ added /\ length added <= bound /\
    Forall (fun q => snd q = S depth) added.

Lemma grows_by_refl bound depth q : grows_by bound depth q q.
Proof.
  exists []. rewrite app_nil_r. repeat split; [simpl; lia | constructor].
Qed.

Lemma grows_by_trans b1 b2 bound depth q0 q1 q2 :
  grows_by b1 depth q0 q1 -> grows_by b2 depth q1 q2 ->
  b1 + b2 <= bound -> grows_by bound depth q0 q2.
Proof.
  intros (a1 & -> & L1 & F1) (a2 & -> & L2 & F2) Hb.
  exists (a1 ++ a2). rewrite app_assoc, length_app.
  repeat split; [lia | now apply Forall_app].
Qed.

Definition can_chain (depth : nat) (n : nat) : nat :=
  if depth <? 1 then n else 0.

Lemma candidates_loop_queue tokens idx depth candidates st :
  grows_by (can_chain depth (length candidates)) depth
           (queue st)
           (queue (candidates_loop tokens idx depth candidates st)).
Proof.
  revert st. induction candidates as [|candidate rest IH]; intros st;
    simpl; [apply grows_by_refl|].
  assert (Hmono : can_chain depth (length rest)
                  <= can_chain depth (S (length rest)))
    by (unfold can_chain; destruct (depth <? 1); lia).
  destruct (existsb _ (seen_sequences st)).
  { eapply grows_by_trans with (b1 := 0);
      [apply grows_by_refl | apply IH | exact Hmono]. }
  destruct (guard_reached _); [apply grows_by_refl|].
  unfold can_chain in *. destruct (depth <? 1) eqn:Ed.
  - eapply grows_by_trans with (b1 := 1); [|apply IH|simpl; lia].
    eexists. split; [reflexivity|]. split; [simpl; lia|].
    repeat constructor.
  - eapply grows_by_trans with (b1 := 0); [|apply IH|simpl; lia].
    apply grows_by_refl.
Qed.

Definition candidates_of (remaining : list (nat * str)) : nat :=
  list_sum (map (fun p => length (_generate_word_variants (snd p)))
                remaining).

Lemma tokens_loop_queue tokens depth remaining st :
  grows_by (can_chain depth (candidates_of remaining)) depth
           (queue st)
           (queue (tokens_loop tokens depth remaining st)).
Proof.
  revert st. induction remaining as [|[idx t] rest IH]; intros st;
    simpl; [apply grows_by_refl|].
  pose proof (candidates_loop_queue tokens idx depth
                                    (_generate_word_variants t) st) as H1.
  assert (Hsum : can_chain depth (length (_generate_word_variants t))
                 + can_chain depth (candidates_of rest)
                 <= can_chain depth (candidates_of ((idx, t) :: rest))).
  { unfold can_chain, candidates_of. simpl.
    destruct (depth <? 1); lia. }
  destruct (guard_reached _).
  - eapply grows_by_trans with (b2 := 0);
      [exact H1 | apply grows_by_refl | lia].
  - eapply grows_by_trans; [exact H1 | apply IH | exact Hsum].
Qed.

Lemma map_snd_enumerate (l : list str) a :
  map snd (combine (seq a (length l)) l) = l.
Proof.
  revert a. induction l as [|x l IH]; intros a; simpl; [reflexivity|].
  now rewrite IH.
Qed.

Lemma candidates_of_enumerate tokens :
  candidates_of (enumerate tokens)
  = candidate_count set_iter tokens.
Proof.
  unfold candidates_of, candidate_count, enumerate.
  rewrite <- (map_snd_enumerate tokens 0) at 3.
  now rewrite map_map.
Qed.

(** What a queue still costs: one iteration per entry, and for an entry
    that may chain, one more per candidate it can enqueue. *)
Definition weight (q : list (list str * nat)) : nat :=
  list_sum (map (fun item =>
                   if snd item <? 1
                   then 2 + candidate_count set_iter (fst item)
                   else 1) q).

Lemma weight_app q1 q2 : weight (q1 ++ q2) = weight q1 + weight q2.
Proof. unfold weight. now rewrite map_app, list_sum_app. Qed.

Lemma weight_cons item q :
  weight (item :: q)
  = (if snd item <? 1
     then 2 + candidate_count set_iter (fst item) else 1) + weight q.
Proof. reflexivity. Qed.

Lemma weight_chained depth added :
  Forall (fun q : list str * nat => snd q = S depth) added ->
  weight added = length added.
Proof.
  induction 1 as [|[ts d] added Hd Hall IH]; [reflexivity|].
  simpl in Hd. subst d. rewrite weight_cons, IH. reflexivity.
Qed.

Lemma queue_loop_total fuel st :
  weight (queue st) <= fuel -> exists st', queue_loop fuel st = Some st'.
Proof.
  revert st. induction fuel as [|fuel IH]; intros st Hw; simpl.
  - destruct (queue st) as [|[tokens depth] rest]; [eauto|].
    rewrite weight_cons in Hw. simpl in Hw. destruct (depth <? 1); lia.
  - destruct (queue st) as [|[tokens depth] rest] eqn:E; [eauto|].
    set (st0 := mk_search (seen_sequences st) (collected st) rest).
    destruct (guard_reached _); [eauto|].
    apply IH.
    destruct (tokens_loop_queue tokens depth (enumerate tokens) st0)
      as (added & -> & Hlen & Hall).
    rewrite candidates_of_enumerate in Hlen.
    rewrite weight_app, (weight_chained Hall).
    change (queue st0) with rest.
    rewrite weight_cons in Hw. cbn [fst snd] in Hw.
    unfold can_chain in Hlen.
    destruct (depth <? 1); lia.
Qed.

(** *** The seeds, and the dictionary as a whole *)

Lemma normalize_unidecode text :
  _normalize_text (Some (unidecode text)) = _normalize_text (Some text).
Proof.
  rewrite !(normalize_words transliterate lower transliterate_ascii
                           lower_ascii).
  unfold folded.
  now rewrite (unidecode_id transliterate
                 (unidecode_ascii transliterate transliterate_ascii text)).
Qed.

Lemma has_key_true key value d : In (key, value) d -> has_key key d = true.
Proof.
  intros H. unfold has_key. apply existsb_exists.
  exists (key, value). split; [exact H | apply str_eqb_refl].
Qed.

Hypothesis base_stripped : strip base = base.

Definition seeds : list (str * str) :=
  add_variant (add_variant (add_variant [] base) (lower base))
              (unidecode base).

Lemma seeds_ok :
  collected_ok seeds /\
  (_normalize_text (Some base) <> [] ->
   In (_normalize_text (Some base), base) seeds).
Proof.
  assert (H0 : collected_ok []) by (split; constructor).
  assert (H1 : collected_ok (add_variant [] base)).
  { apply add_variant_ok; [exact H0 | now rewrite base_stripped |].
    now left. }
  assert (H2 : collected_ok (add_variant (add_variant [] base)
                                         (lower base))).
  { apply add_variant_ok; [exact H1 | |].
    - now rewrite (lower_stripped base_stripped).
    - right. left. apply (lower_stripped base_stripped). }
  assert (Hin : _normalize_text (Some base) <> [] ->
                In (_normalize_text (Some base), base)
                   (add_variant (add_variant [] base) (lower base))).
  { intros Hne. apply add_variant_keeps.
    unfold FuzzyMatcher.add_variant at 1.
    apply truthy_true in Hne. rewrite Hne. simpl.
    rewrite base_stripped. now left. }
  assert (E : seeds = add_variant (add_variant [] base) (lower base)).
  { unfold seeds. unfold FuzzyMatcher.add_variant at 1.
    rewrite normalize_unidecode.
    destruct (truthy (_normalize_text (Some base))) eqn:Et;
      [|reflexivity].
    apply truthy_true in Et.
    now rewrite (has_key_true _ _ _ (Hin Et)). }
  rewrite E. split; assumption.
Qed.

Lemma normalized_tokens :
  split (_normalize_text (Some base)) = split (folded transliterate base).
Proof.
  rewrite (normalize_words transliterate lower transliterate_ascii
                          lower_ascii).
  apply split_join.
  eapply Forall_impl;
    [|apply (folded_tokens transliterate transliterate_ascii)].
  apply token_word.
Qed.

(** [collect_variants] returns a well-formed dictionary that holds the
    phrase under its normalized key. *)
Lemma collect_variants_ok :
  exists d,
    collect_variants base = Some d /\ collected_ok d /\
    (_normalize_text (Some base) <> [] ->
     In (_normalize_text (Some base), base) d).
Proof.
  destruct seeds_ok as [Hs Hin].
  unfold FuzzyMatcher.collect_variants. fold seeds.
  destruct (split (_normalize_text (Some base))) as [|t ts] eqn:Et.
  { exists seeds. auto. }
  rewrite <- Et.
  set (tokens := split (_normalize_text (Some base))).
  set (st := mk_search [join (u " ") tokens] seeds [(tokens, 0)]).
  destruct (@queue_loop_total (2 + candidate_count set_iter tokens) st)
    as [st' Hloop].
  { unfold weight, st. simpl. lia. }
  rewrite Hloop. simpl. exists (collected st').
  split; [reflexivity|].
  assert (Hst : search_ok st).
  { split; [exact Hs|]. repeat constructor; simpl.
    - unfold tokens. rewrite Et. discriminate.
    - unfold tokens. rewrite normalized_tokens.
      apply (folded_tokens transliterate transliterate_ascii). }
  split.
  - assert (Hok : search_ok st') by (eapply queue_loop_ok; eauto).
    now destruct Hok.
  - intros Hne. eapply queue_loop_keeps; [exact Hloop|]. now apply Hin.
Qed.
End Expansion.

(** ** The ranking *)

Lemma scored_ltb_asym a b : scored_ltb a b = true -> scored_ltb b a = false.
Proof.
  unfold scored_ltb. destruct a as [d v], b as [e w]. simpl.
  destruct (Nat.ltb_spec d e), (Nat.ltb_spec e d), (Nat.eqb_spec d e),
           (Nat.eqb_spec e d); simpl; try lia; try congruence.
  apply str_ltb_asym.
Qed.

Lemma scored_le_trans a b c :
  le scored_ltb a b -> le scored_ltb b c -> le scored_ltb a c.
Proof.
  unfold le, scored_ltb. destruct a as [d v], b as [e w], c as [f x]. simpl.
  destruct (Nat.ltb_spec e d), (Nat.ltb_spec f e), (Nat.ltb_spec f d),
           (Nat.eqb_spec e d), (Nat.eqb_spec f e), (Nat.eqb_spec f d);
    simpl; try lia; try congruence.
  intros Hvw Hwx. now apply str_ltb_negtrans with w.
Qed.

Lemma scored_sorted l : StronglySorted (le scored_ltb) (sorted scored_ltb l).
Proof.
  apply sorted_sorted; [apply scored_ltb_asym | apply scored_le_trans].
Qed.

Lemma scored_le_spec a b :
  le scored_ltb a b ->
  fst a < fst b \/ (fst a = fst b /\ str_ltb (snd b) (snd a) = false).
Proof.
  unfold le, scored_ltb. destruct a as [d v], b as [e w]. simpl.
  destruct (Nat.ltb_spec e d), (Nat.eqb_spec e d); simpl;
    try congruence; intros Hle; lia || (right; split; [lia | exact Hle]).
Qed.

(** An element that is below every other one comes first. *)
Lemma sorted_least (m : nat * str) l :
  In m l -> (forall x, In x l -> x = m \/ scored_ltb m x = true) ->
  exists rest, sorted scored_ltb l = m :: rest.
Proof.
  intros Hm Hleast.
  pose proof (scored_sorted l) as Hs.
  pose proof (sorted_perm scored_ltb l) as Hp.
  destruct (sorted scored_ltb l) as [|h rest].
  - apply Permutation_nil in Hp. subst. destruct Hm.
  - exists rest. f_equal.
    assert (Hh : In h l) by (apply (Permutation_in _ Hp); now left).
    destruct (Hleast h Hh) as [->|Hlt]; [reflexivity|].
    apply (Permutation_in _ (Permutation_sym Hp)) in Hm.
    destruct Hm as [->|Hm]; [reflexivity|].
    inversion Hs as [|? ? _ Hall]; subst.
    rewrite Forall_forall in Hall. specialize (Hall m Hm).
    unfold le in Hall. congruence.
Qed.

Lemma StronglySorted_weaken (A : Type) (R1 R2 : A -> A -> Prop) l :
  (forall a b, In a l -> In b l -> R1 a b -> R2 a b) ->
  StronglySorted R1 l -> StronglySorted R2 l.
Proof.
  intros H Hs. induction Hs as [|x l Hl IH Hx]; constructor.
  - apply IH. intros a b Ha Hb. apply H; now right.
  - rewrite Forall_forall in *. intros y Hy.
    apply H; [now left | now right | now apply Hx].
Qed.

Lemma unique_value (d : list (str * str)) k v w :
  NoDup (map fst d) -> In (k, v) d -> In (k, w) d -> v = w.
Proof.
  induction d as [|[k0 v0] d IH]; simpl; [intros _ []|].
  intros Hnd Hv Hw. inversion Hnd as [|? ? Hnotin Hnd']; subst.
  destruct Hv as [Ev|Hv], Hw as [Ew|Hw]; [congruence| | |auto].
  - exfalso. apply Hnotin. injection Ev as -> _.
    apply in_map_iff. now exists (k, w).
  - exfalso. apply Hnotin. injection Ew as -> _.
    apply in_map_iff. now exists (k, v).
Qed.

(** The distance that ranks a variant: from the normalized base phrase
    to the variant's normalized form. *)
Section Expand.
Variable transliterate : N -> str.
Variable lower : str -> str.
Variable set_iter : list str -> list str.

Hypothesis transliterate_ascii : forall c, ascii_text (transliterate c).
Hypothesis lower_ascii :
  forall s, ascii_text s -> lower s = map ascii_lower s.
Hypothesis lower_stripped :
  forall s, strip s = s -> strip (lower s) = lower s.
Hypothesis set_iter_members :
  forall l x, In x (set_iter l) -> In x l.

Abbreviation _normalize_text := (_normalize_text transliterate lower).
Abbreviation collect_variants :=
  (collect_variants transliterate lower set_iter).
Abbreviation _expand_search_text_variants :=
  (_expand_search_text_variants transliterate lower set_iter).

Definition rank_of (normalized_base : str) (variant : str) : nat :=
  Levenshtein.distance normalized_base (_normalize_text (Some variant)).

Definition scored (normalized_base : str) (d : list (str * str))
  : list (nat * str) :=
  map (fun kv => (Levenshtein.distance normalized_base (fst kv), snd kv)) d.

(** What the expansion returns for a phrase with something left after
    trimming: the five first values of the ranked dictionary. *)
Lemma expand_ranked search_text :
  strip search_text <> [] ->
  exists d,
    collected_ok transliterate lower (strip search_text) d /\
    (_normalize_text (Some (strip search_text)) <> [] ->
     In (_normalize_text (Some (strip search_text)), strip search_text) d)
    /\ _expand_search_text_variants (Some search_text)
       = Some (firstn MAX_VARIANTS
                 (map snd
                    (sorted scored_ltb
                       (scored (_normalize_text
                                  (Some (strip search_text))) d)))).
Proof.
  intros Hne.
  destruct (@collect_variants_ok
              transliterate lower set_iter transliterate_ascii
              lower_ascii lower_stripped set_iter_members
              (strip search_text) (strip_idem search_text))
    as (d & Hc & Hok & Hin).
  exists d. split; [exact Hok|]. split; [exact Hin|].
  unfold FuzzyMatcher._expand_search_text_variants.
  destruct (strip search_text) as [|c base] eqn:E; [congruence|].
  now rewrite Hc.
Qed.

Lemma expand_blank search_text :
  strip search_text = [] ->
  _expand_search_text_variants (Some search_text) = Some [].
Proof.
  intros E. unfold FuzzyMatcher._expand_search_text_variants.
  now rewrite E.
Qed.

Lemma scored_entries base d x :
  collected_ok transliterate lower base d ->
  In x (sorted scored_ltb (scored (_normalize_text (Some base)) d)) ->
  fst x = rank_of (_normalize_text (Some base)) (snd x) /\
  (snd x = base \/ snd x = lower base
   \/ _normalize_text (Some (snd x)) = snd x).
Proof.
  intros [_ Hall] Hx.
  apply (Permutation_in _ (sorted_perm scored_ltb _)) in Hx.
  unfold scored in Hx. apply in_map_iff in Hx.
  destruct Hx as (kv & <- & Hkv).
  rewrite Forall_forall in Hall.
  destruct (Hall kv Hkv) as (_ & Hn & Hclass). cbn [fst snd].
  split; [unfold rank_of; now rewrite Hn|].
  destruct Hclass as [H|[H|H]]; auto. right. right. now rewrite Hn, H.
Qed.

(** Ascending rank; at equal rank, ascending stored text. *)
Definition by_rank_then_text (normalized_base : str) (v w : str) : Prop :=
  rank_of normalized_base v < rank_of normalized_base w \/
  (rank_of normalized_base v = rank_of normalized_base w /\
   str_ltb w v = false).

(** C4, amended. The variants come in ascending Levenshtein distance
    between the normalized base phrase and the variant's normalized
    form, and variants at equal distance come in ascending code-point
    order of the returned texts themselves. Every returned text is
    its own normalized form, except the trimmed phrase and its
    lower-cased form, which are returned as they are. *)
Theorem expand_variants_ordered (search_text : str) :
  exists variants,
    _expand_search_text_variants (Some search_text) = Some variants /\
    StronglySorted
      (by_rank_then_text (_normalize_text (Some (strip search_text))))
      variants /\
    Forall (fun v => v = strip search_text
                     \/ v = lower (strip search_text)
                     \/ _normalize_text (Some v) = v)
           variants.
Proof.
  destruct (str_eq_dec (strip search_text) []) as [E|Hne].
  { exists []. rewrite (expand_blank _ E). repeat constructor. }
  destruct (expand_ranked search_text Hne) as (d & Hok & _ & ->).
  set (nb := _normalize_text (Some (strip search_text))).
  set (ranked := sorted scored_ltb (scored nb d)).
  assert (Hent : forall x, In x ranked ->
             fst x = rank_of nb (snd x) /\
             (snd x = strip search_text
              \/ snd x = lower (strip search_text)
              \/ _normalize_text (Some (snd x)) = snd x))
    by (intros x; now apply scored_entries).
  eexists. split; [reflexivity|]. split.
  - rewrite firstn_map. apply StronglySorted_map.
    apply StronglySorted_firstn.
    apply StronglySorted_weaken with (R1 := le scored_ltb);
      [|apply scored_sorted].
    intros a b Ha Hb Hle. apply scored_le_spec in Hle.
    unfold by_rank_then_text.
    destruct (Hent a Ha) as [<- _], (Hent b Hb) as [<- _]. exact Hle.
  - apply Forall_forall. intros v Hv.
    apply In_firstn in Hv. apply in_map_iff in Hv.
    destruct Hv as (x & <- & Hx). now apply Hent.
Qed.

(** The transliteration of a blank is blank (or empty). *)
Hypothesis transliterate_space :
  forall c, isspace c = true ->
            Forall (fun x => isspace x = true) (transliterate c).

Lemma folded_app a b :
  folded transliterate (a ++ b)
  = folded transliterate a ++ folded transliterate b.
Proof.
  unfold folded, blank_separators, FuzzyMatcher.unidecode.
  now rewrite flat_map_app, !map_app.
Qed.

Lemma folded_spaces w :
  Forall (fun c => isspace c = true) w ->
  Forall (fun c => isspace c = true) (folded transliterate w).
Proof.
  intros Hw. unfold folded, blank_separators, FuzzyMatcher.unidecode.
  rewrite map_map. apply Forall_map.
  apply Forall_flat_map. eapply Forall_impl; [|exact Hw].
  intros c Hc.
  assert (Hkeep : forall x, is_ascii x = true -> isspace x = true ->
             isspace (ascii_lower (if separator x then 32%N else x))
             = true).
  { intros x Hx Hs.
    apply (@ascii_forall
             (fun x => negb (isspace x)
                       || isspace (ascii_lower
                                     (if separator x then 32%N else x))))
      in Hx; [|vm_compute; reflexivity].
    simpl in Hx. now rewrite Hs in Hx. }
  destruct (is_ascii c) eqn:Ea.
  - constructor; [now apply Hkeep | constructor].
  - pose proof (transliterate_ascii c) as Hascii.
    pose proof (transliterate_space c Hc) as Hsp.
    unfold ascii_text in Hascii. rewrite Forall_forall in *.
    intros x Hx. apply Hkeep; auto.
Qed.

Lemma strip_padding s :
  exists w1 w2,
    s = w1 ++ strip s ++ w2 /\
    Forall (fun c => isspace c = true) w1 /\
    Forall (fun c => isspace c = true) w2.
Proof.
  assert (Hall : forall w, forallb isspace w = true ->
                           Forall (fun c => isspace c = true) w).
  { intros w H. apply Forall_forall. now apply forallb_forall. }
  assert (Hl : forall t, exists w,
             t = w ++ lstrip_by isspace t /\
             Forall (fun c => isspace c = true) w).
  { intros t.
    destruct (lstrip_by_cases isspace t)
      as [[H1 H2]|(pre & c & rest & E & Hp & Hc & Hs)].
    - exists t. rewrite H1, app_nil_r. auto.
    - exists pre. rewrite Hs. auto. }
  destruct (Hl s) as (w1 & E1 & H1).
  destruct (Hl (rev (lstrip_by isspace s))) as (w2 & E2 & H2).
  exists w1, (rev w2). split; [|split; [exact H1 | now apply Forall_rev]].
  unfold strip, strip_by, rstrip_by.
  rewrite <- rev_app_distr, <- E2, rev_involutive. exact E1.
Qed.

Lemma normalize_strip s :
  _normalize_text (Some (strip s)) = _normalize_text (Some s).
Proof.
  rewrite !(normalize_words transliterate lower transliterate_ascii
                            lower_ascii).
  destruct (strip_padding s) as (w1 & w2 & E & H1 & H2).
  rewrite E at 2. rewrite !folded_app.
  now rewrite split_padded by now apply folded_spaces.
Qed.

(** C3, amended. The expansion always returns, with at most five
    variants, no two of which have the same normalized form. When the
    normalized form of the phrase is not empty, the variants contain
    the trimmed phrase, whose normalized form is that of the
    phrase. *)
Theorem expand_variants_bounded (search_text : str) :
  exists variants,
    _expand_search_text_variants (Some search_text) = Some variants /\
    length variants <= MAX_VARIANTS /\
    NoDup (map (fun v => _normalize_text (Some v)) variants) /\
    (_normalize_text (Some search_text) <> [] ->
     In (strip search_text) variants /\
     _normalize_text (Some (strip search_text))
     = _normalize_text (Some search_text)).
Proof.
  destruct (str_eq_dec (strip search_text) []) as [E|Hne].
  { exists []. rewrite (expand_blank _ E).
    split; [reflexivity|]. split; [simpl; lia|]. split; [constructor|].
    intros H. exfalso. apply H. rewrite <- normalize_strip, E.
    reflexivity. }
  destruct (expand_ranked search_text Hne) as (d & Hok & Hin & ->).
  set (nb := _normalize_text (Some (strip search_text))) in *.
  set (ranked := sorted scored_ltb (scored nb d)).
  eexists. split; [reflexivity|]. split; [apply firstn_le_length|].
  split.
  - rewrite <- firstn_map. apply NoDup_firstn. rewrite map_map.
    apply (Permutation_NoDup
             (Permutation_sym
                (Permutation_map _ (sorted_perm scored_ltb (scored nb d))))).
    unfold scored. rewrite map_map. simpl.
    destruct Hok as [Hnd Hall].
    erewrite map_ext_in; [exact Hnd|].
    intros kv Hkv. rewrite Forall_forall in Hall.
    now destruct (Hall kv Hkv) as (_ & Hn & _).
  - intros Hp. split; [|apply normalize_strip].
    assert (Hnb : nb <> []) by (unfold nb; now rewrite normalize_strip).
    specialize (Hin Hnb).
    destruct (@sorted_least (0, strip search_text) (scored nb d))
      as (rest & Hsorted).
    + unfold scored. apply in_map_iff.
      exists (nb, strip search_text). split; [|exact Hin]. simpl.
      f_equal. now apply LevenshteinFacts.distance_zero.
    + intros x Hx. unfold scored in Hx. apply in_map_iff in Hx.
      destruct Hx as ([k v] & <- & Hkv). simpl.
      destruct (str_eq_dec k nb) as [->|Hk].
      * left. destruct Hok as [Hnd _].
        rewrite (unique_value _ _ _ _ Hnd Hkv Hin).
        f_equal. now apply LevenshteinFacts.distance_zero.
      * right. unfold scored_ltb. simpl.
        destruct (Levenshtein.distance nb k) eqn:Ed; [|reflexivity].
        apply LevenshteinFacts.distance_zero in Ed. congruence.
    + unfold ranked. rewrite Hsorted. simpl. now left.
Qed.
End Expand.

(** ** A concrete setting for the examples *)

(** The Cherokee letter A (U+13A0) and its lower-case form (U+AB70). *)
Definition LETTER_A : N := 5024%N.
Definition SMALL_LETTER_A : N := 43888%N.

(** A transliteration table with one entry outside ASCII: the letter
    [LETTER_A] is written "a", and nothing else has an entry. *)
Definition table (c : N) : str :=
  if (c =? LETTER_A)%N then u "a" else [].

(** Lower-casing: ASCII letters, and [LETTER_A]. *)
Definition lower_char (c : N) : N :=
  if (c =? LETTER_A)%N then SMALL_LETTER_A else ascii_lower c.

Definition lower_text (s : str) : str := map lower_char s.

(** A set that iterates in the order of first insertion. *)
Definition in_order (l : list str) : list str := rev (nodup str_eq_dec (rev l)).

(** A scorer that knows equal texts only. *)
Definition exact_ratio (a b : str) : float :=
  if str_eqb a b then 100%float else 0%float.

Lemma table_ascii c : ascii_text (table c).
Proof.
  unfold table. destruct (c =? LETTER_A)%N; repeat constructor.
Qed.

Lemma table_space c :
  isspace c = true -> Forall (fun x => isspace x = true) (table c).
Proof.
  unfold table. destruct (N.eqb_spec c LETTER_A) as [->|_].
  - discriminate.
  - constructor.
Qed.

Lemma lower_text_ascii s : ascii_text s -> lower_text s = map ascii_lower s.
Proof.
  intros H. apply map_ext_in. intros c Hc.
  unfold ascii_text in H. rewrite Forall_forall in H.
  specialize (H c Hc). unfold is_ascii in H. apply N.ltb_lt in H.
  unfold lower_char, LETTER_A.
  destruct (N.eqb_spec c 5024); [lia | reflexivity].
Qed.

Lemma lower_char_space c : isspace (lower_char c) = isspace c.
Proof.
  unfold lower_char. destruct (N.eqb_spec c LETTER_A) as [->|_].
  - reflexivity.
  - destruct (is_ascii c) eqn:E.
    + apply (@ascii_forall
               (fun c => Bool.eqb (isspace (ascii_lower c)) (isspace c)))
        in E; [|vm_compute; reflexivity].
      now apply eqb_prop in E.
    + unfold is_ascii in E. apply N.ltb_ge in E.
      unfold ascii_lower. destruct (N.leb_spec c 90); [lia|].
      now rewrite andb_false_r.
Qed.

Lemma lstrip_by_map (f : N -> N) s :
  (forall c, isspace (f c) = isspace c) ->
  lstrip_by isspace (map f s) = map f (lstrip_by isspace s).
Proof.
  intros H. induction s as [|c s IH]; simpl; [reflexivity|].
  rewrite H. destruct (isspace c); [exact IH | reflexivity].
Qed.

Lemma strip_map (f : N -> N) s :
  (forall c, isspace (f c) = isspace c) ->
  strip (map f s) = map f (strip s).
Proof.
  intros H. unfold strip, strip_by, rstrip_by.
  now rewrite lstrip_by_map, <- map_rev, lstrip_by_map, map_rev.
Qed.

Lemma lower_text_stripped s :
  strip s = s -> strip (lower_text s) = lower_text s.
Proof.
  intros H. unfold lower_text.
  now rewrite (strip_map _ _ lower_char_space), H.
Qed.

Lemma in_order_members l x : In x (in_order l) -> In x l.
Proof.
  unfold in_order. rewrite <- in_rev, nodup_In, <- in_rev. auto.
Qed.

Lemma exact_ratio_number a b : is_number (exact_ratio a b).
Proof. unfold exact_ratio. destruct (str_eqb a b); reflexivity. Qed.

(** *** C5 at work *)

Lemma find_best_fuzzy_match_threshold_witness :
  (exists r,
      find_best_fuzzy_match table lower_text exact_ratio
        (Some (u "limoges plate")) (Some (u "Limoges")) None
        DEFAULT_FUZZY_THRESHOLD = Some r /\
      (DEFAULT_FUZZY_THRESHOLD <=? FuzzyResult.score r)%float = true /\
      FuzzyResult.source r = u "title" /\
      FuzzyResult.target r = u "limoges")
  /\ find_best_fuzzy_match table lower_text exact_ratio
       (Some (u "limoges plate")) (Some (u "Vase")) (Some (u "  "))
       DEFAULT_FUZZY_THRESHOLD = None.
Proof.
  split.
  - destruct (@find_best_fuzzy_match_threshold
                table lower_text exact_ratio exact_ratio_number
                DEFAULT_FUZZY_THRESHOLD eq_refl
                (Some (u "limoges plate")) (Some (u "Limoges")) None)
      as [_ Hsome].
    destruct Hsome as (r & Hr & Hscore).
    + intros [Htitle _].
      assert (E : (exact_ratio (u "limoges") (u "limoges")
                   <? DEFAULT_FUZZY_THRESHOLD)%float = true).
      { apply Htitle; [discriminate|]. vm_compute. auto. }
      vm_compute in E. discriminate E.
    + exists r. split; [exact Hr|]. split; [exact Hscore|].
      vm_compute in Hr. injection Hr as <-. split; reflexivity.
  - apply (@find_best_fuzzy_match_threshold
             table lower_text exact_ratio exact_ratio_number
             DEFAULT_FUZZY_THRESHOLD eq_refl
             (Some (u "limoges plate")) (Some (u "Vase")) (Some (u "  "))).
    split.
    + intros _ t Ht. vm_compute in Ht.
      destruct Ht as [<-|[<-|[<-|[]]]]; reflexivity.
    + intros Hne. exfalso. apply Hne. reflexivity.
Defined.

(** *** C3 at work, and where it fails as stated *)

Lemma expand_variants_bounded_witness :
  exists variants,
    _expand_search_text_variants table lower_text in_order
                                 (Some (u " Luminarc ")) = Some variants /\
    length variants <= MAX_VARIANTS /\
    NoDup (map (fun v => _normalize_text table lower_text (Some v))
               variants) /\
    In (u "Luminarc") variants /\
    _normalize_text table lower_text (Some (u "Luminarc")) = u "luminarc".
Proof.
  destruct (@expand_variants_bounded
              table lower_text in_order table_ascii lower_text_ascii
              lower_text_stripped in_order_members table_space
              (u " Luminarc "))
    as (variants & He & Hlen & Hnd & Hin).
  exists variants. split; [exact He|]. split; [exact Hlen|].
  split; [exact Hnd|].
  destruct Hin as [Hin _]; [vm_compute; discriminate|].
  split; [exact Hin | reflexivity].
Defined.

(** C3 as stated, for one phrase. *)
Definition expansion_as_stated (search_text : str) : Prop :=
  exists variants,
    _expand_search_text_variants table lower_text in_order
                                 (Some search_text) = Some variants /\
    length variants <= MAX_VARIANTS /\
    (exists v, In v variants /\
               _normalize_text table lower_text (Some v)
               = _normalize_text table lower_text (Some search_text)) /\
    NoDup (map (fun v => _normalize_text table lower_text (Some v))
               variants).

(** C3 fails as stated: the empty phrase has no variant at all, so none
    that is equivalent to it (the same holds for a blank phrase and for
    "-", whose normalized form is empty). *)
Lemma expansion_stated_counterexample :
  _expand_search_text_variants table lower_text in_order (Some []) = Some []
  /\ _expand_search_text_variants table lower_text in_order (Some (u "-"))
     = Some []
  /\ ~ expansion_as_stated [].
Proof.
  split; [reflexivity|]. split; [reflexivity|].
  intros (variants & He & _ & (v & Hv & _) & _).
  vm_compute in He. injection He as <-. destruct Hv.
Qed.

(** *** C4 at work, and where it fails as stated *)

(** The phrase [LETTER_A] "1c". Its normalized form is "a1c"; its
    lower-cased form has no transliteration for the first letter and
    normalizes to "1c". *)
Definition phrase_A1c : str := [LETTER_A; 49; 99]%N.

Lemma expand_variants_ordered_witness :
  exists variants,
    _expand_search_text_variants table lower_text in_order
                                 (Some phrase_A1c) = Some variants /\
    variants = [phrase_A1c; u "a1k"; u "a1q"; u "a1s";
                lower_text phrase_A1c] /\
    StronglySorted
      (by_rank_then_text table lower_text (u "a1c")) variants.
Proof.
  destruct (@expand_variants_ordered
              table lower_text in_order table_ascii lower_text_ascii
              lower_text_stripped in_order_members phrase_A1c)
    as (variants & He & Hsorted & _).
  exists variants. split; [exact He|].
  split; [|exact Hsorted].
  vm_compute in He. injection He as <-. reflexivity.
Defined.

(** C4 as stated: ascending distance, and at equal distance ascending
    order of the variants' normalized forms. *)
Definition by_rank_then_normalized (normalized_base v w : str) : Prop :=
  rank_of table lower_text normalized_base v
  < rank_of table lower_text normalized_base w \/
  (rank_of table lower_text normalized_base v
   = rank_of table lower_text normalized_base w /\
   str_ltb (_normalize_text table lower_text (Some w))
           (_normalize_text table lower_text (Some v)) = false).

(** C4 fails as stated: "a1k" and the lower-cased phrase are both at
    distance 1 from "a1c"; the lower-cased phrase normalizes to "1c",
    which sorts before "a1k", yet it is returned after it, because the
    ranking compares the stored texts. *)
Lemma order_stated_counterexample :
  _expand_search_text_variants table lower_text in_order (Some phrase_A1c)
    = Some [phrase_A1c; u "a1k"; u "a1q"; u "a1s"; lower_text phrase_A1c]
  /\ _normalize_text table lower_text (Some (lower_text phrase_A1c))
     = u "1c"
  /\ ~ StronglySorted
        (by_rank_then_normalized (u "a1c"))
        [phrase_A1c; u "a1k"; u "a1q"; u "a1s"; lower_text phrase_A1c].
Proof.
  split; [reflexivity|]. split; [reflexivity|].
  intros H.
  inversion H as [|? ? Htail _]; subst.
  inversion Htail as [|? ? _ Hall]; subst.
  rewrite Forall_forall in Hall.
  specialize (Hall (lower_text phrase_A1c)).
  destruct Hall as [Hlt|[_ Hle]].
  - right. right. now left.
  - vm_compute in Hlt. lia.
  - vm_compute in Hle. discriminate Hle.
Qed.

End FuzzyMatcherFacts.

(* ================================================================== *)
(** * More about the valuation engine *)
(* ================================================================== *)

Module SummaryFacts.
Import Py PyFacts ValuationEngine ValuationEngineFacts.

(** ** The groups of [_summarize] *)

(** The prices of the listings that carry a price and the currency
    [cur], in listing order. *)
Definition priced_in (cur : str) (listings : list ListingComp.t)
  : list float :=
  flat_map
    (fun listing =>
       match ListingComp.price listing, ListingComp.currency listing with
       | Some p, Some c => if str_eqb c cur then [p] else []
       | _, _ => []
       end)
    listings.

Lemma priced_in_app cur l1 l2 :
  priced_in cur (l1 ++ l2) = priced_in cur l1 ++ priced_in cur l2.
Proof. apply flat_map_app. Qed.

(** What the dictionary [currency_groups] holds once the listings
    [seen] have been read. *)
Definition groups_of (seen : list ListingComp.t)
           (groups : list (str * list float)) : Prop :=
  NoDup (map fst groups) /\
  Forall (fun g => snd g = priced_in (fst g) seen /\ snd g <> []) groups /\
  (forall cur, priced_in cur seen <> [] -> In cur (map fst groups)).

Lemma group_add_keys cur p groups k :
  In k (map fst (group_add cur p groups)) <->
  k = cur \/ In k (map fst groups).
Proof.
  induction groups as [|[k0 ps] rest IH]; simpl.
  - intuition.
  - destruct (str_eqb k0 cur) eqn:E; simpl.
    + apply str_eqb_true in E. subst. intuition.
    + rewrite IH. intuition.
Qed.

Lemma group_add_NoDup cur p groups :
  NoDup (map fst groups) -> NoDup (map fst (group_add cur p groups)).
Proof.
  induction groups as [|[k0 ps] rest IH]; simpl; intros H.
  - repeat constructor. intros [].
  - inversion H as [|? ? Hk Hrest]; subst.
    destruct (str_eqb k0 cur) eqn:E; simpl.
    + now constructor.
    + constructor; auto.
      rewrite group_add_keys. intros [->|Hin]; [|contradiction].
      now rewrite str_eqb_refl in E.
Qed.

Lemma group_add_entries cur p groups (P : str -> list float -> Prop) :
  NoDup (map fst groups) ->
  (forall k ps, In (k, ps) groups -> k <> cur -> P k ps) ->
  (forall ps, In (cur, ps) groups -> P cur (ps ++ [p])) ->
  (~ In cur (map fst groups) -> P cur [p]) ->
  Forall (fun g => P (fst g) (snd g)) (group_add cur p groups).
Proof.
  induction groups as [|[k0 ps] rest IH]; simpl; intros Hnd Hother Hsame Hnew.
  - repeat constructor. simpl. apply Hnew. intros [].
  - inversion Hnd as [|? ? Hk Hrest]; subst.
    destruct (str_eqb k0 cur) eqn:E.
    + apply str_eqb_true in E. subst k0.
      constructor; simpl.
      * apply Hsame. now left.
      * apply Forall_forall. intros [k ps'] Hin. simpl.
        apply Hother; [now right|].
        intros ->. apply Hk. now apply (in_map fst) in Hin.
    + apply str_eqb_false in E.
      constructor; simpl.
      * apply Hother; [now left | exact E].
      * apply IH; auto.
        intros Hn. apply Hnew. intros [?|?]; [congruence | contradiction].
Qed.

Lemma groups_of_step seen listing groups :
  groups_of seen groups ->
  groups_of (seen ++ [listing])
            (match ListingComp.price listing,
                   ListingComp.currency listing with
             | Some p, Some cur => group_add cur p groups
             | _, _ => groups
             end).
Proof.
  intros (Hnd & Hall & Hkeys).
  assert (Hone : forall cur,
             priced_in cur (seen ++ [listing])
             = priced_in cur seen
               ++ match ListingComp.price listing,
                        ListingComp.currency listing with
                  | Some p, Some c => if str_eqb c cur then [p] else []
                  | _, _ => []
                  end).
  { intros cur. rewrite priced_in_app. simpl. now rewrite app_nil_r. }
  destruct (ListingComp.price listing) as [p|] eqn:Ep;
    [destruct (ListingComp.currency listing) as [c|] eqn:Ec|].
  - split; [now apply group_add_NoDup|]. split.
    + apply group_add_entries
        with (P := fun k ps => ps = priced_in k (seen ++ [listing])
                               /\ ps <> []); auto.
      * intros k ps Hin Hne. rewrite Hone.
        rewrite Forall_forall in Hall. destruct (Hall _ Hin) as [E1 E2].
        simpl in *. split; [|assumption].
        destruct (str_eqb c k) eqn:E.
        -- apply str_eqb_true in E. congruence.
        -- now rewrite app_nil_r.
      * intros ps Hin. rewrite Hone, str_eqb_refl.
        rewrite Forall_forall in Hall. destruct (Hall _ Hin) as [E1 E2].
        simpl in *. split; [now rewrite E1 | now destruct ps].
      * intros Hn. rewrite Hone, str_eqb_refl. split; [|discriminate].
        destruct (priced_in c seen) eqn:E; [reflexivity|].
        exfalso. apply Hn, Hkeys. now rewrite E.
    + intros cur Hcur. rewrite group_add_keys.
      rewrite Hone in Hcur.
      destruct (str_eqb c cur) eqn:E.
      * apply str_eqb_true in E. now left.
      * right. apply Hkeys. now rewrite app_nil_r in Hcur.
  - split; [assumption|]. split.
    + eapply Forall_impl; [|exact Hall]. intros g [E1 E2].
      now rewrite Hone, app_nil_r.
    + intros cur. rewrite Hone, app_nil_r. apply Hkeys.
  - split; [assumption|]. split.
    + eapply Forall_impl; [|exact Hall]. intros g [E1 E2].
      now rewrite Hone, app_nil_r.
    + intros cur. rewrite Hone, app_nil_r. apply Hkeys.
Qed.

Lemma groups_of_fold listings seen groups :
  groups_of seen groups ->
  groups_of (seen ++ listings)
    (fold_left
       (fun groups listing =>
          match ListingComp.price listing,
                ListingComp.currency listing with
          | Some p, Some cur => group_add cur p groups
          | _, _ => groups
          end)
       listings groups).
Proof.
  revert seen groups.
  induction listings as [|l ls IH]; intros seen groups H; simpl.
  - now rewrite app_nil_r.
  - replace (seen ++ l :: ls) with ((seen ++ [l]) ++ ls)
      by now rewrite <- app_assoc.
    apply IH. now apply groups_of_step.
Qed.

Lemma group_by_currency_groups listings :
  groups_of listings (group_by_currency listings).
Proof.
  apply (groups_of_fold listings (seen := []) (groups := [])).
  split; [constructor|]. split; [constructor|].
  intros cur H. now elim H.
Qed.

Lemma largest_group_most first rest :
  In (largest_group first rest) (first :: rest) /\
  forall g, In g (first :: rest) ->
            length (snd g) <= length (snd (largest_group first rest)).
Proof.
  unfold largest_group. revert first.
  induction rest as [|g0 rest IH]; intros first; simpl.
  - split; [now left|]. intros g [<-|[]]. lia.
  - destruct (Nat.ltb_spec (length (snd first)) (length (snd g0))) as [H|H].
    + destruct (IH g0) as [Hin Hmax]. split.
      * simpl in Hin. tauto.
      * intros g [<-|Hg]; [|now apply Hmax].
        specialize (Hmax g0 (or_introl eq_refl)). lia.
    + destruct (IH first) as [Hin Hmax]. split.
      * simpl in Hin. tauto.
      * intros g [<-|[<-|Hg]].
        -- apply Hmax. now left.
        -- specialize (Hmax first (or_introl eq_refl)). lia.
        -- apply Hmax. now right.
Qed.

(** The two shapes of a summary. *)
Lemma summarize_shape listings default_source :
  exists s,
    _summarize listings default_source = Ok s /\
    ((forall cur, priced_in cur listings = []) /\
     s = MarketSummary.default default_source
     \/ exists cur p0 ps med,
          p0 :: ps = sorted PrimFloat.ltb (priced_in cur listings) /\
          (forall other,
              length (priced_in other listings)
              <= length (priced_in cur listings)) /\
          Statistics.median (p0 :: ps) = Ok med /\
          s = MarketSummary.mk
                (Some (min_of PrimFloat.ltb p0 ps))
                (Some (max_of PrimFloat.ltb p0 ps))
                (Some med) (Some cur)
                (Z.of_nat (length (p0 :: ps))) default_source (p0 :: ps)).
Proof.
  pose proof (group_by_currency_groups listings) as (Hnd & Hall & Hkeys).
  unfold _summarize.
  destruct listings as [|l0 ls].
  { eexists. split; [reflexivity|]. left. now split. }
  destruct (group_by_currency (l0 :: ls)) as [|first rest] eqn:Eg.
  { eexists. split; [reflexivity|]. left. split; [|easy].
    intros cur. destruct (priced_in cur (l0 :: ls)) eqn:E; [reflexivity|].
    exfalso. apply (Hkeys cur). now rewrite E. }
  destruct (largest_group_most first rest) as [Hin Hmax].
  rewrite Forall_forall in Hall.
  destruct (Hall _ Hin) as [Hps Hne].
  destruct (largest_group first rest) as [cur prices]. cbn [fst snd] in *.
  assert (Hs : sorted PrimFloat.ltb prices <> []).
  { intros E. apply (f_equal (@length _)) in E.
    rewrite sorted_length in E. now destruct prices. }
  destruct (median_ok Hs) as [med Hmed].
  rewrite Hmed. cbn [bind].
  destruct (sorted PrimFloat.ltb prices) as [|p0 ps] eqn:E; [congruence|].
  eexists. split; [reflexivity|].
  right. exists cur, p0, ps, med. subst prices.
  split; [now rewrite E|]. split; [|split; [exact Hmed | reflexivity]].
  intros other.
  destruct (priced_in other (l0 :: ls)) eqn:Eo; [simpl; lia|].
  assert (Hk : In other (map fst (first :: rest))).
  { apply Hkeys. now rewrite Eo. }
  apply in_map_iff in Hk. destruct Hk as ([k ps'] & Hk & Hg).
  cbn [fst] in Hk. subst k.
  destruct (Hall _ Hg) as [Hps' _]. cbn [fst snd] in Hps'.
  specialize (Hmax _ Hg). cbn [snd] in Hmax.
  rewrite <- Eo, <- Hps'. exact Hmax.
Qed.

(** X1. [_summarize] never raises. It keeps the label it is given and
    counts the prices it stores. Either no listing carries both a price
    and a currency, and the summary is the empty one; or the summary is
    in the currency [cur] that prices the most listings, and its prices
    are, in some order, the prices of exactly the listings in that
    currency. *)
Theorem summarize_majority_currency
        (listings : list ListingComp.t) (default_source : str) :
  exists s,
    _summarize listings default_source = Ok s /\
    MarketSummary.source s = default_source /\
    MarketSummary.sample_size s
      = Z.of_nat (length (MarketSummary.prices s)) /\
    ((forall cur, priced_in cur listings = []) /\
     s = MarketSummary.default default_source
     \/ exists cur,
          MarketSummary.currency s = Some cur /\
          priced_in cur listings <> [] /\
          Permutation (MarketSummary.prices s) (priced_in cur listings) /\
          forall other,
            length (priced_in other listings)
            <= length (priced_in cur listings)).
Proof.
  destruct (summarize_shape listings default_source)
    as (s & Hs & [[Hnone ->] | (cur & p0 & ps & med & Hp & Hmost & _ & ->)]).
  - eexists. split; [exact Hs|]. repeat split. left. now split.
  - eexists. split; [exact Hs|]. cbn [MarketSummary.source
      MarketSummary.sample_size MarketSummary.prices MarketSummary.currency].
    repeat split. right. exists cur.
    split; [reflexivity|]. split; [|split; [|exact Hmost]].
    + intros E. rewrite E in Hp. discriminate.
    + rewrite Hp. apply sorted_perm.
Qed.

(** ** Bounds *)

Lemma ltb_irrefl x : (x <? x)%float = false.
Proof.
  rewrite ltb_spec. unfold SFltb. rewrite SFcompare_rank.
  destruct (rank (Prim2SF x)) as [[[a b] c]|]; [|reflexivity].
  unfold lex. now rewrite !Z.compare_refl.
Qed.

Lemma leb_not_ltb x y : (x <=? y)%float = true -> (y <? x)%float = false.
Proof.
  intros H. destruct (y <? x)%float eqn:E; [|reflexivity].
  pose proof (leb_ltb_trans H E) as Hxx.
  now rewrite ltb_irrefl in Hxx.
Qed.

Definition numbers (l : list float) : Prop := Forall is_number l.

Lemma min_of_least x l :
  numbers (x :: l) ->
  In (min_of PrimFloat.ltb x l) (x :: l) /\
  forall p, In p (x :: l) -> (min_of PrimFloat.ltb x l <=? p)%float = true.
Proof.
  unfold min_of. revert x.
  induction l as [|y l IH]; intros x Hn; simpl.
  - inversion Hn; subst. split; [now left|].
    intros p [<-|[]]. now apply leb_refl.
  - inversion Hn as [|? ? Hx Hyl]; subst.
    inversion Hyl as [|? ? Hy Hl]; subst.
    destruct (y <? x)%float eqn:E.
    + destruct (IH y) as [Hin Hle]; [now constructor|]. split.
      * simpl in Hin. tauto.
      * intros p [<-|Hp]; [|now apply Hle].
        eapply leb_trans; [apply Hle; now left | now apply ltb_leb].
    + destruct (IH x) as [Hin Hle]; [now constructor|]. split.
      * simpl in Hin. tauto.
      * intros p [<-|[<-|Hp]].
        -- apply Hle. now left.
        -- eapply leb_trans; [apply Hle; now left|].
           now apply ltb_false_leb.
        -- apply Hle. now right.
Qed.

Lemma max_of_greatest x l :
  numbers (x :: l) ->
  In (max_of PrimFloat.ltb x l) (x :: l) /\
  forall p, In p (x :: l) -> (p <=? max_of PrimFloat.ltb x l)%float = true.
Proof.
  unfold max_of. revert x.
  induction l as [|y l IH]; intros x Hn; simpl.
  - inversion Hn; subst. split; [now left|].
    intros p [<-|[]]. now apply leb_refl.
  - inversion Hn as [|? ? Hx Hyl]; subst.
    inversion Hyl as [|? ? Hy Hl]; subst.
    destruct (x <? y)%float eqn:E.
    + destruct (IH y) as [Hin Hle]; [now constructor|]. split.
      * simpl in Hin. tauto.
      * intros p [<-|Hp]; [|now apply Hle].
        eapply leb_trans; [apply ltb_leb; exact E | apply Hle; now left].
    + destruct (IH x) as [Hin Hle]; [now constructor|]. split.
      * simpl in Hin. tauto.
      * intros p [<-|[<-|Hp]].
        -- apply Hle. now left.
        -- eapply leb_trans; [|apply Hle; now left].
           now apply ltb_false_leb.
        -- apply Hle. now right.
Qed.

Definition ascending (l : list float) : Prop :=
  StronglySorted (fun a b => (a <=? b)%float = true) l.

Lemma insert_In x (l : list float) p :
  In p (insert PrimFloat.ltb x l) <-> p = x \/ In p l.
Proof.
  induction l as [|y l IH]; simpl.
  - intuition.
  - destruct (y <? x)%float; simpl; [rewrite IH|]; intuition.
Qed.

Lemma sorted_In (l : list float) p :
  In p (sorted PrimFloat.ltb l) <-> In p l.
Proof.
  induction l as [|x l IH]; simpl; [tauto|].
  rewrite insert_In, IH. intuition.
Qed.

Lemma insert_ascending x l :
  is_number x -> numbers l -> ascending l ->
  ascending (insert PrimFloat.ltb x l).
Proof.
  intros Hx. induction l as [|y l IH]; intros Hn Hs; simpl.
  - repeat constructor.
  - inversion Hn as [|? ? Hy Hl]; subst.
    inversion Hs as [|? ? Hsl Hyl]; subst.
    destruct (y <? x)%float eqn:E.
    + constructor; [now apply IH|].
      apply Forall_forall. intros p Hp. apply -> insert_In in Hp.
      destruct Hp as [->|Hp]; [now apply ltb_leb|].
      rewrite Forall_forall in Hyl. now apply Hyl.
    + constructor; [assumption|].
      assert (Hxy : (x <=? y)%float = true) by now apply ltb_false_leb.
      constructor; [assumption|].
      eapply Forall_impl; [|exact Hyl].
      intros p Hp. simpl in Hp. eapply leb_trans; eassumption.
Qed.

Lemma sorted_ascending l : numbers l -> ascending (sorted PrimFloat.ltb l).
Proof.
  induction l as [|x l IH]; intros Hn; simpl; [constructor|].
  inversion Hn as [|? ? Hx Hl]; subst.
  apply insert_ascending; [assumption | | now apply IH].
  apply Forall_forall. intros p Hp. apply -> sorted_In in Hp.
  unfold numbers in Hl. rewrite Forall_forall in Hl. now apply Hl.
Qed.

Lemma priced_in_prices cur listings p :
  In p (priced_in cur listings) ->
  exists listing, In listing listings /\ ListingComp.price listing = Some p.
Proof.
  unfold priced_in. rewrite in_flat_map.
  intros (listing & Hin & Hp). exists listing. split; [assumption|].
  destruct (ListingComp.price listing) as [q|]; [|contradiction].
  destruct (ListingComp.currency listing) as [c|]; [|contradiction].
  destruct (str_eqb c cur); [|contradiction].
  destruct Hp as [->|[]]. reflexivity.
Qed.

(** No listing is priced at NaN. *)
Definition priced_with_numbers (listings : list ListingComp.t) : Prop :=
  forall listing p,
    In listing listings -> ListingComp.price listing = Some p ->
    is_number p.

(** X2. When no listing is priced at NaN, a non-empty summary stores its
    prices in ascending order, and its minimum and maximum are two of
    those prices that bound all of them. *)
Theorem summary_bounds (listings : list ListingComp.t)
        (default_source : str) (s : MarketSummary.t) :
  priced_with_numbers listings ->
  _summarize listings default_source = Ok s ->
  MarketSummary.sample_size s <> 0%Z ->
  ascending (MarketSummary.prices s) /\
  exists lo hi,
    MarketSummary.minimum s = Some lo /\
    MarketSummary.maximum s = Some hi /\
    In lo (MarketSummary.prices s) /\ In hi (MarketSummary.prices s) /\
    forall p, In p (MarketSummary.prices s) ->
              (lo <=? p)%float = true /\ (p <=? hi)%float = true.
Proof.
  intros Hnum Hs Hsize.
  destruct (summarize_shape listings default_source)
    as (s' & Hs' & Hcur).
  rewrite Hs in Hs'. injection Hs' as <-.
  destruct Hcur as [[_ ->] | (cur & p0 & ps & med & Hprices & _ & _ & ->)];
    [now elim Hsize|].
  cbn [MarketSummary.prices MarketSummary.minimum MarketSummary.maximum].
  assert (Hall : numbers (priced_in cur listings)).
  { apply Forall_forall. intros p Hp.
    destruct (priced_in_prices _ _ _ Hp) as (listing & Hin & Hpr).
    eapply Hnum; eassumption. }
  assert (Hn : numbers (p0 :: ps)).
  { apply Forall_forall. intros p Hp.
    rewrite Hprices in Hp. apply -> sorted_In in Hp.
    unfold numbers in Hall. rewrite Forall_forall in Hall. now apply Hall. }
  split.
  - rewrite Hprices. now apply sorted_ascending.
  - destruct (min_of_least Hn) as [Hlo Hle].
    destruct (max_of_greatest Hn) as [Hhi Hge].
    eexists. eexists. repeat split; eauto.
Qed.

Lemma summary_bounds_witness :
  exists s,
    _summarize [sold_in (u "EUR") 60; sold_in (u "USD") 50;
                sold_in (u "EUR") 40] (u "eBay sold") = Ok s /\
    MarketSummary.prices s = [40%float; 60%float] /\
    ascending (MarketSummary.prices s) /\
    exists lo hi,
      MarketSummary.minimum s = Some lo /\
      MarketSummary.maximum s = Some hi /\
      In lo (MarketSummary.prices s) /\ In hi (MarketSummary.prices s) /\
      forall p, In p (MarketSummary.prices s) ->
                (lo <=? p)%float = true /\ (p <=? hi)%float = true.
Proof.
  eexists. split; [vm_compute; reflexivity|]. split; [reflexivity|].
  apply (@summary_bounds
           [sold_in (u "EUR") 60; sold_in (u "USD") 50;
            sold_in (u "EUR") 40] (u "eBay sold")).
  - intros listing p [<-|[<-|[<-|[]]]] [= <-]; vm_compute; reflexivity.
  - vm_compute. reflexivity.
  - discriminate.
Defined.
End SummaryFacts.

Module EvaluateFacts.
Import Py PyFacts ValuationEngine ValuationEngineFacts.

Lemma levels_differ : Low <> Medium /\ Low <> High /\ Medium <> High.
Proof. repeat split; intros H; vm_compute in H; discriminate. Qed.

Section Engine.
Variable pstdev : list float -> float.
Variable self : ValuationEngine.t.

Lemma has_low_variance_total prices :
  exists b, _has_low_variance pstdev self prices = Ok b.
Proof.
  unfold _has_low_variance.
  destruct (Nat.ltb_spec (length prices) 2) as [H|H]; [eauto|].
  destruct (@median_ok prices) as [med Hmed].
  { intros ->. simpl in H. lia. }
  rewrite Hmed. cbn [bind].
  destruct (med <=? 0)%float; [eauto|].
  destruct (pstdev prices =? 0)%float; eauto.
Qed.

(** The score that [_score_confidence] works with: [fuzzy_score or 0]. *)
Definition effective_score (fuzzy_score : option float) : float :=
  match fuzzy_score with
  | Some s => if float_truthy s then s else 0%float
  | None => 0%float
  end.

(** From four comps on, the label is Medium unless the score and the
    number of comps send [_score_confidence] to look at the variance. *)
Lemma score_confidence_from_four fuzzy_score summary :
  (4 <= MarketSummary.sample_size summary)%Z ->
  _score_confidence pstdev self fuzzy_score summary
  = if (90 <=? effective_score fuzzy_score)%float
       && (8 <=? MarketSummary.sample_size summary)%Z
    then low <- _has_low_variance pstdev self
                                  (MarketSummary.prices summary) ;;
         Ok (if low then High else Medium)
    else Ok Medium.
Proof.
  intros H4. unfold _score_confidence.
  fold (effective_score fuzzy_score).
  destruct (Z.ltb_spec (MarketSummary.sample_size summary) 4); [lia|].
  destruct (90 <=? effective_score fuzzy_score)%float eqn:E90;
    destruct (Z.leb_spec 8 (MarketSummary.sample_size summary)) as [H8|H8];
    cbn [andb bind].
  1: destruct (_has_low_variance pstdev self
                                 (MarketSummary.prices summary))
       as [[|]|e]; cbn [bind]; try reflexivity.
  all: destruct (Z.leb_spec 4 (MarketSummary.sample_size summary));
    [|lia].
  all: destruct (Z.leb_spec (MarketSummary.sample_size summary) 7);
    cbn [andb orb]; rewrite ?orb_true_r; try lia.
  all: repeat match goal with
         | |- context [if ?c then _ else _] => destruct c
         end; reflexivity.
Qed.

Lemma score_confidence_cases fuzzy_score summary :
  (4 <= MarketSummary.sample_size summary)%Z ->
  (_score_confidence pstdev self fuzzy_score summary = Ok High /\
   (90 <=? effective_score fuzzy_score)%float = true /\
   (8 <= MarketSummary.sample_size summary)%Z /\
   _has_low_variance pstdev self (MarketSummary.prices summary) = Ok true)
  \/ _score_confidence pstdev self fuzzy_score summary = Ok Medium.
Proof.
  intros H4. rewrite (score_confidence_from_four fuzzy_score _ H4).
  destruct (90 <=? effective_score fuzzy_score)%float;
    destruct (Z.leb_spec 8 (MarketSummary.sample_size summary)) as [H8|H8];
    cbn [andb]; auto.
  destruct (has_low_variance_total (MarketSummary.prices summary))
    as [[|] Hb]; rewrite Hb; cbn [bind]; auto.
Qed.

Lemma effective_score_high fuzzy_score :
  (90 <=? effective_score fuzzy_score)%float = true ->
  exists s, fuzzy_score = Some s /\ (90 <=? s)%float = true.
Proof.
  destruct fuzzy_score as [s|]; simpl; intros H90.
  - exists s. split; [reflexivity|].
    destruct (float_truthy s); [exact H90|].
    vm_compute in H90. discriminate.
  - vm_compute in H90. discriminate.
Qed.

(** X3. With fewer than eight comps, or a fuzzy score below 90 (or
    none), [_score_confidence] returns without looking at the prices:
    Low below four comps and Medium from four on. Whenever it returns,
    the label is Low exactly when there are fewer than four comps (no
    fuzzy score brings it below Medium from four comps on), and it is
    High only with eight comps or more, a score of at least 90 and
    prices of low variance. *)
Theorem score_confidence_levels
        (fuzzy_score : option float) (summary : MarketSummary.t) :
  ((MarketSummary.sample_size summary < 8)%Z \/
   (90 <=? effective_score fuzzy_score)%float = false ->
   _score_confidence pstdev self fuzzy_score summary
   = Ok (if (MarketSummary.sample_size summary <? 4)%Z
         then Low else Medium)) /\
  (forall level,
      _score_confidence pstdev self fuzzy_score summary = Ok level ->
      (level = Low \/ level = Medium \/ level = High) /\
      (level = Low <-> (MarketSummary.sample_size summary < 4)%Z) /\
      (level = High ->
       (8 <= MarketSummary.sample_size summary)%Z /\
       (exists s, fuzzy_score = Some s /\ (90 <=? s)%float = true) /\
       _has_low_variance pstdev self (MarketSummary.prices summary)
         = Ok true)).
Proof.
  destruct levels_differ as (HLM & HLH & HMH).
  destruct (Z.ltb_spec (MarketSummary.sample_size summary) 4)
    as [Hlt|Hge].
  - rewrite (score_confidence_few_comps pstdev self fuzzy_score _ Hlt).
    split; [reflexivity|]. intros level [= <-].
    split; [now left|]. split; [tauto|]. intros H. now elim HLH.
  - rewrite (score_confidence_from_four fuzzy_score _ Hge). split.
    + intros [H8|H90].
      * destruct (Z.leb_spec 8 (MarketSummary.sample_size summary));
          [lia|]. now rewrite andb_false_r.
      * now rewrite H90.
    + intros level.
      destruct (90 <=? effective_score fuzzy_score)%float eqn:E90;
        destruct (Z.leb_spec 8 (MarketSummary.sample_size summary))
          as [H8|H8]; cbn [andb].
      2-4: intros [= <-]; split; [auto|];
        split; [split; [intros H; now elim HLM | lia]|];
        intros H; now elim HMH.
      destruct (_has_low_variance pstdev self
                                  (MarketSummary.prices summary))
        as [[|]|e] eqn:Ev; cbn [bind]; intros [= <-].
      * split; [auto|]. split; [split; [intros H; now elim HLH | lia]|].
        intros _. split; [exact H8|].
        split; [now apply effective_score_high | reflexivity].
      * split; [auto|]. split; [split; [intros H; now elim HLM | lia]|].
        intros H. now elim HMH.
Qed.

Lemma score_confidence_total fuzzy_score summary :
  exists level, _score_confidence pstdev self fuzzy_score summary = Ok level.
Proof.
  destruct (Z.lt_ge_cases (MarketSummary.sample_size summary) 4)
    as [Hlt|Hge].
  - exists Low. now apply score_confidence_few_comps.
  - destruct (score_confidence_cases fuzzy_score summary Hge)
      as [(Hs & _) | Hs]; eauto.
Qed.

(** The last step of [evaluate], once the summaries are there. *)
Lemma evaluate_finish nz sc al ss asum price currency :
  exists r,
    (let '(profit, profit_currency, profit_multiple) :=
       _estimate_profit ss price currency in
     '(confidence_label, confidence_icon) <-
       _score_confidence pstdev self
         (NormalizationResult.fuzzy_score nz) ss ;;
     Ok (ValuationResult.mk nz ss asum profit profit_currency
           profit_multiple confidence_label confidence_icon
           price currency sc al)) = Ok r /\
    ValuationResult.sold_comps r = sc /\
    ValuationResult.active_listings r = al /\
    ValuationResult.sold_summary r = ss /\
    ValuationResult.active_summary r = asum.
Proof.
  destruct (_estimate_profit ss price currency) as [[pf pc] pm].
  destruct (score_confidence_total (NormalizationResult.fuzzy_score nz) ss)
    as [[label icon] Hl].
  rewrite Hl. cbn [bind]. eexists. split; [reflexivity|]. now cbn.
Qed.


(** X5. Without a fetcher, or when the normalizer yields an empty
    query, [evaluate] looks nothing up: the result has no comps, the
    empty sold summary, no active summary, no profit and the label
    Low, whatever the fetcher would have answered. *)
Theorem evaluate_without_query
        (title brand : option str) (price : float) (currency : str)
        (base_search_text : option str)
        (fuzzy_result : option FuzzyResult.t) :
  fetcher self = None \/
  NormalizationResult.canonical_query
    (normalizer self title brand base_search_text fuzzy_result) = [] ->
  evaluate pstdev self title brand price currency base_search_text
           fuzzy_result
  = Ok (ValuationResult.mk
          (normalizer self title brand base_search_text fuzzy_result)
          (MarketSummary.default (u "eBay sold")) None
          None None None (fst Low) (snd Low) price currency [] []).
Proof.
  intros H. unfold evaluate.
  destruct (fetcher self) as [f|].
  - destruct H as [H|H]; [discriminate|]. now rewrite H.
  - reflexivity.
Qed.
End Engine.

Lemma evaluate_without_query_witness :
  evaluate (fun _ => 0%float)
           (engine_with (Some (fetcher_returning [sold_in (u "EUR") 40])))
           None None 25 (u "EUR") None None
  = Ok (ValuationResult.mk
          (plain_normalizer None None None None)
          (MarketSummary.default (u "eBay sold")) None
          None None None (u "Low") (snd Low) 25 (u "EUR") [] []).
Proof.
  apply (@evaluate_without_query
           (fun _ => 0%float)
           (engine_with (Some (fetcher_returning [sold_in (u "EUR") 40])))
           None None 25%float (u "EUR") None None).
  right. reflexivity.
Defined.

(** An engine with another fetcher. *)
Definition with_fetcher (self : ValuationEngine.t) (f : option Fetcher)
  : ValuationEngine.t :=
  ValuationEngine.mk f (normalizer self) (sold_limit self)
                     (active_limit self) (low_variance_threshold self).

(** X6. With [active_limit] at zero or below, [evaluate] never asks for
    the active listings: the result carries no active summary and no
    active listing, and is the same for any two fetchers that agree on
    the site and on the sold comps. *)
Theorem evaluate_skips_active_listings
        (pstdev : list float -> float) (self : ValuationEngine.t)
        (f g : Fetcher)
        (title brand : option str) (price : float) (currency : str)
        (base_search_text : option str)
        (fuzzy_result : option FuzzyResult.t) :
  (active_limit self <= 0)%Z ->
  pick_global_id f = pick_global_id g ->
  fetch_sold_comps f = fetch_sold_comps g ->
  evaluate pstdev (with_fetcher self (Some f)) title brand price currency
           base_search_text fuzzy_result
  = evaluate pstdev (with_fetcher self (Some g)) title brand price currency
             base_search_text fuzzy_result
  /\ forall r,
       evaluate pstdev (with_fetcher self (Some f)) title brand price
                currency base_search_text fuzzy_result = Ok r ->
       ValuationResult.active_summary r = None /\
       ValuationResult.active_listings r = [].
Proof.
  intros Hlimit Hpick Hsold. unfold evaluate, with_fetcher.
  cbn [fetcher normalizer sold_limit active_limit].
  set (nz := normalizer self title brand base_search_text fuzzy_result).
  destruct (Z.ltb_spec 0 (active_limit self)) as [H|_]; [lia|].
  rewrite Hpick, Hsold. split; [reflexivity|].
  intros r.
  destruct (truthy (NormalizationResult.canonical_query nz)); cbn [bind].
  - destruct (fetch_sold_comps g _ _ _) as [sold|e]; cbn [bind];
      [|discriminate].
    destruct (_summarize sold (u "eBay sold")) as [ss|e]; cbn [bind];
      [|discriminate].
    destruct (evaluate_finish pstdev
                (with_fetcher self (Some f)) nz sold [] ss None
                price currency) as (r' & Hr & _ & Hal & _ & Has).
    unfold with_fetcher in Hr. rewrite Hr. intros [= <-]. auto.
  - destruct (evaluate_finish pstdev
                (with_fetcher self (Some f)) nz [] []
                (MarketSummary.default (u "eBay sold")) None
                price currency) as (r' & Hr & _ & Hal & _ & Has).
    unfold with_fetcher in Hr. rewrite Hr. intros [= <-]. auto.
Qed.

(** A fetcher whose active lookup fails. *)
Definition without_active_listings (comps : list ListingComp.t) : Fetcher :=
  {| pick_global_id := fun _ => u "EBAY-DE";
     fetch_sold_comps := fun _ _ _ => Ok comps;
     fetch_active_listings := fun _ _ _ => Raise KeyError |}.

Definition sold_only_engine : ValuationEngine.t :=
  ValuationEngine.mk None plain_normalizer 30 0 0.35%float.

Lemma evaluate_skips_active_listings_witness :
  evaluate (fun _ => 0%float)
           (with_fetcher sold_only_engine
              (Some (fetcher_returning [sold_in (u "EUR") 40])))
           (Some (u "plate")) None 25 (u "EUR") None None
  = evaluate (fun _ => 0%float)
             (with_fetcher sold_only_engine
                (Some (without_active_listings [sold_in (u "EUR") 40])))
             (Some (u "plate")) None 25 (u "EUR") None None
  /\ forall r,
       evaluate (fun _ => 0%float)
                (with_fetcher sold_only_engine
                   (Some (fetcher_returning [sold_in (u "EUR") 40])))
                (Some (u "plate")) None 25 (u "EUR") None None = Ok r ->
       ValuationResult.active_summary r = None /\
       ValuationResult.active_listings r = [].
Proof.
  apply (@evaluate_skips_active_listings
           (fun _ => 0%float) sold_only_engine
           (fetcher_returning [sold_in (u "EUR") 40])
           (without_active_listings [sold_in (u "EUR") 40])
           (Some (u "plate")) None 25%float (u "EUR") None None).
  - simpl. lia.
  - reflexivity.
  - reflexivity.
Defined.
End EvaluateFacts.

(* ================================================================== *)
(** * More about the eBay fetcher *)
(* ================================================================== *)

Module FetcherFacts.
Import Py PyFacts PyFormat.
Import EbayMarketDataFetcher EbayMarketDataFetcherFacts.
Import EbayMarketDataFetcherSetup.

Lemma or_opt_falsy a b :
  truthy_opt (or_opt a b) = truthy_opt a || truthy_opt b.
Proof. unfold or_opt. now destruct (truthy_opt a) eqn:E; rewrite ?E. Qed.

Lemma site_known code site :
  param code CURRENCY_TO_GLOBAL_ID = Some site ->
  In site (map snd CURRENCY_TO_GLOBAL_ID) /\ site <> [].
Proof.
  unfold CURRENCY_TO_GLOBAL_ID. cbn [param].
  repeat match goal with
         | |- context [str_eqb ?a ?b] => destruct (str_eqb a b)
         end;
    intros [= <-]; (split; [cbn; tauto | discriminate]).
Qed.

Section Fetch.
Variable float_of_str : str -> option float.
Variable float_of_int : Z -> option float.
Variable getenv : str -> option str.
Variable new_session : Params -> option Json.t.

Abbreviation fetch_sold_comps :=
  (fetch_sold_comps float_of_str float_of_int).
Abbreviation fetch_active_listings :=
  (fetch_active_listings float_of_str float_of_int).
Abbreviation item_price := (item_price float_of_str float_of_int).
Abbreviation active_loop := (active_loop float_of_str float_of_int).
Abbreviation __init__ := (__init__ getenv new_session).

(** X7. A fetcher constructed without an application id, in an
    environment where neither EBAY_APP_ID nor EBAY_APPID holds one,
    sends no request; nor does any fetcher asked about an empty query.
    Both lookups then return the empty list. *)
Theorem requests_need_credentials
        (app_id default_global_id : option str)
        (session : option (Params -> option Json.t)) (timeout : Z)
        (query : str) (limit : Z) (global_id : option str) :
  let self := __init__ app_id default_global_id session timeout in
  (truthy_opt app_id = false /\
   truthy_opt (getenv (u "EBAY_APP_ID")) = false /\
   truthy_opt (getenv (u "EBAY_APPID")) = false)
  \/ query = [] ->
  fetch_sold_comps self query limit global_id = ([], Ok []) /\
  fetch_active_listings self query limit global_id = ([], Ok []).
Proof.
  intros self H.
  assert (Hskip : negb (truthy_opt (EbayMarketDataFetcher.app_id self))
                  || negb (truthy query) = true).
  { destruct H as [(H1 & H2 & H3) | ->].
    - unfold self, EbayMarketDataFetcherSetup.__init__.
      cbn [EbayMarketDataFetcher.app_id].
      now rewrite !or_opt_falsy, H1, H2, H3.
    - apply orb_true_r. }
  unfold EbayMarketDataFetcher.fetch_sold_comps,
    EbayMarketDataFetcher.fetch_active_listings.
  now rewrite Hskip.
Qed.

(** X8. When the request fails (the session raises, or the body is not
    JSON), both lookups swallow the failure and return the empty
    list. *)
Theorem failed_request_gives_no_comps
        (self : EbayMarketDataFetcher.t) (query : str) (limit : Z)
        (global_id : option str) :
  (forall params, session self params = None) ->
  snd (fetch_sold_comps self query limit global_id) = Ok [] /\
  snd (fetch_active_listings self query limit global_id) = Ok [].
Proof.
  intros Hdown.
  unfold EbayMarketDataFetcher.fetch_sold_comps,
    EbayMarketDataFetcher.fetch_active_listings, _perform_request.
  rewrite !Hdown.
  destruct (negb (truthy_opt (app_id self)) || negb (truthy query));
    split; reflexivity.
Qed.

(** X9. [_extract_items] answers the empty list when the root key,
    the response entry or the search result is missing or cannot be
    indexed. The one exception it lets through is [AttributeError],
    raised when the response entry or the search result is there but
    is not an object. *)
Theorem extract_items_raises_only_attribute_error
        (data : Json.t) (root_key : str) (e : exn) :
  _extract_items data root_key = Raise e ->
  e = AttributeError /\
  exists root response,
    Json.item data root_key = Ok root /\
    Json.first root = Ok response /\
    (is_object response = false \/
     exists results search_result,
       Json.get response (u "searchResult") (Json.Arr [Json.Obj []])
         = Ok results /\
       Json.first results = Ok search_result /\
       is_object search_result = false).
Proof.
  unfold _extract_items.
  destruct (Json.item data root_key) as [root|e1] eqn:E1; cbn [bind].
  2: { destruct data; simpl in E1; try (injection E1 as <-);
       try discriminate.
       destruct (Json.lookup root_key items); [discriminate|].
       injection E1 as <-. discriminate. }
  destruct (Json.first root) as [response|e2] eqn:E2; cbn [bind].
  2: { destruct root as [| | | |[|]|[|]|]; simpl in E2;
       try discriminate; injection E2 as <-; discriminate. }
  destruct response as [| | | | | |fields];
    try (simpl; intros [= <-]; split; [reflexivity|];
         exists root; eexists; split; [reflexivity|];
         split; [exact E2 | now left]).
  cbn [Json.get bind].
  set (results := match Json.lookup (u "searchResult") fields with
                  | Some v => v
                  | None => Json.Arr [Json.Obj []]
                  end).
  destruct (Json.first results) as [search_result|e3] eqn:E3; cbn [bind].
  2: { destruct results as [| | | |[|]|[|]|]; simpl in E3;
       try discriminate; injection E3 as <-; discriminate. }
  destruct search_result as [| | | | | |fields'];
    try (simpl; intros [= <-]; split; [reflexivity|];
         exists root; eexists; split; [reflexivity|];
         split; [exact E2|]; right;
         exists results; eexists; split; [reflexivity|];
         split; [exact E3 | reflexivity]).
  simpl. discriminate.
Qed.

(** A listing built for one item of an active search. *)
Definition listed_from (item : Json.t) (comp : FetchedComp.t) : Prop :=
  exists selling_status price currency,
    item_price item = Ok (selling_status, price, currency) /\
    listing item price currency (u "eBay active") = Ok comp.

Lemma listing_fields item price currency source comp :
  listing item price currency source = Ok comp ->
  FetchedComp.price comp = price /\
  FetchedComp.currency comp = currency /\
  FetchedComp.source comp = source.
Proof.
  unfold listing.
  destruct (first_of item (u "title") _); cbn [bind]; [|discriminate].
  destruct (first_of item (u "viewItemURL") _); cbn [bind];
    [|discriminate].
  destruct (first_of item (u "galleryURL") _); cbn [bind];
    [|discriminate].
  intros [= <-]. now cbn.
Qed.

Lemma active_loop_all items acc listings :
  active_loop items acc = Ok listings ->
  exists added,
    listings = acc ++ added /\ Forall2 listed_from items added.
Proof.
  revert acc. induction items as [|item rest IH]; intros acc; simpl.
  - intros [= <-]. exists []. rewrite app_nil_r. split; constructor.
  - destruct (item_price item) as [[[ss price] currency]|e] eqn:Ep;
      cbn [bind]; [|discriminate].
    destruct (listing item price currency _) as [comp|e] eqn:El;
      cbn [bind]; [|discriminate].
    intros H. destruct (IH _ H) as (added & -> & Hall).
    exists (comp :: added). rewrite <- app_assoc. split; [reflexivity|].
    constructor; [|exact Hall].
    exists ss, price, currency. auto.
Qed.

(** X10. [fetch_active_listings] drops nothing: when it returns, there
    is one listing per item of the response, in the same order, each
    built from its item and labelled "eBay active". *)
Theorem active_listings_one_per_item
        (self : EbayMarketDataFetcher.t) (query : str) (limit : Z)
        (global_id : option str) (listings : list FetchedComp.t) :
  snd (fetch_active_listings self query limit global_id) = Ok listings ->
  exists items,
    (fst (fetch_active_listings self query limit global_id) = []
     /\ items = []
     \/ response_items self (active_params self query limit global_id)
                       (u "findItemsAdvancedResponse") = Ok items) /\
    Forall2 listed_from items listings /\
    length listings = length items /\
    Forall (fun comp => FetchedComp.source comp = u "eBay active")
           listings.
Proof.
  assert (Hfin : forall items listings,
             Forall2 listed_from items listings ->
             length listings = length items /\
             Forall (fun comp => FetchedComp.source comp
                                 = u "eBay active") listings).
  { intros items ls Hall. induction Hall as [|item comp ? ? H ? IH].
    - split; constructor.
    - destruct IH as [IH1 IH2].
      destruct H as (ss & price & currency & _ & Hl).
      apply listing_fields in Hl. destruct Hl as (_ & _ & Hsrc).
      split; [simpl; now rewrite IH1 | now constructor]. }
  unfold EbayMarketDataFetcher.fetch_active_listings, response_items.
  destruct (negb (truthy_opt (app_id self)) || negb (truthy query));
    cbn [fst snd].
  - intros [= <-]. exists [].
    split; [now left|]. split; [constructor|]. split; constructor.
  - destruct (_extract_items _ _) as [raw|e]; cbn [bind]; [|discriminate].
    destruct (Json.iter raw) as [items|e]; cbn [bind]; [|discriminate].
    intros H. destruct (active_loop_all _ _ H) as (added & -> & Hall).
    exists items. split; [now right|]. split; [exact Hall|].
    now apply Hfin.
Qed.

(** X11. A fetcher built by [__init__] always has a site to name: the
    id that [pick_global_id] returns is never empty, and it is one of
    the six known sites or the fetcher's default. Every request sent
    with that id carries it as GLOBAL-ID. *)
Theorem request_names_site
        (app_id default_global_id : option str)
        (session : option (Params -> option Json.t)) (timeout : Z)
        (currency : option str) (query : str) (limit : Z) :
  let self := __init__ app_id default_global_id session timeout in
  let site := pick_global_id self currency in
  site <> [] /\
  (In site (map snd CURRENCY_TO_GLOBAL_ID)
   \/ site = EbayMarketDataFetcher.default_global_id self) /\
  Forall (fun params => param (u "GLOBAL-ID") params = Some site)
         (fst (fetch_sold_comps self query limit (Some site))) /\
  Forall (fun params => param (u "GLOBAL-ID") params = Some site)
         (fst (fetch_active_listings self query limit (Some site))).
Proof.
  intros self site.
  assert (Hdefault : EbayMarketDataFetcher.default_global_id self <> []).
  { unfold self, EbayMarketDataFetcherSetup.__init__.
    cbn [EbayMarketDataFetcher.default_global_id].
    destruct (or_opt default_global_id (getenv (u "EBAY_GLOBAL_ID")))
      as [[|c id]|]; try discriminate;
      intros H; vm_compute in H; discriminate. }
  assert (Hsite : site <> [] /\
                  (In site (map snd CURRENCY_TO_GLOBAL_ID)
                   \/ site = EbayMarketDataFetcher.default_global_id self)).
  { unfold site, pick_global_id.
    destruct currency as [[|c code]|]; auto.
    destruct (param (c :: code) CURRENCY_TO_GLOBAL_ID) as [id|] eqn:E;
      auto.
    destruct (site_known _ E). auto. }
  destruct Hsite as [Hne Hin].
  split; [exact Hne|]. split; [exact Hin|].
  unfold EbayMarketDataFetcher.fetch_sold_comps,
    EbayMarketDataFetcher.fetch_active_listings.
  destruct (negb (truthy_opt (EbayMarketDataFetcher.app_id self))
            || negb (truthy query)); cbn [fst];
    split; repeat constructor.
  - unfold sold_params, with_global_id.
    destruct site as [|c id]; [congruence|]. reflexivity.
  - unfold active_params, with_global_id.
    destruct site as [|c id]; [congruence|]. reflexivity.
Qed.
End Fetch.

(** An environment with no variable set. *)
Definition empty_environment (name : str) : option str := None.
Definition offline (params : Params) : option Json.t := None.

Lemma requests_need_credentials_witness :
  fetch_sold_comps read_price no_overflow
    (__init__ empty_environment offline None None None 12)
    (u "plate") 30 None = ([], Ok []) /\
  fetch_active_listings read_price no_overflow
    (__init__ empty_environment offline None None None 12)
    (u "plate") 10 None = ([], Ok [])
  /\ fetch_sold_comps read_price no_overflow
       (__init__ empty_environment offline (Some (u "app")) None None 12)
       [] 30 None = ([], Ok []).
Proof.
  split; [|split].
  - apply (@requests_need_credentials
             read_price no_overflow empty_environment offline
             None None None 12%Z (u "plate") 30%Z None).
    left. repeat split.
  - apply (@requests_need_credentials
             read_price no_overflow empty_environment offline
             None None None 12%Z (u "plate") 10%Z None).
    left. repeat split.
  - apply (@requests_need_credentials
             read_price no_overflow empty_environment offline
             (Some (u "app")) None None 12%Z [] 30%Z None).
    now right.
Defined.

Lemma failed_request_gives_no_comps_witness :
  fst (fetch_sold_comps read_price no_overflow
         (__init__ empty_environment offline (Some (u "app")) None None 12)
         (u "plate") 30 None)
  = [sold_params
       (__init__ empty_environment offline (Some (u "app")) None None 12)
       (u "plate") 30 None] /\
  snd (fetch_sold_comps read_price no_overflow
         (__init__ empty_environment offline (Some (u "app")) None None 12)
         (u "plate") 30 None) = Ok [] /\
  snd (fetch_active_listings read_price no_overflow
         (__init__ empty_environment offline (Some (u "app")) None None 12)
         (u "plate") 30 None) = Ok [].
Proof.
  split; [reflexivity|].
  apply (@failed_request_gives_no_comps
           read_price no_overflow
           (__init__ empty_environment offline (Some (u "app")) None None 12)
           (u "plate") 30%Z None).
  reflexivity.
Defined.

Lemma extract_items_raises_only_attribute_error_witness :
  AttributeError = AttributeError /\
  exists root response,
    Json.item (Json.Obj [(u "findCompletedItemsResponse",
                          Json.Arr [Json.Str (u "error")])])
              (u "findCompletedItemsResponse") = Ok root /\
    Json.first root = Ok response /\
    (is_object response = false \/
     exists results search_result,
       Json.get response (u "searchResult") (Json.Arr [Json.Obj []])
         = Ok results /\
       Json.first results = Ok search_result /\
       is_object search_result = false).
Proof.
  apply (@extract_items_raises_only_attribute_error
           (Json.Obj [(u "findCompletedItemsResponse",
                       Json.Arr [Json.Str (u "error")])])
           (u "findCompletedItemsResponse") AttributeError).
  reflexivity.
Defined.

Definition advanced_items (items : list Json.t) : Json.t :=
  Json.Obj
    [ (u "findItemsAdvancedResponse",
       Json.Arr [Json.Obj [(u "searchResult",
                            Json.Arr [Json.Obj [(u "item",
                                                 Json.Arr items)]])]]) ].

Definition active_comp (title : str) (price : float) : FetchedComp.t :=
  FetchedComp.mk (Json.Str title) (Some price) (Json.Str (u "EUR"))
                 Json.Null Json.Null (u "eBay active").

Lemma active_listings_one_per_item_witness :
  exists listings items,
    snd (fetch_active_listings read_price no_overflow
           (fetcher_answering (advanced_items [plate; lamp; vase]))
           (u "plate") 10 None) = Ok listings /\
    map FetchedComp.title listings
      = [Json.Str (u "Plate"); Json.Str (u "Lamp"); Json.Str (u "Vase")] /\
    Forall2 (listed_from read_price no_overflow) items listings /\
    length listings = length items /\
    Forall (fun comp => FetchedComp.source comp = u "eBay active") listings.
Proof.
  destruct (@active_listings_one_per_item
              read_price no_overflow
              (fetcher_answering (advanced_items [plate; lamp; vase]))
              (u "plate") 10%Z None
              [ active_comp (u "Plate") 40; active_comp (u "Lamp") 12.5;
                active_comp (u "Vase") 12.5 ]
              eq_refl)
    as (items & _ & Hall & Hlen & Hsrc).
  eexists. exists items. split; [reflexivity|].
  split; [reflexivity|]. auto.
Defined.
End FetcherFacts.

(* ================================================================== *)
(** * The listing normalizer *)
(* ================================================================== *)

Module ListingNormalizerFacts.
Import Py PyFacts FuzzyMatcherFacts ListingNormalizer.
Import EbayMarketDataFetcherFacts.

(** ** Trimmed texts *)

(** A trimmed text that is not empty starts and ends with a character
    that is not white space. *)
Lemma trimmed_ends s :
  strip s = s -> s <> [] ->
  exists c s', s = c :: s' /\ isspace c = false /\
               forall d, hd_error (rev s) = Some d -> isspace d = false.
Proof.
  intros Hs Hne.
  pose proof (strip_by_stripped isspace s) as [H1 H2].
  fold (strip s) in H1, H2. rewrite Hs in H1, H2.
  destruct s as [|c s']; [congruence|].
  exists c, s'. split; [reflexivity|].
  split; [now apply lstrip_by_fixed with (s := s')|].
  intros d Hd. destruct (rev (c :: s')) as [|d' r]; [discriminate|].
  injection Hd as ->. now apply lstrip_by_fixed with (s := r).
Qed.

Lemma strip_nonempty_prefix c s t :
  isspace c = false -> strip ((c :: s) ++ t) <> [].
Proof.
  intros Hc. unfold strip, strip_by. simpl. rewrite Hc.
  now rewrite rstrip_by_cons_keep.
Qed.

(** Two trimmed texts joined by a blank are trimmed. *)
Lemma strip_pair a b :
  strip a = a -> a <> [] -> strip b = b -> b <> [] ->
  strip (a ++ u " " ++ b) = a ++ u " " ++ b.
Proof.
  intros Ha Hna Hb Hnb.
  destruct (trimmed_ends Ha Hna) as (c & a' & -> & Hc & _).
  destruct (trimmed_ends Hb Hnb) as (d & b' & Eb & _ & Hlast).
  apply stripped_strip_by, stripped_by_ends.
  - discriminate.
  - intros x [= <-]. exact Hc.
  - intros x Hx. apply Hlast.
    rewrite !rev_app_distr in Hx.
    destruct (rev b) as [|y r] eqn:Er.
    + apply (f_equal (@rev _)) in Er. rewrite rev_involutive in Er.
      simpl in Er. congruence.
    + simpl in Hx. exact Hx.
Qed.

Ltac quality_case :=
  repeat split; intros;
  repeat match goal with
         | H : _ /\ _ |- _ => destruct H
         | H : _ \/ _ |- _ => destruct H
         end;
  try reflexivity; try congruence; try discriminate; try tauto;
  try (exfalso; auto; fail).

Lemma or_none_cases s t : or_none s = Some t -> s = t /\ t <> [].
Proof. destruct s; simpl; [discriminate|]. intros [= <-]. now split. Qed.

(** The dictionary that [find_best_fuzzy_match] returns. *)
Definition dict_of (r : FuzzyResult.t) : FuzzyDict :=
  [ (u "score", Json.Float (FuzzyResult.score r));
    (u "source", Json.Str (FuzzyResult.source r));
    (u "target", Json.Str (FuzzyResult.target r));
    (u "source_text",
     match FuzzyResult.source_text r with
     | Some text => Json.Str text
     | None => Json.Null
     end) ].

Section Normalizer.
Variable transliterate : N -> str.
Variable lower : str -> str.
Variable float_of_str : str -> option float.
Variable float_of_int : Z -> option float.

Abbreviation _clean := (_clean transliterate).
Abbreviation normalize :=
  (normalize transliterate lower float_of_str float_of_int).
Abbreviation to_float :=
  (EbayMarketDataFetcher.to_float float_of_str float_of_int).

(** ** What [normalize] reads of the fuzzy result *)

(** The dictionary that is read: nothing is read of a missing one. *)
Definition given (fuzzy_result : option FuzzyDict) : FuzzyDict :=
  match fuzzy_result with
  | Some items => items
  | None => []
  end.

Definition target_of (fuzzy_result : option FuzzyDict) : Json.t :=
  value_at (u "target") (given fuzzy_result).

Definition score_of (fuzzy_result : option FuzzyDict) : Json.t :=
  value_at (u "score") (given fuzzy_result).

(** The trimmed target when it is a text, and the empty text when it
    is missing or falsy. *)
Definition target_text (fuzzy_result : option FuzzyDict) : str :=
  match target_of fuzzy_result with
  | Json.Str target => strip target
  | _ => []
  end.

(** A target that is truthy and is not a text: [strip] cannot be
    called on it. *)
Definition target_unreadable (fuzzy_result : option FuzzyDict) : bool :=
  match target_of fuzzy_result with
  | Json.Str _ => false
  | target => Json.truthy target
  end.

(** The score when [float()] accepts it. *)
Definition usable_score (fuzzy_result : option FuzzyDict)
  : option float :=
  match to_float (score_of fuzzy_result) with
  | Ok score => Some score
  | Raise _ => None
  end.

(** A score that is an integer beyond the range of a float. *)
Definition score_overflows (fuzzy_result : option FuzzyDict) : Prop :=
  exists n, score_of fuzzy_result = Json.Int n /\ float_of_int n = None.

(** The exceptions of [normalize] and their causes. *)
Definition cannot_read (fuzzy_result : option FuzzyDict) (e : exn)
  : Prop :=
  target_unreadable fuzzy_result = true /\ e = AttributeError
  \/ target_unreadable fuzzy_result = false /\
     score_overflows fuzzy_result /\ e = OverflowError.

Lemma read_target_cases items :
  read_target items
  = if target_unreadable (Some items) then Raise AttributeError
    else Ok (or_none (target_text (Some items))).
Proof.
  unfold read_target, target_unreadable, target_text, target_of.
  cbn [given]. unfold Json.or.
  destruct (value_at (u "target") items) as [| b | n | x | s | l | kvs];
    cbn [Json.truthy]; try reflexivity.
  - now destruct b.
  - now destruct (negb (n =? 0)%Z).
  - now destruct (float_truthy x).
  - now destruct s.
  - now destruct l.
  - now destruct kvs.
Qed.

Lemma read_fuzzy_result_cases fuzzy_result :
  match read_fuzzy_result float_of_str float_of_int fuzzy_result with
  | Ok (fuzzy_term, fuzzy_score) =>
      target_unreadable fuzzy_result = false /\
      ~ score_overflows fuzzy_result /\
      fuzzy_term = or_none (target_text fuzzy_result) /\
      fuzzy_score = usable_score fuzzy_result
  | Raise e => cannot_read fuzzy_result e
  end.
Proof.
  assert (Hnothing :
    forall fr, given fr = [] ->
      target_unreadable fr = false /\ ~ score_overflows fr /\
      None = or_none (target_text fr) /\ None = usable_score fr).
  { intros fr H.
    unfold target_unreadable, score_overflows, target_text, usable_score,
      target_of, score_of. rewrite H. cbn.
    repeat split; try reflexivity. intros (n & Hn & _). discriminate. }
  destruct fuzzy_result as [[|kv items]|];
    [now apply Hnothing | | now apply Hnothing].
  cbn [read_fuzzy_result]. rewrite read_target_cases.
  destruct (target_unreadable _) eqn:Et; cbn [bind].
  { unfold cannot_read. left. now split. }
  unfold read_score, usable_score, score_overflows, score_of.
  cbn [given].
  destruct (to_float (value_at (u "score") (kv :: items)))
    as [x|e] eqn:E; cbn [bind].
  - split; [reflexivity|]. split; [|now split].
    intros (n & Hn & Ho). rewrite Hn in E. cbn in E.
    now rewrite Ho in E.
  - destruct (to_float_raises _ _ _ E) as [->|[->|(-> & n & Hn & Ho)]].
    + split; [reflexivity|]. split; [|now split].
      intros (n & Hn & Ho). rewrite Hn in E. cbn in E.
      now rewrite Ho in E.
    + split; [reflexivity|]. split; [|now split].
      intros (n & Hn & Ho). rewrite Hn in E. cbn in E.
      now rewrite Ho in E.
    + unfold cannot_read. right.
      split; [exact Et|]. split; [|reflexivity].
      exists n. split; [exact Hn | exact Ho].
Qed.

(** ** The fields of the result *)

(** The fuzzy term: the target of the fuzzy result, or else the base
    search text, each trimmed and dropped when blank. *)
Definition chosen_term (base_search_text : option str)
           (fuzzy_result : option FuzzyDict) : option str :=
  match target_text fuzzy_result with
  | (_ :: _) as target => Some target
  | [] => or_none (strip (or_empty base_search_text))
  end.

(** The parts of the query before duplicates are dropped. *)
Definition parts_of (title brand fuzzy_term : option str) : list str :=
  match strip (or_empty brand) with
  | [] => []
  | b => [b]
  end
  ++ match fuzzy_term with
     | Some term => [term]
     | None => if truthy_opt title then [strip (or_empty title)] else []
     end.

Lemma target_text_trimmed fuzzy_result :
  strip (target_text fuzzy_result) = target_text fuzzy_result.
Proof.
  unfold target_text.
  destruct (target_of fuzzy_result); try reflexivity. apply strip_idem.
Qed.

Lemma chosen_term_trimmed base fuzzy_result term :
  chosen_term base fuzzy_result = Some term ->
  term <> [] /\ strip term = term.
Proof.
  unfold chosen_term.
  pose proof (target_text_trimmed fuzzy_result) as Ht.
  destruct (target_text fuzzy_result) as [|c t].
  - intros H. apply or_none_cases in H. destruct H as [<- H].
    split; [exact H | apply strip_idem].
  - intros [= <-]. split; [discriminate | exact Ht].
Qed.

Lemma normalize_cases title brand base fuzzy_result :
  match normalize title brand base fuzzy_result with
  | Ok r =>
      target_unreadable fuzzy_result = false /\
      ~ score_overflows fuzzy_result /\
      NormalizationResult.fuzzy_term r = chosen_term base fuzzy_result /\
      NormalizationResult.fuzzy_score r = usable_score fuzzy_result /\
      NormalizationResult.match_quality r
        = quality_of (usable_score fuzzy_result)
                     (chosen_term base fuzzy_result) /\
      NormalizationResult.canonical_query r
        = strip (join (u " ")
                   (canonical_parts lower
                      (parts_of title brand
                                (chosen_term base fuzzy_result))))
  | Raise e => cannot_read fuzzy_result e
  end.
Proof.
  assert (Hbrand :
    (if truthy_opt brand && truthy (strip (or_empty brand))
     then [strip (or_empty brand)] else [])
    = match strip (or_empty brand) with [] => [] | b => [b] end).
  { destruct brand as [[|c b]|]; cbn [truthy_opt or_empty andb];
      try reflexivity.
    now destruct (strip (c :: b)). }
  pose proof (read_fuzzy_result_cases fuzzy_result) as Hread.
  unfold ListingNormalizer.normalize.
  destruct (read_fuzzy_result float_of_str float_of_int fuzzy_result)
    as [[fuzzy_term fuzzy_score]|e]; cbn [bind]; [|exact Hread].
  destruct Hread as (Ht & Ho & -> & ->).
  split; [exact Ht|]. split; [exact Ho|].
  rewrite Hbrand. unfold parts_of, chosen_term.
  cbn [NormalizationResult.fuzzy_term NormalizationResult.fuzzy_score
         NormalizationResult.match_quality
         NormalizationResult.canonical_query].
  destruct (target_text fuzzy_result) as [|c t];
    cbn [or_none truthy_opt negb andb or_empty].
  - destruct base as [[|c b]|]; cbn [truthy_opt or_empty or_none].
    + now cbn.
    + destruct (or_none (strip (c :: b))) as [[|x y]|] eqn:Eo;
        try (repeat split; reflexivity).
      apply or_none_cases in Eo. now destruct Eo.
    + now cbn.
  - repeat split; reflexivity.
Qed.

Lemma normalize_fields title brand base fuzzy_result r :
  normalize title brand base fuzzy_result = Ok r ->
  NormalizationResult.fuzzy_term r = chosen_term base fuzzy_result /\
  NormalizationResult.fuzzy_score r = usable_score fuzzy_result /\
  NormalizationResult.match_quality r
    = quality_of (usable_score fuzzy_result)
                 (chosen_term base fuzzy_result) /\
  NormalizationResult.canonical_query r
    = strip (join (u " ")
               (canonical_parts lower
                  (parts_of title brand
                            (chosen_term base fuzzy_result)))).
Proof.
  intros H. pose proof (normalize_cases title brand base fuzzy_result) as Hc.
  rewrite H in Hc. tauto.
Qed.

(** [normalize] returns unless the target cannot be trimmed or the
    score overflows. *)
Lemma normalize_returns title brand base fuzzy_result :
  target_unreadable fuzzy_result = false ->
  ~ score_overflows fuzzy_result ->
  exists r, normalize title brand base fuzzy_result = Ok r.
Proof.
  intros Ht Ho.
  pose proof (normalize_cases title brand base fuzzy_result) as Hc.
  destruct (normalize title brand base fuzzy_result) as [r|e]; [eauto|].
  destruct Hc as [[H _]|(_ & H & _)]; [congruence | contradiction].
Qed.

(** X12. [normalize] returns a result unless the fuzzy target cannot
    be trimmed or the fuzzy score overflows. When the result has a
    fuzzy term (the fuzzy target, or else the base search text), the
    term is trimmed and not empty, and the query sent to eBay is that
    term alone if the listing has no brand, the brand alone if brand
    and term are equal up to letter case, and otherwise the trimmed
    brand, a blank and the term; the title then plays no part. *)
Theorem canonical_query_with_term
        (title brand base_search_text : option str)
        (fuzzy_result : option FuzzyDict) :
  (target_unreadable fuzzy_result = false ->
   ~ score_overflows fuzzy_result ->
   exists r,
     normalize title brand base_search_text fuzzy_result = Ok r) /\
  forall r term,
    normalize title brand base_search_text fuzzy_result = Ok r ->
    NormalizationResult.fuzzy_term r = Some term ->
    term <> [] /\ strip term = term /\
    NormalizationResult.canonical_query r
    = match strip (or_empty brand) with
      | [] => term
      | b => if str_eqb (lower term) (lower b) then b
             else b ++ u " " ++ term
      end.
Proof.
  split; [apply normalize_returns|].
  intros r term Hr.
  destruct (normalize_fields _ _ _ _ Hr) as (Hterm & _ & _ & Hquery).
  rewrite Hterm, Hquery. intros E. rewrite E.
  destruct (chosen_term_trimmed _ _ E) as [Hne Hstrip].
  split; [exact Hne|]. split; [exact Hstrip|].
  unfold parts_of.
  unfold canonical_parts.
  destruct (strip (or_empty brand)) as [|c b] eqn:Eb.
  - cbn [app fold_left keep_part existsb snd join]. exact Hstrip.
  - assert (Hb : strip (c :: b) = c :: b).
    { rewrite <- Eb. apply strip_idem. }
    cbn [app fold_left keep_part existsb snd].
    destruct (str_eqb (lower term) (lower (c :: b))); cbn [orb snd app].
    + cbn [join]. exact Hb.
    + cbn [join]. apply strip_pair; auto. discriminate.
Qed.

Lemma canonical_query_blank title brand base fuzzy_result r :
  normalize title brand base fuzzy_result = Ok r ->
  NormalizationResult.canonical_query r = []
  <-> strip (or_empty brand) = [] /\
      chosen_term base fuzzy_result = None /\
      strip (or_empty title) = [].
Proof.
  intros Hr.
  destruct (normalize_fields _ _ _ _ Hr) as (_ & _ & _ & Hquery).
  rewrite Hquery. unfold parts_of.
  assert (Htitle : truthy_opt title = false -> strip (or_empty title) = []).
  { destruct title as [[|c t]|]; simpl; try discriminate; reflexivity. }
  unfold canonical_parts.
  destruct (strip (or_empty brand)) as [|c b] eqn:Eb.
  - destruct (chosen_term base fuzzy_result) as [term|] eqn:Et.
    + destruct (chosen_term_trimmed _ _ Et) as [Hne Hstrip].
      cbn [app fold_left keep_part existsb snd join].
      rewrite Hstrip. split; [congruence|].
      intros (_ & H & _). discriminate.
    + destruct (truthy_opt title) eqn:Ett;
        cbn [app fold_left keep_part existsb snd join].
      * rewrite strip_idem. tauto.
      * pose proof (Htitle eq_refl). tauto.
  - assert (Hb : strip (c :: b) = c :: b).
    { rewrite <- Eb. apply strip_idem. }
    destruct (trimmed_ends Hb) as (c' & b' & [= <- <-] & Hc & _);
      [discriminate|].
    split; [|intros (H & _); discriminate].
    intros H. exfalso. revert H.
    destruct (chosen_term base fuzzy_result) as [term|];
      [|destruct (truthy_opt title)];
      cbn [app fold_left keep_part existsb snd];
      repeat match goal with
             | |- context [str_eqb ?a ?b] => destruct (str_eqb a b)
             end;
      cbn [orb snd app join];
      try (apply strip_nonempty_prefix; exact Hc);
      rewrite <- (app_nil_r (c :: b));
      apply strip_nonempty_prefix; exact Hc.
Qed.

Lemma chosen_term_none base fuzzy_result :
  chosen_term base fuzzy_result = None
  <-> strip (or_empty base) = [] /\ target_text fuzzy_result = [].
Proof.
  unfold chosen_term.
  destruct (target_text fuzzy_result) as [|c t].
  - destruct (strip (or_empty base)); simpl.
    + tauto.
    + split; [discriminate | intros [H _]; discriminate].
  - split; [discriminate | intros [_ H]; discriminate].
Qed.

(** X13. [normalize] returns a result unless the fuzzy target cannot
    be trimmed or the fuzzy score overflows, and the query of the
    result is empty exactly when the listing gives nothing to search
    for: the brand, the fuzzy target, the base search text and the
    title are all missing or blank. *)
Theorem canonical_query_empty
        (title brand base_search_text : option str)
        (fuzzy_result : option FuzzyDict) :
  (target_unreadable fuzzy_result = false ->
   ~ score_overflows fuzzy_result ->
   exists r,
     normalize title brand base_search_text fuzzy_result = Ok r) /\
  forall r,
    normalize title brand base_search_text fuzzy_result = Ok r ->
    NormalizationResult.canonical_query r = []
    <-> strip (or_empty brand) = [] /\
        strip (or_empty title) = [] /\
        strip (or_empty base_search_text) = [] /\
        target_text fuzzy_result = [].
Proof.
  split; [apply normalize_returns|].
  intros r Hr.
  rewrite (canonical_query_blank _ _ _ _ Hr), chosen_term_none. tauto.
Qed.

(** X14. [normalize] raises in two cases only: [AttributeError] for a
    fuzzy target that is truthy and not a text, and, the target being
    readable, [OverflowError] for a score that is an integer beyond
    the float range. Otherwise the fuzzy score of the result is the
    score that [float()] accepts, and none for a fuzzy result that is
    missing or empty or whose score is missing or is not a number.
    With a score the match quality is "canonical" from 90 up, "likely"
    from 82 to 89 inclusive and "approximate" for every other score,
    among them the scores strictly between 89 and 90 and NaN. Without
    a score it is "approximate" if the fuzzy target or the base search
    text gives a term, and "unknown" if neither does. *)
Theorem match_quality_levels
        (title brand base_search_text : option str)
        (fuzzy_result : option FuzzyDict) :
  (forall e,
      normalize title brand base_search_text fuzzy_result = Raise e
      <-> cannot_read fuzzy_result e) /\
  forall r,
    normalize title brand base_search_text fuzzy_result = Ok r ->
    let quality := NormalizationResult.match_quality r in
    NormalizationResult.fuzzy_score r = usable_score fuzzy_result /\
    match usable_score fuzzy_result with
    | Some s =>
        (quality = u "canonical" <-> (90 <=? s)%float = true) /\
        (quality = u "likely" <->
         (82 <=? s)%float = true /\ (s <=? 89)%float = true) /\
        (quality = u "approximate" <->
         (90 <=? s)%float = false /\
         ((82 <=? s)%float = false \/ (s <=? 89)%float = false)) /\
        ((89 <? s)%float = true -> (s <? 90)%float = true ->
         quality = u "approximate")
    | None =>
        (quality = u "approximate" <->
         target_text fuzzy_result <> [] \/
         strip (or_empty base_search_text) <> []) /\
        (quality = u "unknown" <->
         target_text fuzzy_result = [] /\
         strip (or_empty base_search_text) = [])
    end.
Proof.
  pose proof (normalize_cases title brand base_search_text fuzzy_result)
    as Hc.
  split.
  { intros e.
    destruct (normalize title brand base_search_text fuzzy_result)
      as [r|e'].
    - split; [discriminate|].
      destruct Hc as (Ht & Ho & _).
      intros [[H _]|(_ & H & _)]; [congruence | contradiction].
    - split; [now intros [= <-]|].
      intros He. f_equal.
      destruct Hc as [[H1 ->]|(H1 & _ & ->)];
        destruct He as [[H2 ->]|(H2 & _ & ->)];
        try reflexivity; congruence. }
  intros r Hr. rewrite Hr in Hc.
  destruct Hc as (_ & _ & _ & Hscore & Hq & _).
  cbv zeta. split; [exact Hscore|]. rewrite Hq. clear Hq Hscore.
  destruct (usable_score fuzzy_result) as [s|]; cbn [quality_of].
  - assert (H1 : u "canonical" <> u "likely") by (vm_compute; discriminate).
    assert (H2 : u "canonical" <> u "approximate")
      by (vm_compute; discriminate).
    assert (H3 : u "likely" <> u "approximate")
      by (vm_compute; discriminate).
    assert (Hgap : (90 <=? s)%float = true ->
                   (s <=? 89)%float = true -> False).
    { intros Ha Hb. pose proof (leb_trans Ha Hb) as Hx.
      vm_compute in Hx. discriminate. }
    assert (Hbelow : (90 <=? s)%float = true ->
                     (s <? 90)%float = true -> False).
    { intros Ha Hb. pose proof (leb_ltb_trans Ha Hb) as Hx.
      vm_compute in Hx. discriminate. }
    assert (Habove : (s <=? 89)%float = true ->
                     (89 <? s)%float = true -> False).
    { intros Ha Hb. pose proof (leb_ltb_trans Ha Hb) as Hx.
      now rewrite SummaryFacts.ltb_irrefl in Hx. }
    destruct (90 <=? s)%float eqn:E90;
      [|destruct (82 <=? s)%float eqn:E82;
        destruct (s <=? 89)%float eqn:E89];
      cbn [andb]; quality_case.
  - assert (H1 : u "approximate" <> u "unknown")
      by (vm_compute; discriminate).
    pose proof (chosen_term_none base_search_text fuzzy_result) as Hn.
    destruct (chosen_term base_search_text fuzzy_result) as [t|] eqn:Et.
    + destruct (chosen_term_trimmed _ _ Et) as [Hne _].
      assert (Hsome : target_text fuzzy_result <> [] \/
                      strip (or_empty base_search_text) <> []).
      { destruct (target_text fuzzy_result) as [|c tt];
          [|left; discriminate].
        destruct (strip (or_empty base_search_text));
          [|right; discriminate].
        exfalso. assert (Some t = None) by (now apply Hn). discriminate. }
      destruct t as [|c t]; [congruence|]. cbn [truthy_opt].
      split; split; intros H; auto; try congruence.
      destruct H as [Ha Hb]. destruct Hsome; contradiction.
    + cbn [truthy_opt].
      destruct (proj1 Hn eq_refl) as [Hb Ht].
      split; split; intros H; auto; try congruence.
      destruct H; contradiction.
Qed.
(** A result of [find_best_fuzzy_match] is read without an exception:
    its target is a text and its score a float. *)
Lemma match_is_readable (r : FuzzyResult.t) :
  target_unreadable (Some (dict_of r)) = false /\
  ~ score_overflows (Some (dict_of r)) /\
  target_text (Some (dict_of r)) = strip (FuzzyResult.target r) /\
  usable_score (Some (dict_of r)) = Some (FuzzyResult.score r).
Proof.
  repeat split. intros (n & Hn & _). discriminate Hn.
Qed.
End Normalizer.

(** ** Examples *)

(** A fuzzy result with a target and nothing else. *)
Definition target_only (target : str) : FuzzyDict :=
  [(u "target", Json.Str target)].

Lemma canonical_query_with_term_witness :
  (exists r,
     normalize table lower_text read_price no_overflow
               (Some (u "Rare plate")) (Some (u " Limoges "))
               (Some (u " limoges porcelain ")) None = Ok r /\
     NormalizationResult.canonical_query r
     = u "Limoges limoges porcelain") /\
  (exists r,
     normalize table lower_text read_price no_overflow
               (Some (u "Rare plate")) (Some (u "LIMOGES"))
               (Some (u "limoges"))
               (Some (target_only (u " limoges "))) = Ok r /\
     NormalizationResult.canonical_query r = u "LIMOGES").
Proof.
  split.
  - eexists. split; [reflexivity|].
    apply (proj2 (@canonical_query_with_term
                    table lower_text read_price no_overflow
                    (Some (u "Rare plate")) (Some (u " Limoges "))
                    (Some (u " limoges porcelain ")) None)
                 _ (u "limoges porcelain")); reflexivity.
  - eexists. split; [reflexivity|].
    apply (proj2 (@canonical_query_with_term
                    table lower_text read_price no_overflow
                    (Some (u "Rare plate")) (Some (u "LIMOGES"))
                    (Some (u "limoges"))
                    (Some (target_only (u " limoges "))))
                 _ (u "limoges")); reflexivity.
Defined.

(** ** [_clean] *)

Section Clean.
Variable transliterate : N -> str.
Hypothesis transliterate_ascii : forall c, ascii_text (transliterate c).

Abbreviation _clean := (_clean transliterate).

Definition hyphen : N := 45%N.
Definition underscore : N := 95%N.

(** A word of a cleaned text. *)
Definition clean_word (t : str) : Prop :=
  word t /\
  Forall (fun c => is_ascii c = true /\ c <> hyphen /\ c <> underscore) t.

Lemma clean_words value :
  exists ws, _clean value = join space ws /\ Forall clean_word ws.
Proof.
  destruct value as [[|c0 v]|]; try (exists []; split; [reflexivity|constructor]).
  unfold ListingNormalizer._clean.
  set (text := FuzzyMatcher.unidecode transliterate (c0 :: v)).
  change (u "-") with [hyphen]. change (u "_") with [underscore].
  change (u " ") with [32%N]. rewrite !replace_char.
  set (blanked := map _ (map _ text)).
  assert (Hchars : forall c, In c blanked ->
            is_ascii c = true /\ c <> hyphen /\ c <> underscore).
  { intros c Hc. unfold blanked in Hc.
    apply in_map_iff in Hc. destruct Hc as (c1 & <- & Hc1).
    apply in_map_iff in Hc1. destruct Hc1 as (c2 & <- & Hc2).
    pose proof (@unidecode_ascii transliterate transliterate_ascii (c0 :: v)) as Ha.
    fold text in Ha. unfold ascii_text in Ha.
    rewrite Forall_forall in Ha. specialize (Ha _ Hc2).
    unfold hyphen, underscore.
    destruct (N.eqb_spec c2 45) as [->|H45].
    - now vm_compute.
    - destruct (N.eqb_spec c2 95) as [->|H95].
      + now vm_compute.
      + auto. }
  exists (split blanked). split.
  - change [32%N] with space.
    pose proof (split_words blanked) as Hw.
    destruct (split blanked) as [|t ts]; [reflexivity|].
    apply strip_join. eapply Forall_impl; [|exact Hw]. now intros a [Ha _].
  - pose proof (split_words blanked) as Hw.
    eapply Forall_impl; [|exact Hw].
    intros t [Ht Hin]. split; [exact Ht|].
    apply Forall_forall. intros c Hc. auto.
Qed.

(** X15. For a transliteration table with ASCII entries, [_clean]
    yields text in one fixed form: ASCII only, no hyphen and no
    underscore, trimmed, its words separated by single blanks.
    Cleaning such a text again changes nothing. *)
Theorem clean_is_idempotent (value : option str) :
  _clean (Some (_clean value)) = _clean value /\
  strip (_clean value) = _clean value /\
  join space (split (_clean value)) = _clean value /\
  Forall (fun c => is_ascii c = true /\ c <> hyphen /\ c <> underscore)
         (_clean value).
Proof.
  destruct (clean_words value) as (ws & -> & Hws).
  assert (Hwords : Forall word ws).
  { eapply Forall_impl; [|exact Hws]. now intros t [Ht _]. }
  assert (Hchars : Forall (fun c => is_ascii c = true /\ c <> hyphen
                                    /\ c <> underscore)
                          (join space ws)).
  { apply Forall_forall. intros c Hc.
    apply join_In in Hc. destruct Hc as [->|(t & Ht & Hc)].
    - now vm_compute.
    - rewrite Forall_forall in Hws. destruct (Hws _ Ht) as [_ Hall].
      rewrite Forall_forall in Hall. auto. }
  assert (Hsplit : split (join space ws) = ws) by now apply split_join.
  assert (Hstrip : strip (join space ws) = join space ws).
  { destruct ws as [|t ts]; [reflexivity | now apply strip_join]. }
  split; [|split; [exact Hstrip|split; [now rewrite Hsplit | exact Hchars]]].
  destruct (join space ws) as [|c s] eqn:Ej; [reflexivity|].
  unfold ListingNormalizer._clean.
  rewrite unidecode_id.
  2: { eapply Forall_impl; [|exact Hchars]. now intros a [Ha _]. }
  change (u "-") with [hyphen]. change (u "_") with [underscore].
  rewrite (@replace_absent hyphen).
  2: { intros Hin. rewrite Forall_forall in Hchars.
       destruct (Hchars _ Hin) as (_ & H & _). congruence. }
  rewrite (@replace_absent underscore).
  2: { intros Hin. rewrite Forall_forall in Hchars.
       destruct (Hchars _ Hin) as (_ & _ & H). congruence. }
  rewrite Hsplit. change (u " ") with space. rewrite Ej. exact Hstrip.
Qed.
End Clean.

Lemma clean_is_idempotent_witness :
  _clean table (Some (u "  Limoges plate-- de_luxe ")) = u "Limoges plate de luxe"
  /\ _clean table (Some (_clean table (Some (u "  Limoges plate-- de_luxe "))))
     = _clean table (Some (u "  Limoges plate-- de_luxe ")).
Proof.
  split; [reflexivity|].
  apply (@clean_is_idempotent table table_ascii
           (Some (u "  Limoges plate-- de_luxe "))).
Defined.
End ListingNormalizerFacts.

(* ================================================================== *)
(** * The display functions *)
(* ================================================================== *)

Module DisplayFacts.
Import Py PyFacts PyFormat ValuationEngine ValuationEngineFacts.
Import ValuationDisplay.
Import FuzzyMatcherFacts EbayMarketDataFetcherFacts.

(** ** Decimal texts *)

Definition is_digit (c : N) : bool := ((48 <=? c) && (c <=? 57))%N.

Lemma string_of_uint_digits d :
  Forall (fun c => is_digit c = true)
         (u (DecimalString.NilEmpty.string_of_uint d)).
Proof.
  induction d; simpl; constructor; auto.
Qed.

(** [str(n)] is an optional minus sign followed by at least one digit. *)
Lemma str_of_int_digits n :
  exists sign ds,
    str_of_int n = sign ++ ds /\ ds <> [] /\
    Forall (fun c => is_digit c = true) ds.
Proof.
  unfold str_of_int.
  assert (Huint : forall d,
             let ds := u (DecimalString.NilZero.string_of_uint d) in
             ds <> [] /\ Forall (fun c => is_digit c = true) ds).
  { intros d. destruct d; simpl;
      try (split; [discriminate | constructor;
                                  [reflexivity | apply string_of_uint_digits]]).
    split; [discriminate | repeat constructor]. }
  destruct (Z.to_int n) as [d|d]; simpl.
  - exists [], (u (DecimalString.NilZero.string_of_uint d)).
    split; [reflexivity | apply Huint].
  - exists (u "-"), (u (DecimalString.NilZero.string_of_uint d)).
    split; [reflexivity | apply Huint].
Qed.

Lemma digit_is_digit d : is_digit (digit d) = true.
Proof.
  unfold digit, is_digit.
  pose proof (Z.mod_pos_bound d 10 ltac:(lia)) as H.
  apply andb_true_iff. split; apply N.leb_le; lia.
Qed.

Lemma digit_zero d : digit d = 48%N <-> (d mod 10 = 0)%Z.
Proof.
  unfold digit.
  pose proof (Z.mod_pos_bound d 10 ltac:(lia)) as H.
  split; intros E; [lia | rewrite E; reflexivity].
Qed.

(** ** The amount of [format_money] *)

(** The sign and the hundredths of a finite amount: its magnitude times
    100, rounded to the nearest integer (a tie to the even one). *)
Definition hundredths (amount : float) : option (bool * Z) :=
  match Prim2SF amount with
  | S754_zero s => Some (s, 0%Z)
  | S754_finite s m e => Some (s, scaled 2 m e)
  | S754_infinity _ | S754_nan => None
  end.

(** The decimals that remain once trailing zeros are gone. *)
Definition decimals (q : Z) : str :=
  if (q mod 100 =? 0)%Z then []
  else u "." ++ [digit (q / 10)]
         ++ (if (q mod 10 =? 0)%Z then [] else [digit q]).

Lemma format_fixed_hundredths amount s q :
  hundredths amount = Some (s, q) ->
  format_fixed 2 amount
  = (if s then u "-" else []) ++ str_of_int (q / 100)
      ++ [46%N; digit (q / 10); digit q].
Proof.
  unfold hundredths, format_fixed.
  destruct (Prim2SF amount) as [s0|s0| |s0 m e]; try discriminate;
    intros [= <- <-]; unfold fixed, digits; cbn [seq map Nat.sub Z.of_nat];
    change (10 ^ Z.of_nat 2)%Z with 100%Z;
    change (10 ^ 1)%Z with 10%Z; change (10 ^ 0)%Z with 1%Z;
    rewrite ?Z.div_1_r; reflexivity.
Qed.

Lemma rstrip_chars_snoc_keep chars s c :
  existsb (N.eqb c) chars = false ->
  rstrip_chars chars (s ++ [c]) = s ++ [c].
Proof.
  intros H. unfold rstrip_chars, rstrip_by.
  rewrite rev_app_distr. simpl. rewrite H. simpl.
  now rewrite rev_involutive.
Qed.

Lemma rstrip_chars_snoc_drop chars s c :
  existsb (N.eqb c) chars = true ->
  rstrip_chars chars (s ++ [c]) = rstrip_chars chars s.
Proof.
  intros H. unfold rstrip_chars, rstrip_by.
  rewrite rev_app_distr. simpl. now rewrite H.
Qed.

Lemma ends_with_digit sign ds :
  ds <> [] -> Forall (fun c => is_digit c = true) ds ->
  exists body d, sign ++ ds = body ++ [d] /\ is_digit d = true.
Proof.
  intros Hne Hall.
  destruct (exists_last Hne) as (body & d & ->).
  exists (sign ++ body), d. split; [now rewrite app_assoc|].
  rewrite Forall_forall in Hall. apply Hall, in_or_app. right. now left.
Qed.

Lemma amount_text_finite amount s q :
  hundredths amount = Some (s, q) ->
  amount_text amount
  = (if s then u "-" else []) ++ str_of_int (q / 100) ++ decimals q.
Proof.
  intros H. unfold amount_text. rewrite (format_fixed_hundredths _ H).
  destruct (str_of_int_digits (q / 100)) as (sign & ds & -> & Hne & Hds).
  destruct (@ends_with_digit ((if s then u "-" else []) ++ sign) ds Hne Hds)
    as (body & d & Ebody & Hd).
  assert (Etext : forall tail,
             (if s then u "-" else []) ++ (sign ++ ds) ++ tail
             = body ++ [d] ++ tail).
  { intros tail.
    transitivity ((((if s then u "-" else []) ++ sign) ++ ds) ++ tail);
      [now rewrite <- !app_assoc|].
    rewrite Ebody. now rewrite <- app_assoc. }
  rewrite !Etext.
  assert (Hd0 : forall c, is_digit c = true ->
                          existsb (N.eqb c) (u ".") = false).
  { intros c Hc. unfold is_digit in Hc. apply andb_true_iff in Hc.
    destruct Hc as [H1 _]. apply N.leb_le in H1.
    change (u ".") with [46%N]. simpl.
    destruct (N.eqb_spec c 46); [lia | reflexivity]. }
  assert (Hz : forall x, existsb (N.eqb (digit x)) (u "0")
                         = (x mod 10 =? 0)%Z).
  { intros x. change (u "0") with [48%N]. simpl. rewrite orb_false_r.
    destruct (N.eqb_spec (digit x) 48) as [E|E];
      destruct (Z.eqb_spec (x mod 10) 0) as [E'|E']; try reflexivity.
    - apply digit_zero in E. contradiction.
    - apply digit_zero in E'. contradiction. }
  assert (Hnonempty : forall a (c : N) b, truthy (a ++ [c] ++ b) = true).
  { intros a c b. now destruct a. }
  unfold decimals.
  assert (Hq10 : ((q / 10) mod 10 = 0 /\ q mod 10 = 0 <-> q mod 100 = 0)%Z).
  { pose proof (Z.div_mod q 10 ltac:(lia)).
    pose proof (Z.div_mod (q / 10) 10 ltac:(lia)).
    pose proof (Z.mod_pos_bound q 10 ltac:(lia)).
    pose proof (Z.mod_pos_bound (q / 10) 10 ltac:(lia)).
    pose proof (Z.mod_pos_bound q 100 ltac:(lia)).
    pose proof (Z.div_mod q 100 ltac:(lia)).
    lia. }
  destruct (Z.eqb_spec (q mod 10) 0) as [E2|E2].
  - (* the second decimal is a zero *)
    replace (body ++ [d] ++ [46%N; digit (q / 10); digit q])
      with ((body ++ [d] ++ [46%N; digit (q / 10)]) ++ [digit q])
      by now rewrite <- !app_assoc.
    rewrite rstrip_chars_snoc_drop
      by (rewrite Hz; now apply Z.eqb_eq).
    destruct (Z.eqb_spec ((q / 10) mod 10) 0) as [E1|E1].
    + (* so is the first *)
      replace (body ++ [d] ++ [46%N; digit (q / 10)])
        with ((body ++ [d] ++ [46%N]) ++ [digit (q / 10)])
        by now rewrite <- !app_assoc.
      rewrite rstrip_chars_snoc_drop
        by (rewrite Hz; now apply Z.eqb_eq).
      replace (body ++ [d] ++ [46%N]) with ((body ++ [d]) ++ [46%N])
        by now rewrite <- !app_assoc.
      rewrite rstrip_chars_snoc_keep by reflexivity.
      rewrite rstrip_chars_snoc_drop by reflexivity.
      rewrite rstrip_chars_snoc_keep by now apply Hd0.
      replace (q mod 100 =? 0)%Z with true
        by (symmetry; apply Z.eqb_eq; tauto).
      rewrite app_nil_r.
      destruct (body ++ [d]) eqn:E; [now destruct body | reflexivity].
    + replace (body ++ [d] ++ [46%N; digit (q / 10)])
        with ((body ++ [d] ++ [46%N]) ++ [digit (q / 10)])
        by now rewrite <- !app_assoc.
      rewrite rstrip_chars_snoc_keep
        by (rewrite Hz; now apply Z.eqb_neq).
      rewrite rstrip_chars_snoc_keep by (apply Hd0, digit_is_digit).
      replace (q mod 100 =? 0)%Z with false
        by (symmetry; apply Z.eqb_neq; tauto).
      rewrite <- !app_assoc. cbn [app].
      now destruct body.
  - replace (body ++ [d] ++ [46%N; digit (q / 10); digit q])
      with ((body ++ [d] ++ [46%N; digit (q / 10)]) ++ [digit q])
      by now rewrite <- !app_assoc.
    rewrite rstrip_chars_snoc_keep
      by (rewrite Hz; now apply Z.eqb_neq).
    rewrite rstrip_chars_snoc_keep by (apply Hd0, digit_is_digit).
    replace (q mod 100 =? 0)%Z with false
      by (symmetry; apply Z.eqb_neq; tauto).
    rewrite <- !app_assoc. cbn [app].
    now destruct body.
Qed.

(** [format_money] around the text of the amount. *)
Definition with_currency (currency : option str) (value : str) : str :=
  if truthy (symbol_of (or_empty currency))
  then symbol_of (or_empty currency) ++ value
  else if truthy_opt currency then value ++ u " " ++ or_empty currency
  else value.

(** X16. For a finite amount, [format_money] shows the amount rounded
    to hundredths with the trailing zeros of its decimals removed, and
    the decimal point too when no decimal is left; the digits before
    the point are never touched (100 stays "100", 12.50 becomes "12.5").
    The symbol of a known currency goes in front, the code of an unknown
    one behind. *)
Theorem format_money_trims_decimals
        (amount : float) (currency : option str) (s : bool) (q : Z) :
  hundredths amount = Some (s, q) ->
  format_money (Some amount) currency
  = with_currency currency
      ((if s then u "-" else []) ++ str_of_int (q / 100) ++ decimals q).
Proof.
  intros H. unfold format_money, with_currency.
  now rewrite (amount_text_finite _ H).
Qed.

Lemma format_money_trims_decimals_witness :
  format_money (Some 100%float) (Some (u "USD")) = u "$100" /\
  format_money (Some 12.5%float) (Some (u "SEK")) = u "12.5 SEK" /\
  format_money (Some 0.125%float) None = u "0.12".
Proof.
  split; [|split].
  - apply (@format_money_trims_decimals 100%float (Some (u "USD"))
                                        false 10000%Z).
    reflexivity.
  - apply (@format_money_trims_decimals 12.5%float (Some (u "SEK"))
                                        false 1250%Z).
    reflexivity.
  - apply (@format_money_trims_decimals 0.125%float None false 12%Z).
    reflexivity.
Defined.

(** ** The profit line *)

Section Evaluate.
Variable pstdev : list float -> float.
Variable self : ValuationEngine.t.

(** X17. For a valuation that [evaluate] returned without a profit,
    the profit line always names the reason: "n/a (no comps)" when the
    sold summary is empty, and otherwise "n/a (currency mismatch)",
    the comps being priced in another currency than the item. The
    bare "n/a" is never shown. *)
Theorem profit_line_names_the_reason
        (title brand : option str) (price : float) (currency : str)
        (base_search_text : option str)
        (fuzzy_result : option FuzzyResult.t) (r : ValuationResult.t) :
  evaluate pstdev self title brand price currency base_search_text
           fuzzy_result = Ok r ->
  ValuationResult.profit r = None ->
  (MarketSummary.sample_size (ValuationResult.sold_summary r) = 0%Z /\
   format_profit_estimate r = u "n/a (no comps)")
  \/ (MarketSummary.sample_size (ValuationResult.sold_summary r) <> 0%Z /\
      currency_mismatch (ValuationResult.sold_summary r) currency /\
      format_profit_estimate r = u "n/a (currency mismatch)").
Proof.
  intros Hr Hnone.
  destruct (evaluate_result _ _ _ _ _ _ _ _ Hr)
    as (_ & Hcur & Hprofit & Hsummary).
  unfold format_profit_estimate. rewrite Hnone, Hcur.
  destruct (Z.eqb_spec
              (MarketSummary.sample_size (ValuationResult.sold_summary r))
              0) as [E|E]; [now left|].
  right. split; [exact E|].
  assert (Hmed : exists med,
             MarketSummary.median (ValuationResult.sold_summary r)
             = Some med).
  { destruct Hsummary as [Hd|(comps & Hc)].
    - rewrite Hd in E. now elim E.
    - destruct (_summarize_median _ _ Hc E) as (med & Hm & _). eauto. }
  destruct Hmed as (med & Hmed).
  assert (Hfst : fst (fst (_estimate_profit
                             (ValuationResult.sold_summary r)
                             price currency)) = None).
  { now rewrite <- Hprofit. }
  apply estimate_profit_none in Hfst.
  destruct Hfst as [H|[H|H]]; [contradiction | congruence |].
  split; [exact H|].
  apply mismatch_test in H. now rewrite H.
Qed.

(** The sign that the profit line puts in front of the amount. *)
Definition sign_of (profit : float) : str :=
  if (0 <? profit)%float then u "+"
  else if (profit <? 0)%float then u "-"
  else [].

(** X18. For a valuation that [evaluate] returned with a profit, the
    profit line shows the signed magnitude of the profit in the item's
    own currency (never in another one), followed by the multiple,
    with one decimal, when the item price is positive and the multiple
    is. *)
Theorem profit_line_in_item_currency
        (title brand : option str) (price : float) (currency : str)
        (base_search_text : option str)
        (fuzzy_result : option FuzzyResult.t) (r : ValuationResult.t)
        (profit : float) :
  evaluate pstdev self title brand price currency base_search_text
           fuzzy_result = Ok r ->
  ValuationResult.profit r = Some profit ->
  format_profit_estimate r
  = sign_of profit
      ++ format_money (Some (PrimFloat.abs profit)) (Some currency)
      ++ match ValuationResult.profit_multiple r with
         | Some multiple =>
             if float_truthy multiple && (0 <? multiple)%float
             then u " (" ++ format_fixed 1 multiple ++ u "x)"
             else []
         | None => []
         end.
Proof.
  intros Hr Hsome.
  destruct (evaluate_result _ _ _ _ _ _ _ _ Hr)
    as (_ & Hcur & Hprofit & _).
  assert (Hpc : (if truthy_opt (ValuationResult.profit_currency r)
                 then or_empty (ValuationResult.profit_currency r)
                 else ValuationResult.item_currency r) = currency).
  { rewrite Hcur.
    assert (Hne : fst (fst (_estimate_profit
                              (ValuationResult.sold_summary r)
                              price currency)) <> None).
    { rewrite <- Hprofit. cbn. congruence. }
    assert (Hno : ~ currency_mismatch (ValuationResult.sold_summary r)
                    currency).
    { intros Hm. apply Hne. apply estimate_profit_none. auto. }
    assert (Hmed : exists med,
               MarketSummary.median (ValuationResult.sold_summary r)
               = Some med).
    { destruct (MarketSummary.median (ValuationResult.sold_summary r))
        as [med|] eqn:E; [eauto|].
      exfalso. apply Hne. apply estimate_profit_none. auto. }
    destruct Hmed as (med & Hmed).
    pose proof (estimate_profit_value _ _ _ Hmed Hne) as Hv.
    rewrite <- Hprofit in Hv. injection Hv as _ Hpc _.
    rewrite Hpc.
    destruct (MarketSummary.currency (ValuationResult.sold_summary r))
      as [[|c code]|] eqn:Ec; cbn [truthy_opt or_empty];
      try (now destruct currency).
    destruct (str_eq_dec (c :: code) currency) as [E|E]; [exact E|].
    exfalso. apply Hno. exists (c :: code).
    split; [exact Ec|]. split; [discriminate | exact E]. }
  unfold format_profit_estimate, sign_of.
  rewrite Hsome, Hpc.
  destruct (0 <? profit)%float; [|destruct (profit <? 0)%float];
    destruct (ValuationResult.profit_multiple r) as [m|];
    try destruct (float_truthy m && (0 <? m)%float);
    rewrite <- ?app_assoc, ?app_nil_r; reflexivity.
Qed.
End Evaluate.

Lemma profit_line_names_the_reason_witness :
  exists r,
    evaluate (fun _ => 0%float)
             (engine_with
                (Some (fetcher_returning
                         [sold_in (u "USD") 40; sold_in (u "USD") 60])))
             (Some (u "plate")) None 25 (u "EUR") None None = Ok r /\
    format_profit_estimate r = u "n/a (currency mismatch)".
Proof.
  eexists. split; [vm_compute; reflexivity|].
  match goal with
  | |- format_profit_estimate ?r = _ =>
      destruct (@profit_line_names_the_reason
                  (fun _ => 0%float)
                  (engine_with
                     (Some (fetcher_returning
                              [sold_in (u "USD") 40; sold_in (u "USD") 60])))
                  (Some (u "plate")) None 25%float (u "EUR") None None r
                  eq_refl eq_refl)
        as [[H _]|(_ & _ & H)]
  end.
  - vm_compute in H. discriminate.
  - exact H.
Defined.

Lemma profit_line_in_item_currency_witness :
  exists r,
    evaluate (fun _ => 0%float)
             (engine_with
                (Some (fetcher_returning
                         [sold_in (u "EUR") 40; sold_in (u "EUR") 60])))
             (Some (u "plate")) None 25 (u "EUR") None None = Ok r /\
    format_profit_estimate r
    = u "+" ++ symbol_of (u "EUR") ++ u "25 (2.0x)".
Proof.
  eexists. split; [vm_compute; reflexivity|].
  match goal with
  | |- format_profit_estimate ?r = _ =>
      rewrite (@profit_line_in_item_currency
                 (fun _ => 0%float)
                 (engine_with
                    (Some (fetcher_returning
                             [sold_in (u "EUR") 40; sold_in (u "EUR") 60])))
                 (Some (u "plate")) None 25%float (u "EUR") None None r
                 25%float eq_refl eq_refl)
  end.
  vm_compute. reflexivity.
Defined.

(** ** The reference line *)

Definition has_image (comp : ListingComp.t) : bool :=
  truthy_opt (ListingComp.image comp).
Definition has_url (comp : ListingComp.t) : bool :=
  truthy_opt (ListingComp.url comp).

Lemma find_first (A : Type) (f : A -> bool) before x after :
  Forall (fun y => f y = false) before -> f x = true ->
  find f (before ++ x :: after) = Some x.
Proof.
  intros Hb Hx. induction Hb as [|y before Hy _ IH]; simpl.
  - now rewrite Hx.
  - now rewrite Hy.
Qed.

Lemma find_none (A : Type) (f : A -> bool) l :
  find f l = None <-> Forall (fun y => f y = false) l.
Proof.
  induction l as [|y l IH]; simpl.
  - split; [constructor | reflexivity].
  - destruct (f y) eqn:E.
    + split; [discriminate|]. intros H. inversion H; congruence.
    + rewrite IH. split; [now constructor | now inversion 1].
Qed.

(** X19. The reference line shows the image of the first sold comp that
    has one, wherever it stands and whatever links come before it; only
    when no sold comp has an image does it show the first link; and it
    is empty exactly when the sold comps have neither. *)
Theorem reference_prefers_images (result : ValuationResult.t) :
  (forall before comp after,
      ValuationResult.sold_comps result = before ++ comp :: after ->
      Forall (fun c => has_image c = false) before ->
      has_image comp = true ->
      build_reference_line result
      = REFERENCE_PREFIX ++ or_empty (ListingComp.image comp)) /\
  (forall before comp after,
      ValuationResult.sold_comps result = before ++ comp :: after ->
      Forall (fun c => has_image c = false)
             (ValuationResult.sold_comps result) ->
      Forall (fun c => has_url c = false) before ->
      has_url comp = true ->
      build_reference_line result
      = REFERENCE_PREFIX ++ or_empty (ListingComp.url comp)) /\
  (build_reference_line result = [] <->
   Forall (fun c => has_image c = false /\ has_url c = false)
          (ValuationResult.sold_comps result)).
Proof.
  unfold build_reference_line.
  fold has_image. fold has_url.
  split; [|split].
  - intros before comp after -> Hb Hc.
    now rewrite (find_first has_image _ _ Hb Hc).
  - intros before comp after E Hnone Hb Hc.
    apply find_none in Hnone. rewrite Hnone.
    rewrite E. now rewrite (find_first has_url _ _ Hb Hc).
  - assert (Hprefix : forall text, REFERENCE_PREFIX ++ text <> [])
      by (intros text; discriminate).
    destruct (find has_image (ValuationResult.sold_comps result))
      as [comp|] eqn:Ei.
    + split; [intros H; now apply Hprefix in H|].
      intros H. apply find_some in Ei. destruct Ei as [Hin Hc].
      rewrite Forall_forall in H. destruct (H _ Hin). congruence.
    + destruct (find has_url (ValuationResult.sold_comps result))
        as [comp|] eqn:Eu.
      * split; [intros H; now apply Hprefix in H|].
        intros H. apply find_some in Eu. destruct Eu as [Hin Hc].
        rewrite Forall_forall in H. destruct (H _ Hin). congruence.
      * split; [|reflexivity]. intros _.
        apply find_none in Ei. apply find_none in Eu.
        rewrite Forall_forall in *. auto.
Qed.

(** ** The fuzzy line *)

Section FuzzyLine.
Variable transliterate : N -> str.
Variable lower : str -> str.
Variable float_of_str : str -> option float.
Variable float_of_int : Z -> option float.

Abbreviation normalize :=
  (ListingNormalizer.normalize transliterate lower
                               float_of_str float_of_int).
Abbreviation chosen_term := ListingNormalizerFacts.chosen_term.
Abbreviation usable_score :=
  (ListingNormalizerFacts.usable_score float_of_str float_of_int).

(** The term between quotation marks, or the word "match". *)
Definition quoted (term : option str) : str :=
  match term with
  | Some t => OPEN_QUOTE ++ t ++ CLOSE_QUOTE
  | None => u "match"
  end.

(** X20. The fuzzy line of a normalized listing. Where the listing
    has no usable fuzzy score (no fuzzy result or an empty one, or a
    score that is missing or that [float()] rejects), the line is the
    quoted term alone, the term being the fuzzy target or else the
    base search text, and "No fuzzy match" when there is no term.
    Where it has a score, the line raises exactly when the score has
    no integer rounding (NaN or an infinity); otherwise it shows the
    quoted term (or "match"), the rounded score and one of the three
    quality words: the form without a quality word never occurs. *)
Theorem fuzzy_line_of_normalized_listing
        (title brand base_search_text : option str)
        (fuzzy_result : option ListingNormalizer.FuzzyDict)
        (r : NormalizationResult.t) :
  normalize title brand base_search_text fuzzy_result = Ok r ->
  let line := format_fuzzy_line r in
  let term := chosen_term base_search_text fuzzy_result in
  match usable_score fuzzy_result with
  | None =>
      line = Ok (match term with
                 | Some _ => quoted term
                 | None => u "No fuzzy match"
                 end)
  | Some score =>
      match round score with
      | Ok n =>
          exists suffix,
            In suffix [u ", canonical)"; u ", likely)"; u ", loose)"] /\
            line = Ok (quoted term ++ u " ("
                         ++ (u "score " ++ str_of_int n) ++ suffix)
      | Raise e => line = Raise e
      end
  end.
Proof.
  intros Hr.
  destruct (@ListingNormalizerFacts.normalize_fields
              transliterate lower float_of_str float_of_int
              _ _ _ _ _ Hr)
    as (Hterm & Hscore & Hquality & _).
  cbv zeta in *. unfold format_fuzzy_line.
  rewrite Hterm, Hscore, Hquality. clear Hterm Hscore Hquality.
  assert (Htruthy :
    forall t, chosen_term base_search_text fuzzy_result = Some t ->
              truthy_opt (Some t) = true).
  { intros t Ht.
    destruct (ListingNormalizerFacts.chosen_term_trimmed _ _ Ht)
      as [Hne _].
    now destruct t. }
  destruct (usable_score fuzzy_result) as [score|].
  - destruct (chosen_term base_search_text fuzzy_result) as [t|] eqn:Et.
    + rewrite (Htruthy t eq_refl). cbn [or_empty quoted].
      destruct (round score) as [n|e]; cbn [bind]; [|reflexivity].
      unfold ListingNormalizer.quality_of.
      destruct (90 <=? score)%float;
        [|destruct ((82 <=? score)%float && (score <=? 89)%float)].
      * exists (u ", canonical)"). split; [now left | reflexivity].
      * exists (u ", likely)"). split; [right; now left | reflexivity].
      * exists (u ", loose)").
        split; [right; right; now left | reflexivity].
    + cbn [truthy_opt quoted].
      destruct (round score) as [n|e]; cbn [bind]; [|reflexivity].
      unfold ListingNormalizer.quality_of.
      destruct (90 <=? score)%float;
        [|destruct ((82 <=? score)%float && (score <=? 89)%float)].
      * exists (u ", canonical)"). split; [now left | reflexivity].
      * exists (u ", likely)"). split; [right; now left | reflexivity].
      * exists (u ", loose)").
        split; [right; right; now left | reflexivity].
  - destruct (chosen_term base_search_text fuzzy_result) as [t|] eqn:Et.
    + now rewrite (Htruthy t eq_refl).
    + reflexivity.
Qed.
End FuzzyLine.

(** A fuzzy result that has a target and no score gives the quoted
    target alone; one with the score 89.5 is "loose". *)
Lemma fuzzy_line_of_normalized_listing_witness :
  (exists r,
     ListingNormalizer.normalize
       table lower_text read_price no_overflow
       (Some (u "t")) None None
       (Some (ListingNormalizerFacts.target_only (u "x"))) = Ok r /\
     format_fuzzy_line r = Ok (OPEN_QUOTE ++ u "x" ++ CLOSE_QUOTE)) /\
  (exists r,
     ListingNormalizer.normalize
       table lower_text read_price no_overflow
       (Some (u "t")) None None
       (Some [(u "target", Json.Str (u "x"));
              (u "score", Json.Float 89.5)]) = Ok r /\
     format_fuzzy_line r
     = Ok (OPEN_QUOTE ++ u "x" ++ CLOSE_QUOTE ++ u " (score 90, loose)")).
Proof.
  split.
  - eexists. split; [reflexivity|].
    apply (@fuzzy_line_of_normalized_listing
             table lower_text read_price no_overflow
             (Some (u "t")) None None
             (Some (ListingNormalizerFacts.target_only (u "x")))).
    reflexivity.
  - eexists. split; [reflexivity|].
    vm_compute. reflexivity.
Defined.
End DisplayFacts.

(* ================================================================== *)
(** * More about the fuzzy matcher *)
(* ================================================================== *)

Module FuzzyMatcherProperties.
Import Py PyFacts FuzzyMatcher FuzzyMatcherFacts.

(** ** Query names *)

Lemma contains_absent a sub s : ~ In a s -> contains (a :: sub) s = false.
Proof.
  induction s as [|c s IH]; intros Hn; simpl; [reflexivity|].
  destruct (N.eqb_spec a c) as [->|Hac].
  - exfalso. apply Hn. now left.
  - simpl. apply IH. intros Hin. apply Hn. now right.
Qed.

Lemma contains_split_once sep s :
  contains sep s = true -> exists a b, split_once sep s = Some (a, b).
Proof.
  induction s as [|c s IH]; simpl.
  - rewrite orb_false_r. intros ->. eauto.
  - destruct (prefixb sep (c :: s)); simpl; [eauto|].
    intros H. destruct (IH H) as (a & b & ->). eauto.
Qed.

(** A component of a decoded name: absent, or a trimmed text that is
    not empty. *)
Definition component (c : option str) : Prop :=
  forall text, c = Some text -> text <> [] /\ strip text = text.

Lemma or_none_component s : component (or_none (strip s)).
Proof.
  intros text H. destruct (strip s) as [|c t] eqn:E; [discriminate|].
  simpl in H. injection H as <-. split; [discriminate|].
  rewrite <- E. apply strip_idem.
Qed.

(** X21. Whatever is stored, [decode_query_name] never hands out an
    empty or untrimmed text: each of the two components is absent or a
    trimmed, non-empty text. A base search text comes out only of a
    stored value that contains the delimiter; a missing or empty stored
    value decodes to nothing at all. *)
Theorem decode_query_name_components (raw_value : option str) :
  component (fst (decode_query_name raw_value)) /\
  component (snd (decode_query_name raw_value)) /\
  (snd (decode_query_name raw_value) <> None ->
   contains QUERY_NAME_DELIMITER (or_empty raw_value) = true) /\
  (or_empty raw_value = [] -> decode_query_name raw_value = (None, None)).
Proof.
  unfold decode_query_name.
  assert (Hnone : component None) by (intros text H; discriminate).
  destruct raw_value as [[|c raw]|]; cbn [or_empty fst snd].
  1, 3: split; [exact Hnone|]; split; [exact Hnone|];
    split; [intros H; now elim H | reflexivity].
  destruct (contains QUERY_NAME_DELIMITER (c :: raw)) eqn:E.
  - destruct (contains_split_once _ _ E) as (a & b & ->). cbn [fst snd].
    split; [apply or_none_component|]. split; [apply or_none_component|].
    split; [reflexivity | discriminate].
  - cbn [fst snd]. split; [apply or_none_component|].
    split; [exact Hnone|].
    split; [intros H; now elim H | discriminate].
Qed.

(** X22. A name stored without a base search text comes back whole: for
    a display name without the character '|' and a base that is missing
    or blank, the stored value is the trimmed name (nothing is stored
    for a blank name), and decoding it gives that name and no base. *)
Theorem name_only_round_trip (display_name base_search_text : option str) :
  ~ In pipe (or_empty display_name) ->
  ~ In pipe (or_empty base_search_text) ->
  strip (or_empty base_search_text) = [] ->
  encode_query_name display_name base_search_text
    = or_none (strip (or_empty display_name)) /\
  decode_query_name (encode_query_name display_name base_search_text)
    = (or_none (strip (or_empty display_name)), None).
Proof.
  intros Hd Hb Hblank.
  assert (Henc : encode_query_name display_name base_search_text
                 = or_none (strip (or_empty display_name))).
  { unfold encode_query_name.
    assert (Hcb : clean_name base_search_text = []).
    { destruct base_search_text as [b|]; [|reflexivity].
      rewrite clean_name_plain by exact Hb. exact Hblank. }
    assert (Hcd : clean_name display_name = strip (or_empty display_name)).
    { destruct display_name as [d|]; [|reflexivity].
      now rewrite clean_name_plain by exact Hd. }
    rewrite Hcb, Hcd. cbn [truthy].
    now destruct (strip (or_empty display_name)). }
  split; [exact Henc|]. rewrite Henc.
  destruct (strip (or_empty display_name)) as [|c t] eqn:E;
    [reflexivity|].
  assert (Hs : strip (c :: t) = c :: t).
  { rewrite <- E. apply strip_idem. }
  cbn [or_none]. unfold decode_query_name.
  rewrite delimiter_pipes, contains_absent.
  - now rewrite Hs.
  - rewrite <- E. intros Hin. apply Hd. now apply strip_In.
Qed.

Lemma name_only_round_trip_witness :
  encode_query_name (Some (u "  Limoges plates ")) (Some (u " "))
    = Some (u "Limoges plates") /\
  decode_query_name
    (encode_query_name (Some (u "  Limoges plates ")) (Some (u " ")))
    = (Some (u "Limoges plates"), None).
Proof.
  apply (@name_only_round_trip (Some (u "  Limoges plates "))
                               (Some (u " "))).
  - vm_compute. intuition discriminate.
  - vm_compute. intuition discriminate.
  - reflexivity.
Defined.

(** ** Matching *)

Section Matching.
Variable transliterate : N -> str.
Variable lower : str -> str.
Variable token_set_ratio : str -> str -> float.

Abbreviation _normalize_text := (_normalize_text transliterate lower).
Abbreviation _build_fuzzy_targets :=
  (_build_fuzzy_targets transliterate lower).
Abbreviation extractOne := (extractOne token_set_ratio).
Abbreviation consider := (consider transliterate lower token_set_ratio).
Abbreviation find_best_fuzzy_match :=
  (find_best_fuzzy_match transliterate lower token_set_ratio).

(** The better of two matches, the first one on a tie. *)
Definition better (a b : option FuzzyResult.t) : option FuzzyResult.t :=
  match a, b with
  | Some x, Some y =>
      if (FuzzyResult.score x <? FuzzyResult.score y)%float then b else a
  | Some _, None => a
  | None, _ => b
  end.

Lemma consider_nothing targets threshold best source :
  consider targets threshold best source None = best.
Proof. reflexivity. Qed.

Lemma consider_after targets threshold best source candidate :
  consider targets threshold best source candidate
  = better best (consider targets threshold None source candidate).
Proof.
  unfold FuzzyMatcher.consider.
  destruct (truthy (_normalize_text candidate)); cbn [negb].
  2: { now destruct best. }
  destruct (extractOne _ _) as [[choice score]|]; [|now destruct best].
  destruct (score <? threshold)%float; [now destruct best|].
  destruct best as [b|]; [|reflexivity].
  cbn [better FuzzyResult.score].
  now destruct (FuzzyResult.score b <? score)%float.
Qed.

Lemma consider_source targets threshold source candidate r :
  consider targets threshold None source candidate = Some r ->
  FuzzyResult.source r = source.
Proof.
  unfold FuzzyMatcher.consider.
  destruct (truthy (_normalize_text candidate)); cbn [negb];
    [|discriminate].
  destruct (extractOne _ _) as [[choice score]|]; [|discriminate].
  destruct (score <? threshold)%float; [discriminate|].
  now intros [= <-].
Qed.

(** X23. Matching the title and the brand together gives the better of
    the two matches found when each is tried alone, and on equal
    scores the title's match: the brand replaces it only with a
    strictly higher score. A match found on the title alone is marked
    "title", one found on the brand alone "brand". *)
Theorem title_wins_ties
        (base_search_text title brand : option str) (threshold : float) :
  find_best_fuzzy_match base_search_text title brand threshold
  = better (find_best_fuzzy_match base_search_text title None threshold)
           (find_best_fuzzy_match base_search_text None brand threshold)
  /\ (forall r,
         find_best_fuzzy_match base_search_text title None threshold
           = Some r ->
         FuzzyResult.source r = u "title")
  /\ (forall r,
         find_best_fuzzy_match base_search_text None brand threshold
           = Some r ->
         FuzzyResult.source r = u "brand").
Proof.
  unfold FuzzyMatcher.find_best_fuzzy_match.
  destruct base_search_text as [[|c base]|];
    try (repeat split; discriminate).
  destruct (_build_fuzzy_targets (c :: base)) as [|t0 targets];
    [repeat split; discriminate|].
  rewrite !consider_nothing.
  split; [apply consider_after|].
  split; intros r; apply consider_source.
Qed.

(** *** The target of a match *)

(** An entry of the targets: the whole phrase, or one of its normalized
    words of four characters or more, standing for itself. *)
Definition target_entry (base : str) (kv : str * str) : Prop :=
  snd kv = strip base \/
  (snd kv = fst kv /\
   In (fst kv) (split (_normalize_text (Some base))) /\
   4 <= length (fst kv)).

Lemma build_fuzzy_targets_entries base :
  Forall (target_entry base) (_build_fuzzy_targets base).
Proof.
  unfold FuzzyMatcher._build_fuzzy_targets.
  destruct (truthy (_normalize_text (Some base))); [|constructor].
  set (tokens := split (_normalize_text (Some base))).
  assert (Hgen : forall seen acc,
             (forall t, In t seen -> In t tokens) ->
             Forall (target_entry base) acc ->
             Forall (target_entry base)
               (fold_left
                  (fun targets token =>
                     if (4 <=? length token)%nat
                        && negb (has_target token targets)
                     then targets ++ [(token, token)]
                     else targets)
                  seen acc)).
  { induction seen as [|t seen IH]; intros acc Hsub Hacc; cbn [fold_left];
      [exact Hacc|].
    apply IH; [intros x Hx; apply Hsub; now right|].
    destruct (Nat.leb_spec 4 (length t)) as [H4|H4]; cbn [andb];
      [|exact Hacc].
    destruct (negb (has_target t acc)); [|exact Hacc].
    apply Forall_app. split; [exact Hacc|].
    constructor; [|constructor].
    right. cbn [fst snd]. split; [reflexivity|].
    split; [apply Hsub; now left | exact H4]. }
  apply Hgen; [auto|].
  constructor; [|constructor]. now left.
Qed.

Lemma extractOne_member query choices best c s :
  fold_left
    (fun best choice =>
       let score := token_set_ratio query choice in
       match best with
       | None => Some (choice, score)
       | Some (_, top) =>
           if (top <? score)%float then Some (choice, score) else best
       end)
    choices best = Some (c, s) ->
  best = Some (c, s) \/ In c choices.
Proof.
  revert best. induction choices as [|x choices IH]; intros best; simpl.
  - now left.
  - intros H. apply IH in H. destruct H as [H|H]; [|now right; right].
    destruct best as [[c0 top]|].
    + destruct (top <? token_set_ratio query x)%float.
      * injection H as <- _. right. now left.
      * now left.
    + injection H as <- _. right. now left.
Qed.

Lemma target_of_entry base choice :
  In choice (map fst (_build_fuzzy_targets base)) ->
  target_of choice (_build_fuzzy_targets base) = strip base \/
  (target_of choice (_build_fuzzy_targets base) = choice /\
   In choice (split (_normalize_text (Some base))) /\
   4 <= length choice).
Proof.
  intros Hin. unfold target_of.
  destruct (find _ _) as [kv|] eqn:E.
  - apply find_some in E. destruct E as [Hkv Hk].
    apply str_eqb_true in Hk.
    pose proof (build_fuzzy_targets_entries base) as Hall.
    rewrite Forall_forall in Hall.
    destruct (Hall _ Hkv) as [H|(H1 & H2 & H3)]; [now left|].
    right. rewrite H1, Hk in *. auto.
  - exfalso. apply in_map_iff in Hin. destruct Hin as (kv & <- & Hkv).
    pose proof (find_none _ _ E _ Hkv) as Hn. cbn in Hn.
    now rewrite str_eqb_refl in Hn.
Qed.

Lemma consider_fields base threshold source candidate r :
  consider (_build_fuzzy_targets base) threshold None source candidate
    = Some r ->
  (FuzzyResult.target r = strip base \/
   (In (FuzzyResult.target r) (split (_normalize_text (Some base))) /\
    4 <= length (FuzzyResult.target r))) /\
  (FuzzyResult.score r <? threshold)%float = false /\
  exists text,
    candidate = Some text /\
    FuzzyResult.source_text r = Some (strip text) /\
    exists choice,
      In choice (map fst (_build_fuzzy_targets base)) /\
      FuzzyResult.score r
        = token_set_ratio (_normalize_text candidate) choice.
Proof.
  unfold FuzzyMatcher.consider.
  destruct (truthy (_normalize_text candidate)) eqn:Et; cbn [negb];
    [|discriminate].
  destruct (extractOne _ _) as [[choice score]|] eqn:Ex; [|discriminate].
  unfold FuzzyMatcher.extractOne in Ex.
  pose proof Ex as Hscore.
  apply extractOne_member in Ex. destruct Ex as [Ex|Hin]; [discriminate|].
  destruct (score <? threshold)%float eqn:El; [discriminate|].
  intros [= <-]. cbn [FuzzyResult.target FuzzyResult.score
                        FuzzyResult.source_text].
  split.
  { destruct (target_of_entry base choice Hin) as [H|(H1 & H2 & H3)];
      [now left|]. right. now rewrite H1. }
  split; [exact El|].
  destruct candidate as [[|c text]|]; try discriminate.
  exists (c :: text). split; [reflexivity|]. split; [reflexivity|].
  exists choice. split; [exact Hin|].
  clear - Hscore Hin.
  set (q := _normalize_text (Some (c :: text))) in *.
  assert (Hgen : forall choices best c0 s0,
             fold_left
               (fun best choice =>
                  let score := token_set_ratio q choice in
                  match best with
                  | None => Some (choice, score)
                  | Some (_, top) =>
                      if (top <? score)%float
                      then Some (choice, score) else best
                  end)
               choices best = Some (c0, s0) ->
             (forall c1 s1, best = Some (c1, s1) ->
                            s1 = token_set_ratio q c1) ->
             s0 = token_set_ratio q c0).
  { induction choices as [|x choices IH]; intros best c0 s0; simpl.
    - intros -> H. now apply H.
    - intros H Hb. apply IH in H; [exact H|].
      intros c1 s1. destruct best as [[c2 top]|].
      + destruct (top <? token_set_ratio q x)%float.
        * now intros [= <- <-].
        * apply Hb.
      + now intros [= <- <-]. }
  apply (Hgen _ _ _ _ Hscore). discriminate.
Qed.

(** X24. What a match says. Its source is "title" or "brand"; its
    score is not below the threshold and is the score of that field's
    normalized text against one of the targets; its target is the
    trimmed base search text or one of the normalized words of that
    text with four characters or more; and its source text is the
    trimmed title or brand. *)
Theorem match_describes_its_source
        (base : str) (title brand : option str) (threshold : float)
        (r : FuzzyResult.t) :
  find_best_fuzzy_match (Some base) title brand threshold = Some r ->
  (FuzzyResult.target r = strip base \/
   (In (FuzzyResult.target r) (split (_normalize_text (Some base))) /\
    4 <= length (FuzzyResult.target r))) /\
  (FuzzyResult.score r <? threshold)%float = false /\
  exists candidate text,
    (FuzzyResult.source r = u "title" /\ candidate = title \/
     FuzzyResult.source r = u "brand" /\ candidate = brand) /\
    candidate = Some text /\
    FuzzyResult.source_text r = Some (strip text) /\
    exists choice,
      In choice (map fst (_build_fuzzy_targets base)) /\
      FuzzyResult.score r
        = token_set_ratio (_normalize_text candidate) choice.
Proof.
  unfold FuzzyMatcher.find_best_fuzzy_match.
  destruct base as [|c base]; [discriminate|].
  destruct (_build_fuzzy_targets (c :: base)) as [|t0 targets] eqn:Et;
    [discriminate|].
  rewrite <- Et. rewrite consider_after.
  destruct (consider (_build_fuzzy_targets (c :: base)) threshold None
                     (u "title") title) as [t|] eqn:E1;
    destruct (consider (_build_fuzzy_targets (c :: base)) threshold None
                       (u "brand") brand) as [b|] eqn:E2;
    cbn [better]; try discriminate.
  - destruct (FuzzyResult.score t <? FuzzyResult.score b)%float;
      intros [= <-].
    + destruct (consider_fields _ _ _ _ E2)
        as (H1 & H2 & text & Hc & Hst & Hch).
      split; [exact H1|]. split; [exact H2|].
      exists brand, text. split; [right|auto].
      split; [now apply consider_source in E2 | reflexivity].
    + destruct (consider_fields _ _ _ _ E1)
        as (H1 & H2 & text & Hc & Hst & Hch).
      split; [exact H1|]. split; [exact H2|].
      exists title, text. split; [left|auto].
      split; [now apply consider_source in E1 | reflexivity].
  - intros [= <-].
    destruct (consider_fields _ _ _ _ E1)
      as (H1 & H2 & text & Hc & Hst & Hch).
    split; [exact H1|]. split; [exact H2|].
    exists title, text. split; [left|auto].
    split; [now apply consider_source in E1 | reflexivity].
  - intros [= <-].
    destruct (consider_fields _ _ _ _ E2)
      as (H1 & H2 & text & Hc & Hst & Hch).
    split; [exact H1|]. split; [exact H2|].
    exists brand, text. split; [right|auto].
    split; [now apply consider_source in E2 | reflexivity].
Qed.
End Matching.

Lemma match_describes_its_source_witness :
  exists r,
    find_best_fuzzy_match table lower_text exact_ratio
      (Some (u " Limoges plate ")) (Some (u "Vase")) (Some (u " LIMOGES "))
      DEFAULT_FUZZY_THRESHOLD = Some r /\
    FuzzyResult.source r = u "brand" /\
    FuzzyResult.target r = u "limoges" /\
    FuzzyResult.source_text r = Some (u "LIMOGES") /\
    (FuzzyResult.target r = strip (u " Limoges plate ") \/
     (In (FuzzyResult.target r)
         (split (_normalize_text table lower_text
                                 (Some (u " Limoges plate ")))) /\
      4 <= length (FuzzyResult.target r))).
Proof.
  eexists. split; [vm_compute; reflexivity|].
  split; [reflexivity|]. split; [reflexivity|]. split; [reflexivity|].
  match goal with
  | |- FuzzyResult.target ?r = _ \/ _ =>
      apply (@match_describes_its_source
               table lower_text exact_ratio (u " Limoges plate ")
               (Some (u "Vase")) (Some (u " LIMOGES "))
               DEFAULT_FUZZY_THRESHOLD r)
  end.
  vm_compute. reflexivity.
Defined.

(** ** Normalization *)

Section Normalize.
Variable transliterate : N -> str.
Variable lower : str -> str.
Hypothesis transliterate_ascii : forall c, ascii_text (transliterate c).
Hypothesis lower_ascii :
  forall s, ascii_text s -> lower s = map ascii_lower s.

Abbreviation _normalize_text := (_normalize_text transliterate lower).

Lemma normalize_text_trimmed (text : option str) :
  strip (_normalize_text text) = _normalize_text text.
Proof.
  destruct text as [[|c0 text]|]; try reflexivity.
  rewrite (@normalize_words transliterate lower transliterate_ascii
                            lower_ascii (c0 :: text)).
  pose proof (@folded_tokens transliterate transliterate_ascii
                             (c0 :: text)) as Htok.
  destruct (split (folded transliterate (c0 :: text))) as [|t ts];
    [reflexivity|].
  now destruct (@normalize_joined transliterate lower
                                  transliterate_ascii lower_ascii
                                  _ _ Htok).
Qed.

(** X25. For a transliteration table with ASCII entries and a
    [str.lower] that is the ASCII one on ASCII text, [_normalize_text]
    yields text in one fixed form: words separated by single blanks,
    with no upper-case letter, hyphen, underscore, ampersand or
    apostrophe, and nothing outside ASCII. Normalizing such a text
    again changes nothing. *)
Theorem normalize_text_is_idempotent (text : option str) :
  _normalize_text (Some (_normalize_text text)) = _normalize_text text /\
  strip (_normalize_text text) = _normalize_text text /\
  join space (split (_normalize_text text)) = _normalize_text text /\
  Forall (fun c => c = 32%N \/ plain c = true) (_normalize_text text).
Proof.
  assert (Hempty : FuzzyMatcher._normalize_text transliterate lower
                     (Some []) = []) by reflexivity.
  destruct text as [[|c0 text]|];
    try (repeat split; (reflexivity || constructor)).
  rewrite (@normalize_words transliterate lower transliterate_ascii
                            lower_ascii (c0 :: text)).
  pose proof (@folded_tokens transliterate transliterate_ascii (c0 :: text)) as Htok.
  destruct (split (folded transliterate (c0 :: text))) as [|t ts].
  - repeat split; (reflexivity || constructor).
  - destruct (@normalize_joined transliterate lower transliterate_ascii
                                lower_ascii _ _ Htok)
      as [Hn Hs].
    split; [exact Hn|]. split; [exact Hs|]. split.
    + rewrite split_join; [reflexivity|].
      eapply Forall_impl; [|exact Htok]. apply token_word.
    + apply Forall_forall. intros c Hc.
      now apply (join_tokens_chars _ Htok).
Qed.
End Normalize.

Lemma normalize_text_is_idempotent_witness :
  _normalize_text table lower_text (Some (u "  Arc-en-Ciel  & Co_ "))
    = u "arc en ciel co" /\
  _normalize_text table lower_text
    (Some (_normalize_text table lower_text
                           (Some (u "  Arc-en-Ciel  & Co_ "))))
    = _normalize_text table lower_text (Some (u "  Arc-en-Ciel  & Co_ ")).
Proof.
  split; [reflexivity|].
  apply (@normalize_text_is_idempotent
           table lower_text table_ascii lower_text_ascii
           (Some (u "  Arc-en-Ciel  & Co_ "))).
Defined.

(** ** Word variants *)

(** Every rule replaces a pattern by a text one character longer or
    shorter at most. *)
Lemma replacement_lengths pattern r :
  In r (replacements_of pattern) ->
  length pattern <= length r + 1 /\ length r <= length pattern + 1.
Proof.
  unfold replacements_of.
  destruct (find _ WORD_SUBSTITUTIONS) as [kv|] eqn:E; [|intros []].
  apply find_some in E. destruct E as [Hkv Hk].
  apply str_eqb_true in Hk. subst pattern.
  assert (Hall : forallb
                   (fun kv =>
                      forallb (fun r =>
                                 (length (fst kv) <=? length r + 1)%nat
                                 && (length r <=? length (fst kv) + 1)%nat)
                              (snd kv))
                   WORD_SUBSTITUTIONS = true) by (vm_compute; reflexivity).
  rewrite forallb_forall in Hall. specialize (Hall _ Hkv).
  rewrite forallb_forall in Hall.
  intros Hr. specialize (Hall _ Hr).
  apply andb_true_iff in Hall. destruct Hall as [H1 H2].
  apply Nat.leb_le in H1. apply Nat.leb_le in H2.
  split; [exact H1 | exact H2].
Qed.

Lemma dedupe_variants_length word v :
  In v (dedupe_variants word) -> length v + 1 = length word.
Proof.
  unfold dedupe_variants. rewrite in_flat_map.
  intros (idx & Hidx & Hv). apply in_seq in Hidx.
  destruct (char_at word idx =? char_at word (idx + 1))%N; [|contradiction].
  destruct Hv as [<-|[]].
  rewrite length_app, length_firstn, length_skipn. lia.
Qed.

Lemma swap_variants_length word v :
  In v (swap_variants word) -> length v = length word.
Proof.
  unfold swap_variants. rewrite in_flat_map.
  intros (idx & Hidx & Hv). apply in_seq in Hidx.
  destruct (negb _); [|contradiction].
  destruct Hv as [<-|[]].
  rewrite !length_app, length_firstn, length_skipn. simpl. lia.
Qed.

Lemma substitution_variants_length word v :
  In v (substitution_variants word) ->
  length word <= length v + 1 /\ length v <= length word + 1.
Proof.
  unfold substitution_variants. rewrite in_flat_map.
  intros (pattern & _ & Hv). rewrite in_flat_map in Hv.
  destruct Hv as (found & Hfound & Hv).
  apply in_map_iff in Hv. destruct Hv as (r & <- & Hr).
  unfold occurrences in Hfound. apply filter_In in Hfound.
  destruct Hfound as [Hseq Hp]. apply in_seq in Hseq.
  apply prefixb_length in Hp. rewrite length_skipn in Hp.
  destruct (replacement_lengths _ _ Hr) as [H1 H2].
  rewrite !length_app, length_firstn, length_skipn. lia.
Qed.

Section Variants.
Variable set_iter : list str -> list str.
Hypothesis set_iter_members :
  forall l x, In x (set_iter l) -> In x l.

Abbreviation _generate_word_variants := (_generate_word_variants set_iter).

(** X26. Every variant that [_generate_word_variants] returns is a
    non-empty word other than the given one, and is one character
    longer or shorter than it at most. *)
Theorem word_variants_are_close (word variant : str) :
  In variant (_generate_word_variants word) ->
  variant <> [] /\ variant <> word /\
  length word <= length variant + 1 /\
  length variant <= length word + 1.
Proof.
  unfold FuzzyMatcher._generate_word_variants.
  destruct word as [|c word]; [intros []|].
  intros H. apply filter_In in H. destruct H as [Hin Hkeep].
  apply andb_true_iff in Hkeep. destruct Hkeep as [Ht Hw].
  apply truthy_true in Ht. apply negb_true_iff, str_eqb_false in Hw.
  split; [exact Ht|]. split; [exact Hw|].
  apply set_iter_members in Hin.
  apply in_app_or in Hin. destruct Hin as [Hin|Hin].
  - apply dedupe_variants_length in Hin. lia.
  - apply in_app_or in Hin. destruct Hin as [Hin|Hin].
    + apply swap_variants_length in Hin. lia.
    + now apply substitution_variants_length in Hin.
Qed.
End Variants.

Lemma word_variants_are_close_witness :
  In (u "luminark") (_generate_word_variants in_order (u "luminarc")) /\
  u "luminark" <> [] /\ u "luminark" <> u "luminarc" /\
  length (u "luminarc") <= length (u "luminark") + 1 /\
  length (u "luminark") <= length (u "luminarc") + 1.
Proof.
  assert (Hin : In (u "luminark")
                   (_generate_word_variants in_order (u "luminarc"))).
  { vm_compute. tauto. }
  split; [exact Hin|].
  exact (@word_variants_are_close in_order in_order_members
           (u "luminarc") (u "luminark") Hin).
Defined.

(** ** Expansion *)

Section Expand.
Variable transliterate : N -> str.
Variable lower : str -> str.
Variable set_iter : list str -> list str.
Hypothesis transliterate_ascii : forall c, ascii_text (transliterate c).
Hypothesis lower_ascii :
  forall s, ascii_text s -> lower s = map ascii_lower s.
Hypothesis lower_stripped :
  forall s, strip s = s -> strip (lower s) = lower s.
Hypothesis set_iter_members :
  forall l x, In x (set_iter l) -> In x l.

Abbreviation _normalize_text := (_normalize_text transliterate lower).
Abbreviation _expand_search_text_variants :=
  (_expand_search_text_variants transliterate lower set_iter).

(** X27. The expansion puts the phrase itself first: whenever the
    trimmed phrase has a normalized form, it is the first variant
    returned, so the cut at five variants never drops it. Every
    variant returned is a trimmed, non-empty text. *)
Theorem expansion_starts_with_phrase (search_text : str) :
  exists variants,
    _expand_search_text_variants (Some search_text) = Some variants /\
    Forall (fun v => v <> [] /\ strip v = v) variants /\
    (_normalize_text (Some (strip search_text)) <> [] ->
     hd_error variants = Some (strip search_text)).
Proof.
  destruct (str_eq_dec (strip search_text) []) as [E|Hne].
  { exists []. rewrite (expand_blank _ _ _ _ E).
    split; [reflexivity|]. split; [constructor|].
    intros H. exfalso. apply H. now rewrite E. }
  destruct (@expand_ranked transliterate lower set_iter
                           transliterate_ascii lower_ascii lower_stripped
                           set_iter_members search_text Hne)
    as (d & Hok & Hin & ->).
  set (nb := _normalize_text (Some (strip search_text))) in *.
  eexists. split; [reflexivity|]. split.
  - apply Forall_forall. intros v Hv.
    apply In_firstn in Hv. apply in_map_iff in Hv.
    destruct Hv as (x & <- & Hx).
    destruct (scored_entries _ Hok Hx) as [_ Hshape].
    apply (Permutation_in _ (sorted_perm scored_ltb (scored nb d))) in Hx.
    unfold scored in Hx. apply in_map_iff in Hx.
    destruct Hx as ([k w] & <- & Hkw). cbn [snd] in *.
    destruct Hok as [_ Hall]. rewrite Forall_forall in Hall.
    destruct (Hall _ Hkw) as (Hk & Hnorm & _). cbn [fst snd] in *.
    split.
    + intros ->. apply Hk. rewrite <- Hnorm. reflexivity.
    + destruct Hshape as [->|[->|Hself]].
      * apply strip_idem.
      * apply lower_stripped, strip_idem.
      * pose proof (@normalize_text_trimmed
                      transliterate lower
                      transliterate_ascii lower_ascii (Some w)) as Hw.
        now rewrite Hself in Hw.
  - intros Hnb. specialize (Hin Hnb).
    destruct (@sorted_least (0, strip search_text) (scored nb d))
      as (rest & Hsorted).
    + unfold scored. apply in_map_iff.
      exists (nb, strip search_text). split; [|exact Hin]. simpl.
      f_equal. now apply LevenshteinFacts.distance_zero.
    + intros x Hx. unfold scored in Hx. apply in_map_iff in Hx.
      destruct Hx as ([k v] & <- & Hkv). simpl.
      destruct (str_eq_dec k nb) as [->|Hk].
      * left. destruct Hok as [Hnd _].
        rewrite (unique_value _ _ _ _ Hnd Hkv Hin).
        f_equal. now apply LevenshteinFacts.distance_zero.
      * right. unfold scored_ltb. simpl.
        destruct (Levenshtein.distance nb k) eqn:Ed; [|reflexivity].
        apply LevenshteinFacts.distance_zero in Ed. congruence.
    + rewrite Hsorted. reflexivity.
Qed.
End Expand.

Lemma expansion_starts_with_phrase_witness :
  exists variants,
    _expand_search_text_variants table lower_text in_order
                                 (Some (u " Luminarc ")) = Some variants /\
    Forall (fun v => v <> [] /\ strip v = v) variants /\
    hd_error variants = Some (u "Luminarc").
Proof.
  destruct (@expansion_starts_with_phrase
              table lower_text in_order table_ascii lower_text_ascii
              lower_text_stripped in_order_members (u " Luminarc "))
    as (variants & Hv & Hall & Hhd).
  exists variants. split; [exact Hv|]. split; [exact Hall|].
  apply Hhd. vm_compute. discriminate.
Defined.
End FuzzyMatcherProperties.

(* ================================================================== *)
(** * Adding a query *)
(* ================================================================== *)

Module CoreFacts.
Import Py PyFacts FuzzyMatcher FuzzyMatcherFacts Core.

Lemma added_message_differs text :
  u "Added " ++ text <> u "Query already exists.".
Proof. intros H. vm_compute in H. discriminate. Qed.

Section Queries.
Variable transliterate : N -> str.
Variable lower : str -> str.
Variable set_iter : list str -> list str.
Variable ParseResult : Type.
Variable urlparse : str -> ParseResult.
Variable parse_qs : ParseResult -> QueryParams.
Variable build_processed_query : ParseResult -> QueryParams -> str.
Variable ENABLE_VARIANTS : bool.
Variable Db : Type.
Variable is_query_in_db : Db -> str -> bool.
Variable add_query_to_db : Db -> str -> option str -> Db.

Abbreviation variant_queries_of :=
  (variant_queries_of transliterate lower set_iter
                      build_processed_query ENABLE_VARIANTS).
Abbreviation add_queries := (add_queries is_query_in_db add_query_to_db).
Abbreviation process_query :=
  (process_query transliterate lower set_iter urlparse parse_qs
                 build_processed_query ENABLE_VARIANTS
                 is_query_in_db add_query_to_db).

(** The database after the queries [added] have been stored under
    [stored_name], one after the other. *)
Definition stored (db : Db) (added : list str) (stored_name : option str)
  : Db :=
  fold_left (fun db q => add_query_to_db db q stored_name) added db.

Lemma add_queries_stored variant_queries stored_name db added_count :
  exists added,
    add_queries variant_queries stored_name db added_count
    = (stored db added stored_name, added_count + length added) /\
    length added <= length variant_queries /\
    (forall q, In q added -> In q variant_queries).
Proof.
  revert db added_count.
  induction variant_queries as [|q rest IH]; intros db n; simpl.
  - exists []. simpl. rewrite Nat.add_0_r. auto.
  - destruct (is_query_in_db db q).
    + destruct (IH db n) as (added & -> & Hlen & Hin).
      exists added. split; [reflexivity|]. split; [lia | auto].
    + destruct (IH (add_query_to_db db q stored_name) (S n))
        as (added & -> & Hlen & Hin).
      exists (q :: added). simpl. split; [f_equal; lia|].
      split; [lia|]. intros x [<-|Hx]; auto.
Qed.

(** The name under which [process_query] stores the queries. *)
Definition stored_name_of (query : str) (name : option str)
  : option str :=
  let base_search_text :=
    base_search_text_of (query_params_of parse_qs (urlparse query)) in
  encode_query_name (if truthy_opt name then name else base_search_text)
                    base_search_text.

Lemma process_query_stored db query name variant_queries :
  variant_queries_of
    (urlparse query) (query_params_of parse_qs (urlparse query))
    (base_search_text_of (query_params_of parse_qs (urlparse query)))
  = Some variant_queries ->
  exists message is_new added,
    process_query db query name
    = Some (message, is_new,
            stored db added (stored_name_of query name)) /\
    length added <= length variant_queries /\
    (forall q, In q added -> In q variant_queries) /\
    is_new = negb (length added =? 0)%nat /\
    (message = u "Query already exists." <-> added = []).
Proof.
  intros Hv. unfold Core.process_query. rewrite Hv.
  fold (stored_name_of query name).
  destruct (add_queries_stored variant_queries
                               (stored_name_of query name) db 0)
    as (added & -> & Hlen & Hin).
  cbn [Nat.add].
  destruct added as [|q added]; cbn [length Nat.eqb negb].
  - do 3 eexists. split; [reflexivity|]. repeat split; auto.
  - destruct (length variant_queries =? 1)%nat.
    + do 3 eexists. split; [reflexivity|].
      repeat split; auto; try discriminate;
        try (intros H; vm_compute in H; discriminate).
    + do 3 eexists. split; [reflexivity|].
      repeat split; auto; try discriminate;
        try (intros H; now apply added_message_differs in H).
Qed.

Section Bounded.
Hypothesis transliterate_ascii :
  forall c, ascii_text (transliterate c).
Hypothesis lower_ascii :
  forall s, ascii_text s -> lower s = map ascii_lower s.
Hypothesis lower_stripped :
  forall s, strip s = s -> strip (lower s) = lower s.
Hypothesis set_iter_members :
  forall l x, In x (set_iter l) -> In x l.

Lemma variant_queries_bounded parsed_url base_params base_search_text :
  exists variant_queries,
    variant_queries_of parsed_url base_params base_search_text
    = Some variant_queries /\
    length variant_queries <= MAX_VARIANTS.
Proof.
  unfold Core.variant_queries_of.
  destruct (truthy_opt base_search_text && ENABLE_VARIANTS) eqn:E.
  2: { eexists. split; [reflexivity|]. unfold MAX_VARIANTS. simpl. lia. }
  apply andb_true_iff in E. destruct E as [Et _].
  destruct base_search_text as [[|c text]|]; try discriminate.
  destruct (str_eq_dec (strip (c :: text)) []) as [Eb|Hne].
  - rewrite (expand_blank _ _ _ _ Eb).
    eexists. split; [reflexivity|]. simpl. lia.
  - destruct (@expand_ranked transliterate lower set_iter
                             transliterate_ascii lower_ascii
                             lower_stripped set_iter_members
                             (c :: text) Hne) as (d & _ & _ & ->).
    eexists. split; [reflexivity|].
    rewrite length_map. apply firstn_le_length.
Qed.

(** X28. [process_query] stores at most [MAX_VARIANTS] queries per
    call, all of them under the same encoded name; it reports a new
    query exactly when it stored one, and says "Query already
    exists." exactly when it stored none. *)
Theorem process_query_adds_at_most_five
        (db : Db) (query : str) (name : option str) :
  exists message is_new added,
    process_query db query name
    = Some (message, is_new,
            stored db added (stored_name_of query name)) /\
    length added <= MAX_VARIANTS /\
    is_new = negb (length added =? 0)%nat /\
    (message = u "Query already exists." <-> added = []).
Proof.
  destruct (variant_queries_bounded
              (urlparse query)
              (query_params_of parse_qs (urlparse query))
              (base_search_text_of
                 (query_params_of parse_qs (urlparse query))))
    as (variant_queries & Hv & Hbound).
  destruct (process_query_stored db query name Hv)
    as (message & is_new & added & Hp & Hlen & _ & Hnew & Hmsg).
  exists message, is_new, added.
  split; [exact Hp|]. split; [lia|]. split; [exact Hnew | exact Hmsg].
Qed.
End Bounded.

(** X29. With variants enabled, a search text that is not empty but
    blank (the URL carries [search_text=+]) has no variant at all:
    [process_query] then tests and stores nothing, leaves the database
    as it was, and answers "Query already exists." although no such
    query exists. *)
Theorem blank_search_text_adds_nothing
        (db : Db) (query : str) (name : option str) (text : str) :
  ENABLE_VARIANTS = true ->
  base_search_text_of (query_params_of parse_qs (urlparse query))
    = Some text ->
  text <> [] -> strip text = [] ->
  process_query db query name
  = Some (u "Query already exists.", false, db).
Proof.
  intros Hon Hbase Hne Hblank.
  unfold Core.process_query, Core.variant_queries_of.
  rewrite Hbase, Hon.
  destruct text as [|c text]; [congruence|]. cbn [truthy_opt andb].
  now rewrite (expand_blank _ _ _ _ Hblank).
Qed.

(** ** Listing the queries *)

Lemma stored_then_decoded (display_name : str)
      (base_search_text : option str) :
  ~ In pipe display_name ->
  ~ In pipe (or_empty base_search_text) ->
  strip display_name <> [] ->
  fst (decode_query_name
         (encode_query_name (Some display_name) base_search_text))
  = Some (strip display_name).
Proof.
  intros Hd Hb Hne.
  assert (Hs : strip (strip display_name) = strip display_name)
    by apply strip_idem.
  assert (Hp : ~ In pipe (strip display_name)).
  { intros Hin. apply Hd. now apply strip_In. }
  assert (Hcb : clean_name base_search_text
                = strip (or_empty base_search_text)).
  { destruct base_search_text as [b|]; [|reflexivity].
    now apply clean_name_plain. }
  unfold encode_query_name.
  rewrite Hcb, (@clean_name_plain display_name Hd).
  apply truthy_true in Hne as Ht. rewrite Ht.
  destruct (strip (or_empty base_search_text)) as [|b base] eqn:Eb;
    cbn [truthy].
  - unfold decode_query_name.
    destruct (strip display_name) as [|c t] eqn:E; [congruence|].
    rewrite delimiter_pipes.
    rewrite FuzzyMatcherProperties.contains_absent by exact Hp.
    rewrite Hs. reflexivity.
  - assert (Hpb : ~ In pipe (b :: base)).
    { rewrite <- Eb. intros Hin. apply Hb. now apply strip_In. }
    assert (Hsb : strip (b :: base) = b :: base).
    { rewrite <- Eb. apply strip_idem. }
    rewrite strip_chars_joined by (auto; discriminate).
    rewrite decode_joined by (auto; discriminate).
    reflexivity.
Qed.

(** X30. A query stored under a name is listed under that name:
    where the stored name of a row is what [encode_query_name] makes
    of a display name that is not blank and a base search text, both
    without the character '|', the entry of the row in
    [get_formatted_query_list] is the trimmed display name,
    whatever the URL of the row and its search text are. *)
Theorem listed_under_stored_name
        (url display_name : str) (base_search_text : option str) :
  ~ In pipe display_name ->
  ~ In pipe (or_empty base_search_text) ->
  strip display_name <> [] ->
  get_param (u "search_text") (parse_qs (urlparse url)) <> Some [] ->
  entry_of urlparse parse_qs
           {| row_url := url;
              row_name := encode_query_name (Some display_name)
                                            base_search_text |}
  = Ok (strip display_name).
Proof.
  intros Hd Hb Hne Hq. unfold entry_of. cbn [row_url row_name].
  pose proof (@stored_then_decoded display_name base_search_text
                                   Hd Hb Hne) as Hdec.
  destruct (decode_query_name
              (encode_query_name (Some display_name) base_search_text))
    as [shown base]. cbn [fst] in Hdec. subst shown.
  assert (Ht : truthy_opt (Some (strip display_name)) = true).
  { destruct (strip display_name); [congruence | reflexivity]. }
  destruct (get_param (u "search_text") (parse_qs (urlparse url)))
    as [[|text rest]|]; [congruence| |];
    cbn [bind]; now rewrite Ht.
Qed.
End Queries.

(** ** A database of URLs *)

(** A stand-in for [urllib.parse]: the URL is its own search text. *)
Definition search_for (query : str) : QueryParams :=
  [(u "search_text", [query]); (u "page", [u "2"])].

Definition url_of (parsed_url : QueryParams) (params : QueryParams) : str :=
  match get_param (u "search_text") params with
  | Some (text :: _) => u "https://www.vinted.fr/catalog?search_text=" ++ text
  | _ => u "https://www.vinted.fr/catalog"
  end.

Definition known (db : list (str * option str)) (q : str) : bool :=
  existsb (fun row => str_eqb (fst row) q) db.

Definition insert_row (db : list (str * option str)) (q : str)
           (name : option str) : list (str * option str) :=
  db ++ [(q, name)].

Lemma process_query_adds_at_most_five_witness :
  exists message is_new added,
    process_query table lower_text in_order search_for (fun p => p) url_of
                  true known insert_row [] (u "luminarc") None
    = Some (message, is_new,
            stored insert_row [] added
                   (stored_name_of search_for (fun p => p)
                                   (u "luminarc") None)) /\
    length added <= MAX_VARIANTS /\
    is_new = negb (length added =? 0)%nat /\
    (message = u "Query already exists." <-> added = []).
Proof.
  exact (@process_query_adds_at_most_five
           table lower_text in_order QueryParams search_for (fun p => p)
           url_of true (list (str * option str)) known insert_row
           table_ascii lower_text_ascii lower_text_stripped
           in_order_members [] (u "luminarc") None).
Defined.

Lemma blank_search_text_adds_nothing_witness :
  process_query table lower_text in_order search_for (fun p => p) url_of
                true known insert_row [] (u " ") None
  = Some (u "Query already exists.", false, []).
Proof.
  apply (@blank_search_text_adds_nothing
           table lower_text in_order QueryParams search_for (fun p => p)
           url_of true (list (str * option str)) known insert_row
           [] (u " ") None (u " ")).
  - reflexivity.
  - reflexivity.
  - discriminate.
  - reflexivity.
Defined.

Lemma listed_under_stored_name_witness :
  entry_of search_for (fun p => p)
           {| row_url := u "luminarc";
              row_name := encode_query_name (Some (u " Arcopal bowls "))
                                            (Some (u "arcopal")) |}
  = Ok (u "Arcopal bowls").
Proof.
  apply (@listed_under_stored_name
           QueryParams search_for (fun p => p)
           (u "luminarc") (u " Arcopal bowls ") (Some (u "arcopal"))).
  - vm_compute. intuition discriminate.
  - vm_compute. intuition discriminate.
  - vm_compute. discriminate.
  - vm_compute. discriminate.
Defined.

(** The five variants of "luminarc" are stored, and a second call finds
    them all. *)
Example process_query_luminarc :
  exists db,
    process_query table lower_text in_order search_for (fun p => p) url_of
                  true known insert_row [] (u "luminarc") None
    = Some (u "Added 5 queries (5 variants considered).", true, db) /\
    length db = 5 /\
    process_query table lower_text in_order search_for (fun p => p) url_of
                  true known insert_row db (u "luminarc") None
    = Some (u "Query already exists.", false, db).
Proof.
  eexists. split; [vm_compute; reflexivity|].
  split; [reflexivity | vm_compute; reflexivity].
Qed.
End CoreFacts.
